(** * Client-side message synchronisation of the chat room hooks

    A shallow embedding of the two React hooks that keep the local message
    log of a chat room consistent with the server's event stream:

    - [useReactionHandling.js]: [updateSingleMessage], [handleReactionAdd],
      [handleReactionRemove], [handleReactionUpdate];
    - the chat-room hook ([useChatRoom]): [cleanup], [processMessages],
      the socket listeners installed by [setupEventListeners],
      [getConnectionState], [retryMessageLoad] and the function run on
      unmount;

    and of the two components that call them:

    - [MessageActions.js]: [handleReactionSelect], [renderReactions];
    - [ChatInput.js]: [handleSubmit], [handleInputChange],
      [handleMentionSelect], [handleKeyDown].

    Modelling conventions.

    - JavaScript objects have identity.  An object is a pair of an address
      ([ref]) and its fields ([val]); [===] on objects compares addresses;
      object and array literals and spreads allocate a fresh address from
      the counter [next_ref] of the state.  No object of these hooks is
      mutated in place after its creation.
    - [useState] cells and [useRef] cells are fields of one [State] record.
      [setMessages(updater)] runs the updater on the current store at once:
      updates are applied in the order in which they are issued, each
      updater receiving the store left by the previous one.
    - Values captured by a closure at render time ([messages] in
      [handleReactionAdd], [handleReactionRemove] and
      [handlePreviousMessages]) are explicit arguments of the embedded
      function.  A handler keeps the [messages] of the render that made
      it: an event that reaches such a handler carries the age of the
      handler in renders, [handle] is given the stores rendered so far
      (the latest first) and passes the one of that age, and
      [after_renders] records a render before every event.
    - A reaction map is a plain object: reading a name that the object
      does not own goes to [Object.prototype], so that the names of
      [Object_prototype] give a value that is not an array, on which
      [includes] and [filter] raise a [TypeError].
    - A [timestamp] is a number of epoch milliseconds ([Z]); an absent
      timestamp is [None], and [0] is falsy as in the language, so that
      [t || 0] is [default 0 t].  [new Date(t)] is an Invalid Date for a
      [t] outside the range of [Date], and arithmetic on it gives [NaN].
    - [undefined] is [None]; an id is a string, falsy when empty.
    - Inbound payloads are typed: a message of a batch is an object (not
      [null]), [messageIds] is an array, the current user is logged in and
      given by its id.  What the handlers test themselves (a payload that
      is not an object, a field that is not an array, a missing message)
      is part of the types [Response], [Field] and [option].
    - Code that can throw runs in the monad [Eff]: state passing with an
      outcome that is either a value or a thrown error.
    - The transport is what the hooks see of it: whether it is connected,
      whether its next [emit] raises, the listeners registered and the
      events emitted.
    - What a hook calls outside these files ([logout], [router.replace],
      [loadInitialMessages]) is recorded as a call, not run.
    - An [async] function is the sequence of its synchronous steps: the
      step up to an [await], and the step that follows when the awaited
      promise has settled.
    - The text of the textarea is the list of its UTF-16 code units; a
      number that can be [NaN] is an [option Z]. *)

From Stdlib Require Import ZArith Lia Sorting.Sorted Permutation.
From stdpp Require Import gmap strings list fin_maps sorting.

Set Default Proof Using "Type".

(* ===================================================================== *)
(** ** Data model *)
(* ===================================================================== *)

(** An entry of [readers]: the hooks write [{userId, readAt}]; entries
    sent by the server may carry the user under [_id] instead. *)
Record Reader := {
  r_userId : option string;
  r__id : option string;
  readAt : Z;
}.

(** A message as a bag of optional fields, so that the empty object [{}]
    (all fields [undefined]) is a value of the type. *)
Record Message := {
  _id : option string;
  timestamp : option Z;
  content : option string;
  sender : option string;
  reactions : option (gmap string (list string));
  readers : option (list Reader);
}.

Definition empty_object : Message :=
  {| _id := None; timestamp := None; content := None; sender := None;
     reactions := None; readers := None |}.

(** [{...msg, reactions}] and [{...msg, readers}] as field updates. *)
Definition with_reactions (r : option (gmap string (list string)))
    (m : Message) : Message :=
  {| _id := _id m; timestamp := timestamp m; content := content m;
     sender := sender m; reactions := r; readers := readers m |}.

Definition with_readers (r : option (list Reader)) (m : Message) : Message :=
  {| _id := _id m; timestamp := timestamp m; content := content m;
     sender := sender m; reactions := reactions m; readers := r |}.

(** Objects and arrays with identity. *)
Record MsgObj := { ref : nat; val : Message }.
Record Arr := { aref : nat; elems : list MsgObj }.

(** [a === b] on two message objects. *)
Definition strict_eq (a b : MsgObj) : bool := Nat.eqb (ref a) (ref b).

(** Truthiness of an id: [undefined] and the empty string are falsy. *)
Definition truthy (s : option string) : bool :=
  match s with
  | Some x => negb (String.eqb x "")
  | None => false
  end.

(** [m.timestamp || 0], the argument of [new Date] in the comparator of
    the sort. *)
Definition ts (m : MsgObj) : Z := default 0%Z (timestamp (val m)).

(** [new Date(t)] for a number [t]: the time value of the date, or [None]
    for an Invalid Date, which is what an instant more than 8.64e15
    milliseconds away from the epoch gives. *)
Definition new_Date (t : Z) : option Z :=
  if (Z.abs t <=? 8640000000000000)%Z then Some t else None.

(** The transport: what the hooks observe of the socket, and what they
    do to it. *)
Inductive Outbound :=
| LeaveRoom (room : string)
| MessageReaction (messageId : option string) (reaction type : string).

Record Socket := {
  connected : bool;
  emit_throws : bool;            (* the next [emit] raises *)
  listeners : list string;       (* event names with a registered listener *)
  outbox : list Outbound;        (* events emitted so far *)
}.

Record State := {
  next_ref : nat;
  (* useState *)
  messages : Arr;
  error : option string;
  loading : bool;
  hasMoreMessages : option bool;
  loadingMessages : bool;
  (* useRef *)
  mountedRef : bool;
  cleanupInProgressRef : bool;
  messageProcessingRef : bool;
  initialLoadCompletedRef : bool;
  userRooms : gmap string string;
  previousMessagesRef : gset string;
  processedMessageIds : gset string;
  loadMoreTimeoutRef : option nat;
  (* environment *)
  roomId : option string;
  socketRef : option Socket;
  toasts : list string;
}.

(** Assignments to one cell of the state. *)
Definition set_next_ref (v : nat) (s : State) : State :=
  {| next_ref := v; messages := messages s; error := error s; loading :=
     loading s; hasMoreMessages := hasMoreMessages s; loadingMessages :=
     loadingMessages s; mountedRef := mountedRef s; cleanupInProgressRef :=
     cleanupInProgressRef s; messageProcessingRef := messageProcessingRef s;
     initialLoadCompletedRef := initialLoadCompletedRef s; userRooms :=
     userRooms s; previousMessagesRef := previousMessagesRef s;
     processedMessageIds := processedMessageIds s; loadMoreTimeoutRef :=
     loadMoreTimeoutRef s; roomId := roomId s; socketRef := socketRef s;
     toasts := toasts s |}.

Definition set_messages (v : Arr) (s : State) : State :=
  {| next_ref := next_ref s; messages := v; error := error s; loading :=
     loading s; hasMoreMessages := hasMoreMessages s; loadingMessages :=
     loadingMessages s; mountedRef := mountedRef s; cleanupInProgressRef :=
     cleanupInProgressRef s; messageProcessingRef := messageProcessingRef s;
     initialLoadCompletedRef := initialLoadCompletedRef s; userRooms :=
     userRooms s; previousMessagesRef := previousMessagesRef s;
     processedMessageIds := processedMessageIds s; loadMoreTimeoutRef :=
     loadMoreTimeoutRef s; roomId := roomId s; socketRef := socketRef s;
     toasts := toasts s |}.

Definition set_error (v : option string) (s : State) : State :=
  {| next_ref := next_ref s; messages := messages s; error := v; loading :=
     loading s; hasMoreMessages := hasMoreMessages s; loadingMessages :=
     loadingMessages s; mountedRef := mountedRef s; cleanupInProgressRef :=
     cleanupInProgressRef s; messageProcessingRef := messageProcessingRef s;
     initialLoadCompletedRef := initialLoadCompletedRef s; userRooms :=
     userRooms s; previousMessagesRef := previousMessagesRef s;
     processedMessageIds := processedMessageIds s; loadMoreTimeoutRef :=
     loadMoreTimeoutRef s; roomId := roomId s; socketRef := socketRef s;
     toasts := toasts s |}.

Definition set_loading (v : bool) (s : State) : State :=
  {| next_ref := next_ref s; messages := messages s; error := error s;
     loading := v; hasMoreMessages := hasMoreMessages s; loadingMessages :=
     loadingMessages s; mountedRef := mountedRef s; cleanupInProgressRef :=
     cleanupInProgressRef s; messageProcessingRef := messageProcessingRef s;
     initialLoadCompletedRef := initialLoadCompletedRef s; userRooms :=
     userRooms s; previousMessagesRef := previousMessagesRef s;
     processedMessageIds := processedMessageIds s; loadMoreTimeoutRef :=
     loadMoreTimeoutRef s; roomId := roomId s; socketRef := socketRef s;
     toasts := toasts s |}.

Definition set_hasMoreMessages (v : option bool) (s : State) : State :=
  {| next_ref := next_ref s; messages := messages s; error := error s;
     loading := loading s; hasMoreMessages := v; loadingMessages :=
     loadingMessages s; mountedRef := mountedRef s; cleanupInProgressRef :=
     cleanupInProgressRef s; messageProcessingRef := messageProcessingRef s;
     initialLoadCompletedRef := initialLoadCompletedRef s; userRooms :=
     userRooms s; previousMessagesRef := previousMessagesRef s;
     processedMessageIds := processedMessageIds s; loadMoreTimeoutRef :=
     loadMoreTimeoutRef s; roomId := roomId s; socketRef := socketRef s;
     toasts := toasts s |}.

Definition set_loadingMessages (v : bool) (s : State) : State :=
  {| next_ref := next_ref s; messages := messages s; error := error s;
     loading := loading s; hasMoreMessages := hasMoreMessages s;
     loadingMessages := v; mountedRef := mountedRef s; cleanupInProgressRef
     := cleanupInProgressRef s; messageProcessingRef := messageProcessingRef
     s; initialLoadCompletedRef := initialLoadCompletedRef s; userRooms :=
     userRooms s; previousMessagesRef := previousMessagesRef s;
     processedMessageIds := processedMessageIds s; loadMoreTimeoutRef :=
     loadMoreTimeoutRef s; roomId := roomId s; socketRef := socketRef s;
     toasts := toasts s |}.

Definition set_cleanupInProgressRef (v : bool) (s : State) : State :=
  {| next_ref := next_ref s; messages := messages s; error := error s;
     loading := loading s; hasMoreMessages := hasMoreMessages s;
     loadingMessages := loadingMessages s; mountedRef := mountedRef s;
     cleanupInProgressRef := v; messageProcessingRef := messageProcessingRef
     s; initialLoadCompletedRef := initialLoadCompletedRef s; userRooms :=
     userRooms s; previousMessagesRef := previousMessagesRef s;
     processedMessageIds := processedMessageIds s; loadMoreTimeoutRef :=
     loadMoreTimeoutRef s; roomId := roomId s; socketRef := socketRef s;
     toasts := toasts s |}.

Definition set_messageProcessingRef (v : bool) (s : State) : State :=
  {| next_ref := next_ref s; messages := messages s; error := error s;
     loading := loading s; hasMoreMessages := hasMoreMessages s;
     loadingMessages := loadingMessages s; mountedRef := mountedRef s;
     cleanupInProgressRef := cleanupInProgressRef s; messageProcessingRef :=
     v; initialLoadCompletedRef := initialLoadCompletedRef s; userRooms :=
     userRooms s; previousMessagesRef := previousMessagesRef s;
     processedMessageIds := processedMessageIds s; loadMoreTimeoutRef :=
     loadMoreTimeoutRef s; roomId := roomId s; socketRef := socketRef s;
     toasts := toasts s |}.

Definition set_initialLoadCompletedRef (v : bool) (s : State) : State :=
  {| next_ref := next_ref s; messages := messages s; error := error s;
     loading := loading s; hasMoreMessages := hasMoreMessages s;
     loadingMessages := loadingMessages s; mountedRef := mountedRef s;
     cleanupInProgressRef := cleanupInProgressRef s; messageProcessingRef :=
     messageProcessingRef s; initialLoadCompletedRef := v; userRooms :=
     userRooms s; previousMessagesRef := previousMessagesRef s;
     processedMessageIds := processedMessageIds s; loadMoreTimeoutRef :=
     loadMoreTimeoutRef s; roomId := roomId s; socketRef := socketRef s;
     toasts := toasts s |}.

Definition set_userRooms (v : gmap string string) (s : State) : State :=
  {| next_ref := next_ref s; messages := messages s; error := error s;
     loading := loading s; hasMoreMessages := hasMoreMessages s;
     loadingMessages := loadingMessages s; mountedRef := mountedRef s;
     cleanupInProgressRef := cleanupInProgressRef s; messageProcessingRef :=
     messageProcessingRef s; initialLoadCompletedRef :=
     initialLoadCompletedRef s; userRooms := v; previousMessagesRef :=
     previousMessagesRef s; processedMessageIds := processedMessageIds s;
     loadMoreTimeoutRef := loadMoreTimeoutRef s; roomId := roomId s;
     socketRef := socketRef s; toasts := toasts s |}.

Definition set_previousMessagesRef (v : gset string) (s : State) : State :=
  {| next_ref := next_ref s; messages := messages s; error := error s;
     loading := loading s; hasMoreMessages := hasMoreMessages s;
     loadingMessages := loadingMessages s; mountedRef := mountedRef s;
     cleanupInProgressRef := cleanupInProgressRef s; messageProcessingRef :=
     messageProcessingRef s; initialLoadCompletedRef :=
     initialLoadCompletedRef s; userRooms := userRooms s;
     previousMessagesRef := v; processedMessageIds := processedMessageIds s;
     loadMoreTimeoutRef := loadMoreTimeoutRef s; roomId := roomId s;
     socketRef := socketRef s; toasts := toasts s |}.

Definition set_processedMessageIds (v : gset string) (s : State) : State :=
  {| next_ref := next_ref s; messages := messages s; error := error s;
     loading := loading s; hasMoreMessages := hasMoreMessages s;
     loadingMessages := loadingMessages s; mountedRef := mountedRef s;
     cleanupInProgressRef := cleanupInProgressRef s; messageProcessingRef :=
     messageProcessingRef s; initialLoadCompletedRef :=
     initialLoadCompletedRef s; userRooms := userRooms s;
     previousMessagesRef := previousMessagesRef s; processedMessageIds := v;
     loadMoreTimeoutRef := loadMoreTimeoutRef s; roomId := roomId s;
     socketRef := socketRef s; toasts := toasts s |}.

Definition set_loadMoreTimeoutRef (v : option nat) (s : State) : State :=
  {| next_ref := next_ref s; messages := messages s; error := error s;
     loading := loading s; hasMoreMessages := hasMoreMessages s;
     loadingMessages := loadingMessages s; mountedRef := mountedRef s;
     cleanupInProgressRef := cleanupInProgressRef s; messageProcessingRef :=
     messageProcessingRef s; initialLoadCompletedRef :=
     initialLoadCompletedRef s; userRooms := userRooms s;
     previousMessagesRef := previousMessagesRef s; processedMessageIds :=
     processedMessageIds s; loadMoreTimeoutRef := v; roomId := roomId s;
     socketRef := socketRef s; toasts := toasts s |}.

Definition set_socketRef (v : option Socket) (s : State) : State :=
  {| next_ref := next_ref s; messages := messages s; error := error s;
     loading := loading s; hasMoreMessages := hasMoreMessages s;
     loadingMessages := loadingMessages s; mountedRef := mountedRef s;
     cleanupInProgressRef := cleanupInProgressRef s; messageProcessingRef :=
     messageProcessingRef s; initialLoadCompletedRef :=
     initialLoadCompletedRef s; userRooms := userRooms s;
     previousMessagesRef := previousMessagesRef s; processedMessageIds :=
     processedMessageIds s; loadMoreTimeoutRef := loadMoreTimeoutRef s;
     roomId := roomId s; socketRef := v; toasts := toasts s |}.

Definition set_toasts (v : list string) (s : State) : State :=
  {| next_ref := next_ref s; messages := messages s; error := error s;
     loading := loading s; hasMoreMessages := hasMoreMessages s;
     loadingMessages := loadingMessages s; mountedRef := mountedRef s;
     cleanupInProgressRef := cleanupInProgressRef s; messageProcessingRef :=
     messageProcessingRef s; initialLoadCompletedRef :=
     initialLoadCompletedRef s; userRooms := userRooms s;
     previousMessagesRef := previousMessagesRef s; processedMessageIds :=
     processedMessageIds s; loadMoreTimeoutRef := loadMoreTimeoutRef s;
     roomId := roomId s; socketRef := socketRef s; toasts := v |}.

(* ===================================================================== *)
(** ** Effects: state passing with exceptions *)
(* ===================================================================== *)

Inductive outcome (A : Type) :=
| Done (a : A)
| Threw (e : string).
Arguments Done {A} a.
Arguments Threw {A} e.

Definition Eff (A : Type) : Type := State → outcome A * State.

#[global] Instance Eff_ret : MRet Eff := λ A a st, (Done a, st).

#[global] Instance Eff_bind : MBind Eff := λ A B f m st,
  match m st with
  | (Done a, st') => f a st'
  | (Threw e, st') => (Threw e, st')
  end.

Definition get : Eff State := λ st, (Done st, st).
Definition modify (f : State → State) : Eff unit := λ st, (Done tt, f st).
Definition throw {A} (e : string) : Eff A := λ st, (Threw e, st).

(** [try { body } catch (e) { handler(e) }] *)
Definition try_catch {A} (body : Eff A) (handler : string → Eff A) : Eff A :=
  λ st, match body st with
        | (Done a, st') => (Done a, st')
        | (Threw e, st') => handler e st'
        end.

(** [try { body } finally { fin }], for a [fin] that does not throw. *)
Definition try_finally {A} (body : Eff A) (fin : State → State) : Eff A :=
  λ st, let '(r, st') := body st in (r, fin st').

(** The state a computation leaves, and what it returns. *)
Definition exec {A} (m : Eff A) (st : State) : State := (m st).2.
Definition result {A} (m : Eff A) (st : State) : outcome A := (m st).1.

(** Object and array literals. *)
Definition alloc_obj (v : Message) : Eff MsgObj := λ st,
  (Done {| ref := next_ref st; val := v |}, set_next_ref (S (next_ref st)) st).

Definition alloc_arr (l : list MsgObj) : Eff Arr := λ st,
  (Done {| aref := next_ref st; elems := l |},
   set_next_ref (S (next_ref st)) st).

(** [setMessages(updater)] *)
Definition setMessages (updater : Arr → Eff Arr) : Eff unit :=
  st ← get; new ← updater (messages st); modify (set_messages new).

(** [Toast.error(text)] *)
Definition toast_error (text : string) : Eff unit :=
  modify (λ st, set_toasts (toasts st ++ [text]) st).

(** [socketRef.current?.connected] *)
Definition socket_connected (st : State) : bool :=
  match socketRef st with
  | Some s => connected s
  | None => false
  end.

(** [socketRef.current.emit(...)]: a property access on [null] throws, and
    so does an emit that the transport refuses. *)
Definition emit (ev : Outbound) : Eff unit := λ st,
  match socketRef st with
  | None => (Threw "TypeError", st)
  | Some s =>
      if emit_throws s then (Threw "emit failed", st)
      else (Done tt,
            set_socketRef
              (Some {| connected := connected s; emit_throws := emit_throws s;
                       listeners := listeners s;
                       outbox := outbox s ++ [ev] |}) st)
  end.

(** [socketRef.current.off(name)] *)
Definition off (name : string) (s : Socket) : Socket :=
  {| connected := connected s; emit_throws := emit_throws s;
     listeners := filter (λ n, n ≠ name) (listeners s);
     outbox := outbox s |}.

(* ===================================================================== *)
(** ** useReactionHandling.js *)
(* ===================================================================== *)

(** [updateSingleMessage(messageId, updater)].  [list_find] is
    [findIndex] together with the read [prev[index]]. *)
Definition updateSingleMessage (messageId : option string)
    (updater : MsgObj → Eff MsgObj) : Eff unit :=
  setMessages (λ prev,
    match list_find (λ m, _id (val m) = messageId) (elems prev) with
    | None => mret prev
    | Some (index, oldMessage) =>
        updatedMessage ← updater oldMessage;
        if strict_eq updatedMessage oldMessage then mret prev
        else alloc_arr (<[index := updatedMessage]> (elems prev))
    end).

(** The names that every plain object inherits from [Object.prototype]. *)
Definition Object_prototype : list string :=
  ["constructor"; "__defineGetter__"; "__defineSetter__"; "hasOwnProperty";
   "__lookupGetter__"; "__lookupSetter__"; "isPrototypeOf";
   "propertyIsEnumerable"; "toString"; "valueOf"; "__proto__";
   "toLocaleString"].

(** The value of [obj[key]] for a plain object whose own keys hold arrays
    of user ids: the array of an own key; for a name of
    [Object.prototype] that is not an own key, the inherited member, a
    function or the prototype itself; [undefined] otherwise. *)
Inductive Property :=
| Own (users : list string)
| Inherited
| Undefined.

Definition get_property (obj : gmap string (list string)) (key : string)
    : Property :=
  match obj !! key with
  | Some users => Own users
  | None =>
      if bool_decide (key ∈ Object_prototype) then Inherited else Undefined
  end.

(** [value || []]: arrays, functions and objects are truthy. *)
Definition or_empty (value : Property) : Property :=
  match value with Undefined => Own [] | _ => value end.

(** The updater of [handleReactionAdd].  An inherited member has no
    method [includes]: the call throws a [TypeError]. *)
Definition add_reaction (currentUser reaction : string) (msg : MsgObj)
    : Eff MsgObj :=
  let currentReactions := default ∅ (reactions (val msg)) in
  match or_empty (get_property currentReactions reaction) with
  | Own users =>
      if bool_decide (currentUser ∈ users) then mret msg
      else alloc_obj
             (with_reactions
                (Some (<[reaction := users ++ [currentUser]]> currentReactions))
                (val msg))
  | _ => throw "TypeError"
  end.

(** The updater of [handleReactionRemove]; [filter] is no method of an
    inherited member either. *)
Definition remove_reaction (currentUser reaction : string) (msg : MsgObj)
    : Eff MsgObj :=
  let currentReactions := default ∅ (reactions (val msg)) in
  match or_empty (get_property currentReactions reaction) with
  | Own users =>
      alloc_obj
        (with_reactions
           (Some (<[reaction := filter (λ id, id ≠ currentUser) users]>
                    currentReactions))
           (val msg))
  | _ => throw "TypeError"
  end.

(** The rollback updater: [() => messages.find(m => m._id === messageId) || {}]
    over the [messages] captured by the closure. *)
Definition rollback (messages : list MsgObj) (messageId : option string)
    (_ : MsgObj) : Eff MsgObj :=
  match list_find (λ m, _id (val m) = messageId) messages with
  | Some (_, m) => mret m
  | None => alloc_obj empty_object
  end.

Definition handleReactionAdd (messages : list MsgObj) (currentUser : string)
    (messageId : option string) (reaction : string) : Eff unit :=
  try_catch
    (st ← get;
     (if socket_connected st then mret tt
      else throw "Socket not connected");;
     updateSingleMessage messageId (add_reaction currentUser reaction);;
     emit (MessageReaction messageId reaction "add"))
    (λ _,
     toast_error "리액션 추가에 실패했습니다.";;
     updateSingleMessage messageId (rollback messages messageId)).

Definition handleReactionRemove (messages : list MsgObj)
    (currentUser : string) (messageId : option string) (reaction : string)
    : Eff unit :=
  try_catch
    (st ← get;
     (if socket_connected st then mret tt
      else throw "Socket not connected");;
     updateSingleMessage messageId (remove_reaction currentUser reaction);;
     emit (MessageReaction messageId reaction "remove"))
    (λ _,
     toast_error "리액션 제거에 실패했습니다.";;
     updateSingleMessage messageId (rollback messages messageId)).

(** The payload [{messageId, reactions}] of [messageReactionUpdate]. *)
Record ReactionDelta := {
  d_messageId : option string;
  d_reactions : option (gmap string (list string));
}.

Definition handleReactionUpdate (data : ReactionDelta) : Eff unit :=
  updateSingleMessage (d_messageId data)
    (λ msg, alloc_obj (with_reactions (d_reactions data) (val msg))).

(* ===================================================================== *)
(** ** The chat-room hook: array helpers *)
(* ===================================================================== *)

(** [Array.prototype.filter] and [map] with a callback that has effects;
    the callback runs on the elements from left to right. *)
Fixpoint filterE {A} (p : A → Eff bool) (l : list A) : Eff (list A) :=
  match l with
  | [] => mret []
  | x :: l' =>
      b ← p x; r ← filterE p l'; mret (if b : bool then x :: r else r)
  end.

Fixpoint mapE {A B} (f : A → Eff B) (l : list A) : Eff (list B) :=
  match l with
  | [] => mret []
  | x :: l' => y ← f x; r ← mapE f l'; mret (y :: r)
  end.

(** The comparator of the sort,
    [(a, b) => new Date(a.timestamp || 0) - new Date(b.timestamp || 0)]:
    the difference of the two time values, [None] for [NaN], which is
    what an Invalid Date on either side gives. *)
Definition compare_ts (a b : MsgObj) : option Z :=
  x ← new_Date (ts a); y ← new_Date (ts b); Some (x - y)%Z.

(** [Array.prototype.sort] with that comparator.  The sort of the
    language is stable and takes a [NaN] from the comparator as [+0]; so
    does this insertion sort: an element moves behind the later elements
    that compare smaller than it, up to the first one that does not.
    Where every date is valid the comparator is consistent, and every
    stable sort returns this list.  With an Invalid Date in the array the
    comparator is not consistent and the language leaves the order to the
    engine: what is proved below about the order a sort produces assumes
    valid dates, and the rest uses the sort as a permutation only. *)
Fixpoint sort_insert (x : MsgObj) (l : list MsgObj) : list MsgObj :=
  match l with
  | [] => [x]
  | y :: l' =>
      match compare_ts x y with
      | Some v => if (0 <? v)%Z then y :: sort_insert x l' else x :: y :: l'
      | None => x :: y :: l'
      end
  end.

Fixpoint js_sort (l : list MsgObj) : list MsgObj :=
  match l with
  | [] => []
  | x :: l' => sort_insert x (js_sort l')
  end.

(** A [Map] keyed by [_id]: a key keeps the position of its first
    insertion and the value of its last one. *)
Fixpoint map_set (k : option string) (v : MsgObj)
    (m : list (option string * MsgObj)) : list (option string * MsgObj) :=
  match m with
  | [] => [(k, v)]
  | (k', v') :: m' =>
      if bool_decide (k' = k) then (k, v) :: m'
      else (k', v') :: map_set k v m'
  end.

(** [allMessages.forEach((msg) => map.set(msg._id, msg))] followed by
    [Array.from(map.values())]. *)
Definition dedupe (allMessages : list MsgObj) : list MsgObj :=
  (foldl (λ map msg, map_set (_id (val msg)) msg map) [] allMessages).*2.

(* ===================================================================== *)
(** ** The chat-room hook: cleanup *)
(* ===================================================================== *)

Module CLEANUP_REASONS.
Definition DISCONNECT : string := "disconnect".
Definition MANUAL : string := "manual".
Definition RECONNECT : string := "reconnect".
Definition UNMOUNT : string := "unmount".
Definition ERROR : string := "error".
End CLEANUP_REASONS.

Definition detach_listeners (s : Socket) : Socket :=
  foldl (λ s name, off name s) s
    ["message"; "previousMessages"; "previousMessagesLoaded";
     "participantsUpdate"; "messagesRead"; "messageReactionUpdate";
     "session_ended"; "error"].

(** [setMessages([])] *)
Definition resetMessages : Eff unit :=
  arr ← alloc_arr []; modify (set_messages arr).

(** The statements of the [try] block of [cleanup], one definition for
    each [if] statement, in the order of the source. *)

(** [if (roomId && socketRef.current?.connected) emit("leaveRoom", roomId)] *)
Definition leave_room : Eff unit :=
  st ← get;
  match roomId st with
  | Some room =>
      if truthy (roomId st) && socket_connected st
      then emit (LeaveRoom room) else mret tt
  | None => mret tt
  end.

(** [if (socketRef.current && reason !== "RECONNECT") { ...off(...) }] *)
Definition detach_unless_reconnect (reason : string) (st : State) : State :=
  match socketRef st with
  | Some s =>
      if bool_decide (reason ≠ "RECONNECT")
      then set_socketRef (Some (detach_listeners s)) st else st
  | None => st
  end.

(** [if (loadMoreTimeoutRef.current) { clearTimeout(...); ... = null }] *)
Definition cancel_load_more (st : State) : State :=
  match loadMoreTimeoutRef st with
  | Some _ => set_loadMoreTimeoutRef None st
  | None => st
  end.

(** [if (userRooms.current.size > 0) userRooms.current.clear()] *)
Definition clear_user_rooms (st : State) : State :=
  if bool_decide (0 < size (userRooms st)) then set_userRooms ∅ st else st.

(** [if (reason === "MANUAL" && ...) {...} else if (reason === "DISCONNECT"
    && ...) {...}] *)
Definition settle (reason : string) : Eff unit :=
  st ← get;
  if bool_decide (reason = "MANUAL") && mountedRef st then
    modify (set_error None);;
    modify (set_loading false);;
    modify (set_loadingMessages false);;
    resetMessages;;
    modify clear_user_rooms
  else if bool_decide (reason = "DISCONNECT") && mountedRef st then
    modify (set_error (Some "채팅 연결이 끊어졌습니다. 재연결을 시도합니다."))
  else mret tt.

(** The [try] block of [cleanup]. *)
Definition cleanup_body (reason : string) : Eff unit :=
  st ← get;
  if cleanupInProgressRef st then mret tt
  else
    modify (set_cleanupInProgressRef true);;
    leave_room;;
    modify (detach_unless_reconnect reason);;
    modify cancel_load_more;;
    modify (set_processedMessageIds ∅);;
    modify (set_previousMessagesRef ∅);;
    modify (set_messageProcessingRef false);;
    settle reason.

(** [cleanup(reason = "MANUAL")]; [None] is a call without argument. *)
Definition cleanup (reason : option string) : Eff unit :=
  let reason := match reason with Some r => r | None => "MANUAL" end in
  st ← get;
  if negb (mountedRef st) || negb (truthy (roomId st)) then mret tt
  else
    try_finally
      (try_catch (cleanup_body reason)
         (λ _,
          st ← get;
          if mountedRef st
          then modify (set_error (Some "채팅방 정리 중 오류가 발생했습니다."))
          else mret tt))
      (set_cleanupInProgressRef false).

(* ===================================================================== *)
(** ** The chat-room hook: ingestion *)
(* ===================================================================== *)

(** A field of an inbound payload that should hold an array. *)
Inductive Field (A : Type) :=
| Absent                       (* [undefined] *)
| NotArray                     (* any other value that is not an array *)
| IsArray (l : list A).
Arguments Absent {A}.
Arguments NotArray {A}.
Arguments IsArray {A} l.

(** [processedMessageIds.current.has(id)] and [.add(id)] *)
Definition seen (st : State) (id : option string) : bool :=
  match id with
  | Some i => bool_decide (i ∈ processedMessageIds st)
  | None => false
  end.

Definition mark_seen (id : option string) (st : State) : State :=
  match id with
  | Some i => set_processedMessageIds ({[i]} ∪ processedMessageIds st) st
  | None => st
  end.

(** The callback of [loadedMessages.filter] in [processMessages]. *)
Definition accept (msg : MsgObj) : Eff bool :=
  if negb (truthy (_id (val msg))) then mret false
  else
    st ← get;
    if seen st (_id (val msg)) then mret false
    else modify (mark_seen (_id (val msg)));; mret true.

Definition processMessages (loadedMessages : Field MsgObj)
    (hasMore : option bool) (isInitialLoad : bool) : Eff unit :=
  match loadedMessages with
  | IsArray loaded =>
      setMessages (λ prev,
        newMessages ← filterE accept loaded;
        let allMessages := js_sort (elems prev ++ newMessages) in
        alloc_arr (dedupe allMessages));;
      modify (set_hasMoreMessages hasMore);;
      if isInitialLoad then modify (set_initialLoadCompletedRef true)
      else mret tt
  | _ => throw "Invalid messages format"
  end.

(** The listener of ["messagesRead"]. *)
Definition reader_of (userId : option string) (r : Reader) : bool :=
  bool_decide (r_userId r = userId) || bool_decide (r__id r = userId).

(** [timestamp || new Date()], for a clock that reads [now]. *)
Definition or_now (timestamp : option Z) (now : Z) : Z :=
  match timestamp with
  | Some t => if (t =? 0)%Z then now else t
  | None => now
  end.

(** [msg.readers?.some((r) => r.userId === userId || r._id === userId)] *)
Definition already_read (userId : option string) (m : Message) : bool :=
  match readers m with
  | Some rs => existsb (reader_of userId) rs
  | None => false
  end.

(** The callback of [prev.map] in the listener. *)
Definition mark_read (userId : option string)
    (messageIds : list (option string)) (timestamp : option Z) (now : Z)
    (msg : MsgObj) : Eff MsgObj :=
  if negb (bool_decide (_id (val msg) ∈ messageIds)) then mret msg
  else
    let alreadyRead := already_read userId (val msg) in
    if alreadyRead then mret msg
    else alloc_obj
           (with_readers
              (Some (default [] (readers (val msg)) ++
                     [{| r_userId := userId; r__id := None;
                         readAt := or_now timestamp now |}]))
              (val msg)).

Definition on_messagesRead (userId : option string)
    (messageIds : list (option string)) (timestamp : option Z) (now : Z)
    : Eff unit :=
  st ← get;
  if negb (mountedRef st) then mret tt
  else
    setMessages (λ prev,
      l ← mapE (mark_read userId messageIds timestamp now) (elems prev);
      alloc_arr l).

(** The listener of ["message"]. *)
Definition on_message (message : option MsgObj) : Eff unit :=
  st ← get;
  match message with
  | None => mret tt
  | Some message =>
      if negb (mountedRef st) || messageProcessingRef st
         || negb (truthy (_id (val message)))
      then mret tt
      else if seen st (_id (val message)) then mret tt
      else
        modify (mark_seen (_id (val message)));;
        setMessages (λ prev,
          if existsb (λ m, bool_decide (_id (val m) = _id (val message)))
               (elems prev)
          then mret prev
          else alloc_arr (elems prev ++ [message]))
  end.

(** The payload of ["previousMessages"] and ["previousMessagesLoaded"]. *)
Inductive Response (A : Type) :=
| RespFalsy                    (* [undefined], [null], [0], the empty string *)
| RespPrimitive                (* a truthy value that is not an object *)
| RespObject (msgs : Field A) (hasMore : option bool).
Arguments RespFalsy {A}.
Arguments RespPrimitive {A}.
Arguments RespObject {A} msgs hasMore.

(** The [try] block of [handlePreviousMessages(response)], with the
    [messages] that the closure captured. *)
Definition previousMessages_body (messages : list MsgObj)
    (response : Response MsgObj) : Eff unit :=
  modify (set_messageProcessingRef true);;
  match response with
  | RespObject msgs hasMore =>
      let loadedMessages :=
        match msgs with Absent => IsArray [] | f => f end in
      let isInitialLoad := bool_decide (length messages = 0) in
      processMessages loadedMessages hasMore isInitialLoad;;
      modify (set_loadingMessages false)
  | _ => throw "Invalid response format"
  end.

Definition handlePreviousMessages (messages : list MsgObj)
    (response : Response MsgObj) : Eff unit :=
  st ← get;
  if negb (mountedRef st) || messageProcessingRef st then mret tt
  else
    try_finally
      (try_catch (previousMessages_body messages response)
         (λ _,
          modify (set_loadingMessages false);;
          modify (set_error (Some "메시지 처리 중 오류가 발생했습니다."));;
          modify (set_hasMoreMessages (Some false))))
      (set_messageProcessingRef false).

(** The listener of ["messageReactionUpdate"]. *)
Definition on_messageReactionUpdate (data : ReactionDelta) : Eff unit :=
  st ← get;
  if negb (mountedRef st) then mret tt else handleReactionUpdate data.

(* ===================================================================== *)
(** ** Histories of admissions *)
(* ===================================================================== *)

(** The state of a freshly mounted hook: the initial values of the
    [useState] and [useRef] cells, for a given room and socket. *)
Definition initial (room : option string) (sock : option Socket) : State :=
  {| next_ref := 1;
     messages := {| aref := 0; elems := [] |};
     error := Some "";
     loading := true;
     hasMoreMessages := Some true;
     loadingMessages := false;
     mountedRef := true;
     cleanupInProgressRef := false;
     messageProcessingRef := false;
     initialLoadCompletedRef := false;
     userRooms := ∅;
     previousMessagesRef := ∅;
     processedMessageIds := ∅;
     loadMoreTimeoutRef := None;
     roomId := room;
     socketRef := sock;
     toasts := [] |}.

(** An admission as the transport delivers it: a live ["message"] event,
    or a history batch handed to [processMessages]. *)
Inductive Admission :=
| Live (message : option Message)
| Batch (loaded : Field Message) (hasMore : option bool)
        (isInitialLoad : bool).

(** The transport materialises every inbound message as a new object. *)
Definition receive_field (f : Field Message) : Eff (Field MsgObj) :=
  match f with
  | Absent => mret Absent
  | NotArray => mret NotArray
  | IsArray l => objs ← mapE alloc_obj l; mret (IsArray objs)
  end.

Definition deliver (a : Admission) : Eff unit :=
  match a with
  | Live None => on_message None
  | Live (Some m) => o ← alloc_obj m; on_message (Some o)
  | Batch loaded hasMore isInitialLoad =>
      objs ← receive_field loaded;
      processMessages objs hasMore isInitialLoad
  end.

(** Handlers run to completion, one after the other; an error thrown by
    one of them does not stop the next. *)
Definition run (h : list Admission) (st : State) : State :=
  foldl (λ st a, exec (deliver a) st) st h.

(* ===================================================================== *)
(** ** The hook as a whole *)
(* ===================================================================== *)

(** What can happen to a mounted hook: an event of the socket, or a call
    from the interface.  A handler that reads [messages] from its closure
    holds the store of the render that created it, not the store of the
    moment: the event tells the [age] of that render, 0 for the latest
    one. *)
Inductive Event :=
| Delivery (a : Admission)
| PreviousMessages (age : nat) (response : Response Message)
| MessagesRead (userId : option string) (messageIds : list (option string))
    (timestamp : option Z) (now : Z)
| ReactionUpdate (data : ReactionDelta)
| ReactionAdd (age : nat) (currentUser : string) (messageId : option string)
    (reaction : string)
| ReactionRemove (age : nat) (currentUser : string)
    (messageId : option string) (reaction : string)
| Cleanup (reason : option string).

(** The [messages] of the render of a given age, among the stores that
    the hook has rendered, the latest first.  The first render of the
    hook, older than all of them, had the empty store. *)
Definition rendered (renders : list (list MsgObj)) (age : nat)
    : list MsgObj :=
  default [] (renders !! age).

Definition receive_response (response : Response Message)
    : Eff (Response MsgObj) :=
  match response with
  | RespFalsy => mret RespFalsy
  | RespPrimitive => mret RespPrimitive
  | RespObject msgs hasMore =>
      objs ← receive_field msgs; mret (RespObject objs hasMore)
  end.

Definition handle (renders : list (list MsgObj)) (ev : Event) : Eff unit :=
  match ev with
  | Delivery a => deliver a
  | PreviousMessages age response =>
      r ← receive_response response;
      handlePreviousMessages (rendered renders age) r
  | MessagesRead userId messageIds timestamp now =>
      on_messagesRead userId messageIds timestamp now
  | ReactionUpdate data => on_messageReactionUpdate data
  | ReactionAdd age currentUser messageId reaction =>
      handleReactionAdd (rendered renders age) currentUser messageId reaction
  | ReactionRemove age currentUser messageId reaction =>
      handleReactionRemove (rendered renders age) currentUser messageId
        reaction
  | Cleanup reason => cleanup reason
  end.

(** The state after a sequence of events, each handled to completion.
    The store is rendered before every event, so that the closure of a
    handler can hold the store as it stood before any of the earlier
    events of the sequence. *)
Fixpoint after_renders (renders : list (list MsgObj)) (evs : list Event)
    (st : State) : State :=
  match evs with
  | [] => st
  | ev :: evs' =>
      let renders := elems (messages st) :: renders in
      after_renders renders evs' (exec (handle renders ev) st)
  end.

Definition after (evs : list Event) (st : State) : State :=
  after_renders [] evs st.

(* ===================================================================== *)
(** ** The chat-room hook: status, error, session end, unmount, retry *)
(* ===================================================================== *)

Definition set_mountedRef (v : bool) (s : State) : State :=
  {| next_ref := next_ref s; messages := messages s; error := error s;
     loading := loading s; hasMoreMessages := hasMoreMessages s;
     loadingMessages := loadingMessages s; mountedRef := v;
     cleanupInProgressRef := cleanupInProgressRef s; messageProcessingRef :=
     messageProcessingRef s; initialLoadCompletedRef :=
     initialLoadCompletedRef s; userRooms := userRooms s; previousMessagesRef
     := previousMessagesRef s; processedMessageIds := processedMessageIds s;
     loadMoreTimeoutRef := loadMoreTimeoutRef s; roomId := roomId s;
     socketRef := socketRef s; toasts := toasts s |}.

(** [getConnectionState()]; the hook returns its value as
    [connectionStatus]. *)
Definition getConnectionState (st : State) : string :=
  match socketRef st with
  | None => "disconnected"
  | Some s =>
      if loading st then "connecting"
      else if truthy (error st) then "error"
      else if connected s then "connected" else "disconnected"
  end.

(** The payload of the socket's ["error"] event, when there is one. *)
Record SocketError := {
  e_code : option string;
  e_message : option string;
}.

(** [text || fallback] *)
Definition or_else (text : option string) (fallback : string) : string :=
  match text with
  | Some t => if truthy text then t else fallback
  | None => fallback
  end.

(** The listener of ["error"].  Without a payload [err?.code] is
    [undefined] and the read of [err.message] throws. *)
Definition on_error (err : option SocketError) : Eff unit :=
  st ← get;
  if negb (mountedRef st) then mret tt
  else
    match err with
    | Some e =>
        if bool_decide (e_code e = Some "MESSAGE_REJECTED") then
          toast_error
            (or_else (e_message e)
               "금칙어가 포함되어 메시지를 전송할 수 없습니다.")
        else
          modify (set_error
                    (Some (or_else (e_message e)
                             "채팅 연결에 문제가 발생했습니다.")))
    | None => throw "TypeError"
    end.

(** The function that the initialisation effect returns: it runs when the
    component unmounts, and before the effect runs again.  The interval
    of the token check is not part of the state; [clearTimeout] cancels
    the timer and leaves the ref as it is. *)
Definition unmount : Eff unit :=
  modify (set_mountedRef false);;
  st ← get;
  if socket_connected st && truthy (roomId st)
     && negb (cleanupInProgressRef st)
  then cleanup (Some CLEANUP_REASONS.UNMOUNT)
  else mret tt.

(** What the hook reaches outside its own cells: the session ([logout]),
    the router and the loader of [useRoomHandling].  Their calls are
    recorded, not run. *)
Record Page := {
  hook : State;
  messageLoadAttemptRef : nat;
  logouts : nat;                 (* calls of [logout()] *)
  replaced : list string;        (* targets of [router.replace] *)
  loads : list string;           (* rooms given to [loadInitialMessages] *)
}.

Definition set_hook (v : State) (p : Page) : Page :=
  {| hook := v; messageLoadAttemptRef := messageLoadAttemptRef p; logouts
     := logouts p; replaced := replaced p; loads := loads p |}.

(** The listener of ["session_ended"]. *)
Definition on_session_ended (p : Page) : outcome unit * Page :=
  if negb (mountedRef (hook p)) then (Done tt, p)
  else
    match cleanup None (hook p) with
    | (Done _, st) =>
        (Done tt,
         {| hook := st; messageLoadAttemptRef := messageLoadAttemptRef p;
            logouts := S (logouts p);
            replaced := replaced p ++ ["/?error=session_expired"];
            loads := loads p |})
    | (Threw e, st) => (Threw e, set_hook st p)
    end.

(** [retryMessageLoad()] *)
Definition retryMessageLoad (p : Page) : Page :=
  match roomId (hook p) with
  | Some room =>
      if negb (mountedRef (hook p)) || negb (truthy (roomId (hook p)))
      then p
      else
        {| hook := set_initialLoadCompletedRef false
                     (set_processedMessageIds ∅
                        (set_previousMessagesRef ∅ (hook p)));
           messageLoadAttemptRef := 0;
           logouts := logouts p;
           replaced := replaced p;
           loads := loads p ++ [room] |}
  | None => p
  end.

(* ===================================================================== *)
(** ** MessageActions.js *)
(* ===================================================================== *)

(** The argument of [handleReactionSelect]: an entry of the picker, with
    its (non-empty) [native] character, or the character of a reaction
    button. *)
Inductive Emoji :=
| Picked (native : string)
| Plain (char : string).

(** [emoji.native || emoji] *)
Definition emojiChar (emoji : Emoji) : string :=
  match emoji with Picked native => native | Plain c => c end.

(** [handleReactionSelect(emoji)] with the props of the component:
    [reactions], [currentUserId], [messageId] and the two callbacks.
    [reactions?.[emojiChar]?.includes(currentUserId)] is [undefined]
    without reactions or without a value under the character, and throws
    a [TypeError] on an inherited member, which is not nullish and has no
    method [includes].  The visibility of the picker is local to the
    component and left out. *)
Definition handleReactionSelect
    (reactions : option (gmap string (list string)))
    (currentUserId : option string) (messageId : string)
    (onReactionAdd onReactionRemove : option string → string → Eff unit)
    (emoji : Emoji) : Eff unit :=
  reacted ←
    match reactions with
    | Some r =>
        match get_property r (emojiChar emoji) with
        | Own users =>
            mret (match currentUserId with
                  | Some user => bool_decide (user ∈ users)
                  | None => false
                  end)
        | Inherited => throw "TypeError"
        | Undefined => mret false
        end
    | None => mret false
    end;
  if reacted : bool then onReactionRemove (Some messageId) (emojiChar emoji)
  else onReactionAdd (Some messageId) (emojiChar emoji).

(** [renderReactions()]: one button for each key of [reactions], showing
    the number of its users; nothing ([null]) when there is no key.  The
    order of the buttons is left out. *)
Definition renderReactions (reactions : option (gmap string (list string)))
    : option (gmap string nat) :=
  match reactions with
  | Some r => if bool_decide (size r = 0) then None else Some (length <$> r)
  | None => None
  end.

(* ===================================================================== *)
(** ** ChatInput.js *)
(* ===================================================================== *)

(** A string of the language as the sequence of its UTF-16 code units. *)
Definition Text := list N.

Definition at_sign : N := 64.
Definition space : N := 32.

(** White space and line terminators, the code units that
    [String.prototype.trim] strips. *)
Definition is_white (c : N) : bool :=
  bool_decide (c ∈ [9; 10; 11; 12; 13; 32; 160; 5760; 8192; 8193; 8194;
                    8195; 8196; 8197; 8198; 8199; 8200; 8201; 8202; 8232;
                    8233; 8239; 8287; 12288; 65279]%N).

Fixpoint trimStart (t : Text) : Text :=
  match t with
  | c :: t' => if is_white c then trimStart t' else t
  | [] => []
  end.

Definition trim (t : Text) : Text :=
  reverse (trimStart (reverse (trimStart t))).

(** [t.lastIndexOf(c)], [None] for [-1]. *)
Fixpoint lastIndexOf (c : N) (t : Text) : option nat :=
  match t with
  | [] => None
  | x :: t' =>
      match lastIndexOf c t' with
      | Some i => Some (S i)
      | None => if bool_decide (x = c) then Some 0 else None
      end
  end.

(** An entry of [files], the preview of an attached file; the handlers
    read its name. *)
Record File := { f_name : Text }.

(** The argument of [onSubmit]. *)
Record Submission := {
  s_type : string;
  s_content : Text;
  s_fileData : option File;
}.

Record LastSubmit := {
  l_type : option string;
  l_content : option Text;
  l_fileName : option Text;
  l_time : Z;
}.

(** The textarea ([value], [selectionStart]), the [useState] cells and
    the [useRef] cells of the component.  [mentionIndex] is a number of
    the language: [None] is [NaN]. *)
Record Input := {
  value : Text;
  selectionStart : nat;
  rawMessage : Text;
  files : list File;
  showMentionList : bool;
  mentionFilter : Text;
  mentionIndex : option Z;
  submitLockRef : bool;
  lastSubmitRef : LastSubmit;
}.

Definition set_value (v : Text) (i : Input) : Input :=
  {| value := v; selectionStart := selectionStart i; rawMessage :=
     rawMessage i; files := files i; showMentionList := showMentionList i;
     mentionFilter := mentionFilter i; mentionIndex := mentionIndex i;
     submitLockRef := submitLockRef i; lastSubmitRef := lastSubmitRef i |}.

Definition set_selectionStart (v : nat) (i : Input) : Input :=
  {| value := value i; selectionStart := v; rawMessage := rawMessage i;
     files := files i; showMentionList := showMentionList i; mentionFilter :=
     mentionFilter i; mentionIndex := mentionIndex i; submitLockRef :=
     submitLockRef i; lastSubmitRef := lastSubmitRef i |}.

Definition set_rawMessage (v : Text) (i : Input) : Input :=
  {| value := value i; selectionStart := selectionStart i; rawMessage :=
     v; files := files i; showMentionList := showMentionList i; mentionFilter
     := mentionFilter i; mentionIndex := mentionIndex i; submitLockRef :=
     submitLockRef i; lastSubmitRef := lastSubmitRef i |}.

Definition set_files (v : list File) (i : Input) : Input :=
  {| value := value i; selectionStart := selectionStart i; rawMessage :=
     rawMessage i; files := v; showMentionList := showMentionList i;
     mentionFilter := mentionFilter i; mentionIndex := mentionIndex i;
     submitLockRef := submitLockRef i; lastSubmitRef := lastSubmitRef i |}.

Definition set_showMentionList (v : bool) (i : Input) : Input :=
  {| value := value i; selectionStart := selectionStart i; rawMessage :=
     rawMessage i; files := files i; showMentionList := v; mentionFilter :=
     mentionFilter i; mentionIndex := mentionIndex i; submitLockRef :=
     submitLockRef i; lastSubmitRef := lastSubmitRef i |}.

Definition set_mentionFilter (v : Text) (i : Input) : Input :=
  {| value := value i; selectionStart := selectionStart i; rawMessage :=
     rawMessage i; files := files i; showMentionList := showMentionList i;
     mentionFilter := v; mentionIndex := mentionIndex i; submitLockRef :=
     submitLockRef i; lastSubmitRef := lastSubmitRef i |}.

Definition set_mentionIndex (v : option Z) (i : Input) : Input :=
  {| value := value i; selectionStart := selectionStart i; rawMessage :=
     rawMessage i; files := files i; showMentionList := showMentionList i;
     mentionFilter := mentionFilter i; mentionIndex := v; submitLockRef :=
     submitLockRef i; lastSubmitRef := lastSubmitRef i |}.

Definition set_submitLockRef (v : bool) (i : Input) : Input :=
  {| value := value i; selectionStart := selectionStart i; rawMessage :=
     rawMessage i; files := files i; showMentionList := showMentionList i;
     mentionFilter := mentionFilter i; mentionIndex := mentionIndex i;
     submitLockRef := v; lastSubmitRef := lastSubmitRef i |}.

Definition set_lastSubmitRef (v : LastSubmit) (i : Input) : Input :=
  {| value := value i; selectionStart := selectionStart i; rawMessage :=
     rawMessage i; files := files i; showMentionList := showMentionList i;
     mentionFilter := mentionFilter i; mentionIndex := mentionIndex i;
     submitLockRef := submitLockRef i; lastSubmitRef := v |}.

(** The component as it mounts, around an empty textarea. *)
Definition initial_input : Input :=
  {| value := []; selectionStart := 0; rawMessage := []; files := [];
     showMentionList := false; mentionFilter := []; mentionIndex := Some 0%Z;
     submitLockRef := false;
     lastSubmitRef := {| l_type := None; l_content := None;
                         l_fileName := None; l_time := 0 |} |}.

(** [handleSubmit()] runs in two steps, around its [await submit(...)].
    The first step, at the instant [now], ends at the [await], with the
    lock held and the submission handed to [submit], or at a [return],
    through the [finally] block.  [submit] is the [async] handler of the
    parent: the call itself returns a promise and does not raise. *)
Definition handleSubmit (now : Z) (i : Input) : Input * option Submission :=
  if submitLockRef i then (i, None)
  else
    let i := set_submitLockRef true i in
    let text := trim (value i) in
    match files i with
    | file :: _ =>
        let duplicateFile :=
          bool_decide (l_type (lastSubmitRef i) = Some "file")
          && bool_decide (l_fileName (lastSubmitRef i) = Some (f_name file))
          && (now - l_time (lastSubmitRef i) <? 700)%Z in
        if duplicateFile then (set_submitLockRef false i, None)
        else
          (set_lastSubmitRef
             {| l_type := Some "file"; l_content := Some text;
                l_fileName := Some (f_name file); l_time := now |} i,
           Some {| s_type := "file"; s_content := text;
                   s_fileData := Some file |})
    | [] =>
        if bool_decide (text ≠ []) then
          let duplicateText :=
            bool_decide (l_type (lastSubmitRef i) = Some "text")
            && bool_decide (l_content (lastSubmitRef i) = Some text)
            && (now - l_time (lastSubmitRef i) <? 700)%Z in
          if duplicateText then (set_submitLockRef false i, None)
          else
            (set_lastSubmitRef
               {| l_type := Some "text"; l_content := Some text;
                  l_fileName := None; l_time := now |} i,
             Some {| s_type := "text"; s_content := text;
                     s_fileData := None |})
        else (set_submitLockRef false i, None)
    end.

(** [messageInputRef.current.value = ""]: the assignment empties the
    textarea and leaves the cursor at its start. *)
Definition clear_textarea (i : Input) : Input :=
  set_selectionStart 0 (set_value [] i).

(** The second step, when the promise of [submit] has settled:
    [resolved] tells whether it was fulfilled. *)
Definition handleSubmit_resume (sent : Submission) (resolved : bool)
    (i : Input) : Input :=
  set_submitLockRef false
    (if resolved then
       if bool_decide (s_type sent = "file")
       then set_files [] (set_rawMessage [] (clear_textarea i))
       else set_rawMessage [] (clear_textarea i)
     else i).

(** [handleInputChange(e)] for the event of a textarea whose value is now
    [v], with the cursor at [cursor].  [toLowerCase] is the case mapping
    of the language; the position of the list on the screen is left
    out. *)
Definition handleInputChange (toLowerCase : Text → Text) (v : Text)
    (cursor : nat) (i : Input) : Input :=
  let i := set_rawMessage v (set_selectionStart cursor (set_value v i)) in
  let before := take cursor v in
  match lastIndexOf at_sign before with
  | Some lastAt =>
      let filter := drop (lastAt + 1) before in
      if negb (bool_decide (space ∈ filter)) then
        set_mentionIndex (Some 0%Z)
          (set_showMentionList true
             (set_mentionFilter (toLowerCase filter) i))
      else set_showMentionList false i
  | None => set_showMentionList false i
  end.

(** [handleMentionSelect(user)] for a user of the given name. *)
Definition handleMentionSelect (name : Text) (i : Input) : Input :=
  let cursor := selectionStart i in
  let before := take cursor (value i) in
  let after := drop cursor (value i) in
  match lastIndexOf at_sign before with
  | None => i
  | Some lastAt =>
      let mentionText := at_sign :: name ++ [space] in
      let newValue := take lastAt before ++ mentionText ++ after in
      set_showMentionList false
        (set_rawMessage newValue
           (set_selectionStart (lastAt + length mentionText)
              (set_value newValue i)))
  end.

(** The keys that [handleKeyDown] tells apart. *)
Inductive Key := ArrowDown | ArrowUp | Enter | Escape | OtherKey.

Record KeyEvent := {
  key : Key;
  shiftKey : bool;
  isComposing : bool;
}.

(** [a % n] on numbers that hold integers or [NaN]. *)
Definition js_rem (a : option Z) (n : Z) : option Z :=
  x ← a; if (n =? 0)%Z then None else Some (Z.rem x n).

(** [handleKeyDown(e)] at the instant [now], for a list of
    [listLength] candidates; what [handleSubmit] hands to [submit], if
    it is called and gets that far, is returned with the state. *)
Definition handleKeyDown (listLength : nat) (now : Z) (e : KeyEvent)
    (i : Input) : Input * option Submission :=
  if isComposing e then (i, None)
  else
    let n := Z.of_nat listLength in
    match showMentionList i, key e with
    | true, ArrowDown =>
        (set_mentionIndex
           (js_rem ((λ prev, prev + 1)%Z <$> mentionIndex i) n) i, None)
    | true, ArrowUp =>
        (set_mentionIndex
           (js_rem ((λ prev, prev - 1 + n)%Z <$> mentionIndex i) n) i, None)
    | true, Enter => handleSubmit now (set_showMentionList false i)
    | true, Escape => (set_showMentionList false i, None)
    | _, Enter => if shiftKey e then (i, None) else handleSubmit now i
    | _, _ => (i, None)
    end.

(* ===================================================================== *)
(** ** Predicates of the statements *)
(* ===================================================================== *)

(** Sorted ascending by timestamp. *)
Definition sorted_by_ts (l : list MsgObj) : Prop :=
  StronglySorted (λ a b, (ts a ≤ ts b)%Z) l.

(** The timestamp of a message is within the range of [Date], 8.64e15
    milliseconds on either side of the epoch. *)
Definition dated (m : Message) : Prop :=
  (Z.abs (default 0 (timestamp m)) ≤ 8640000000000000)%Z.

(** Every message that an admission brings is so. *)
Definition dated_admission (a : Admission) : Prop :=
  match a with
  | Live (Some m) => dated m
  | Batch (IsArray l) _ _ => Forall dated l
  | _ => True
  end.

(** Every stored message is so. *)
Definition dated_store (st : State) : Prop :=
  Forall (λ m, dated (val m)) (elems (messages st)).

(** The allocator has reached the address [n]. *)
Definition allocator_past (n : nat) (st : State) : Prop := n ≤ next_ref st.

(** Every object of the store was allocated before [next_ref]. *)
Definition wf (st : State) : Prop :=
  Forall (λ m, ref m < next_ref st) (elems (messages st)).

(** The outbound path of a reaction fails: there is no socket, the socket
    reports itself disconnected, or its next [emit] raises. *)
Definition outbound_fails (st : State) : bool :=
  match socketRef st with
  | Some s => negb (connected s) || emit_throws s
  | None => true
  end.

(** A history-batch payload that the listener takes as malformed: it is
    not an object, or it is an object whose [messages] field holds
    something that is not an array.  A payload object without a
    [messages] field is not malformed: the listener reads the missing
    field as the empty array. *)
Definition malformed {A} (response : Response A) : bool :=
  match response with
  | RespFalsy | RespPrimitive => true
  | RespObject NotArray _ => true
  | RespObject _ _ => false
  end.

(** A payload that is not an object, or whose [messages] field is not
    an array, a missing field included. *)
Definition not_a_batch {A} (response : Response A) : bool :=
  match response with
  | RespObject (IsArray _) _ => false
  | _ => true
  end.

(** [cleanup] gets past its guards and its [leaveRoom] emit: the hook is
    mounted, a room is set, no cleanup is in progress, and the transport
    does not refuse the emit. *)
Definition cleanup_runs (st : State) : bool :=
  mountedRef st && truthy (roomId st) && negb (cleanupInProgressRef st)
  && negb (socket_connected st && outbound_fails st).


(** What the ["messagesRead"] listener does to one message: the message
    after the event against the message before it. *)
Definition read_step (userId : option string)
    (messageIds : list (option string)) (readAt : Z) (old new : MsgObj)
    : Prop :=
  if bool_decide (_id (val old) ∈ messageIds)
     && negb (already_read userId (val old))
  then val new
       = with_readers
           (Some (default [] (readers (val old)) ++
                  [{| r_userId := userId; r__id := None; readAt := readAt |}]))
           (val old)
  else new = old.

(** Admission control turns a candidate away: it lacks an id, or its id
    is among the seen ids. *)
Definition rejected (st : State) (m : Message) : bool :=
  negb (truthy (_id m)) || seen st (_id m).

(** The ids of a list of messages, in order. *)
Definition ids (l : list MsgObj) : list (option string) :=
  (λ m, _id (val m)) <$> l.

(** Every stored message has an id, and that id is among the seen ids;
    no id is stored twice. *)
Definition stored_once (st : State) : Prop :=
  NoDup (ids (elems (messages st)))
  ∧ Forall (λ m, truthy (_id (val m)) = true ∧ seen st (_id (val m)) = true)
      (elems (messages st)).

(** The entries of the [Map] of [dedupe]: every value sits under its own
    id, and no key occurs twice. *)
Definition keyed (m : list (option string * MsgObj)) : Prop :=
  Forall (λ kv, kv.1 = _id (val kv.2)) m ∧ NoDup m.*1.

(** A computation keeps a property of the state, on every exit. *)
Definition keeps (P : State → Prop) {A} (m : Eff A) : Prop :=
  ∀ st, P st → P (exec m st).

(** The hook is mounted, and is or is not in the middle of a history
    batch; [idle] between two events. *)
Definition phase (busy : bool) (st : State) : Prop :=
  mountedRef st = true ∧ messageProcessingRef st = busy.

Definition idle (st : State) : Prop := phase false st.

(** The events whose listeners [cleanup] detaches. *)
Definition room_events : list string :=
  ["message"; "previousMessages"; "previousMessagesLoaded";
   "participantsUpdate"; "messagesRead"; "messageReactionUpdate";
   "session_ended"; "error"].

(** The socket after an emit. *)
Definition sent (ev : Outbound) (s : Socket) : Socket :=
  {| connected := connected s; emit_throws := emit_throws s;
     listeners := listeners s; outbox := outbox s ++ [ev] |}.

(** An event that calls [cleanup]. *)
Definition is_cleanup (ev : Event) : bool :=
  match ev with Cleanup _ => true | _ => false end.

(** A hook that a component can see in the state ["error"]: it has a
    socket, it is not loading, and an error message is set. *)
Definition in_error (st : State) : Prop :=
  socketRef st ≠ None ∧ loading st = false ∧ truthy (error st) = true.

(** The messages of a list that carry a given id. *)
Definition with_id (k : option string) (l : list MsgObj) : list MsgObj :=
  filter (λ m, _id (val m) = k) l.

(** The users recorded under a reaction of a message. *)
Definition users_of (reaction : string) (m : Message) : list string :=
  default [] (default ∅ (reactions m) !! reaction).

(** A message without its reactions and its readers. *)
Definition stripped (m : MsgObj) : Message :=
  with_readers None (with_reactions None (val m)).

(** An updater of [updateSingleMessage] that returns the message it is
    given, or a new object that differs from it in the reactions only,
    or throws at once. *)
Definition reacts (updater : MsgObj → Eff MsgObj) : Prop :=
  ∀ st old,
    updater old st = (Done old, st)
    ∨ (∃ x, updater old st
            = (Done {| ref := next_ref st;
                       val := with_reactions x (val old) |},
               set_next_ref (S (next_ref st)) st))
    ∨ ∃ e, updater old st = (Threw e, st).

(** The state after the message at index [i] was replaced by a new
    object with the fields [v], in a new array. *)
Definition replaced_at (i : nat) (v : Message) (st : State) : State :=
  set_messages
    {| aref := S (next_ref st);
       elems := <[i := {| ref := next_ref st; val := v |}]>
                  (elems (messages st)) |}
    (set_next_ref (S (S (next_ref st))) st).

(** An event that changes messages in place: a read receipt or a
    reaction. *)
Definition in_place (ev : Event) : bool :=
  match ev with
  | MessagesRead _ _ _ _ | ReactionUpdate _ | ReactionAdd _ _ _ _
  | ReactionRemove _ _ _ _ => true
  | _ => false
  end.

(** The socket is connected and takes the next emit. *)
Definition socket_ready (st : State) (s : Socket) : Prop :=
  socketRef st = Some s ∧ connected s = true ∧ emit_throws s = false.

(** A reaction that is no name of [Object.prototype]. *)
Definition plain_key (reaction : string) : Prop :=
  reaction ∉ Object_prototype.

(** The closure of the handler of an event holds the store of the
    moment: no update has come since the render that created it. *)
Definition current_closure (renders : list (list MsgObj)) (ev : Event)
    (st : State) : Prop :=
  match ev with
  | PreviousMessages age _ | ReactionAdd age _ _ _
  | ReactionRemove age _ _ _ => rendered renders age = elems (messages st)
  | _ => True
  end.

(** A reaction call that cannot come to need its closure: the socket
    takes the emit, and the reaction is no name of [Object.prototype]. *)
Definition goes_through (ev : Event) (st : State) : Prop :=
  match ev with
  | ReactionAdd _ _ _ reaction | ReactionRemove _ _ _ reaction =>
      (∃ s, socket_ready st s) ∧ plain_key reaction
  | _ => True
  end.




(** The message that [handleReactionAdd] puts in the place of [m]. *)
Definition reacted (user reaction : string) (m : Message) : Message :=
  with_reactions
    (Some (<[reaction := users_of reaction m ++ [user]]>
             (default ∅ (reactions m)))) m.

(** The message that [handleReactionRemove] puts in the place of [m]. *)
Definition unreacted (user reaction : string) (m : Message) : Message :=
  with_reactions
    (Some (<[reaction := filter (λ id, id ≠ user) (users_of reaction m)]>
             (default ∅ (reactions m)))) m.

(** A key pressed alone, outside a composition. *)
Definition press (k : Key) : KeyEvent :=
  {| key := k; shiftKey := false; isComposing := false |}.

(** A text of the basic Latin block as its code units. *)
Definition text_of (s : string) : Text :=
  (λ a, Ascii.N_of_ascii a) <$> String.list_ascii_of_string s.

(* ===================================================================== *)
(** ** Sample data *)
(* ===================================================================== *)

Definition sample_message (id : string) (t : Z) : Message :=
  {| _id := Some id; timestamp := Some t; content := Some "hello";
     sender := Some "u2"; reactions := None; readers := None |}.

Definition sample_socket (up refuses : bool) : Socket :=
  {| connected := up; emit_throws := refuses;
     listeners := ["message"; "messagesRead"]; outbox := [] |}.

(** A mounted hook in room ["room1"] whose store holds the messages
    ["m1"] (at instant 5) and ["m2"] (at instant 7), both seen. *)
Definition sample_state (sock : option Socket) : State :=
  {| next_ref := 4;
     messages := {| aref := 3;
                    elems := [ {| ref := 1; val := sample_message "m1" 5 |};
                               {| ref := 2; val := sample_message "m2" 7 |} ] |};
     error := Some "";
     loading := false;
     hasMoreMessages := Some true;
     loadingMessages := false;
     mountedRef := true;
     cleanupInProgressRef := false;
     messageProcessingRef := false;
     initialLoadCompletedRef := true;
     userRooms := ∅;
     previousMessagesRef := ∅;
     processedMessageIds := {["m1"; "m2"]};
     loadMoreTimeoutRef := None;
     roomId := Some "room1";
     socketRef := sock;
     toasts := [] |}.

(** A state left by [unmount]. *)
Definition sample_unmounted : State :=
  exec unmount (sample_state (Some (sample_socket true false))).

(** A page around a hook. *)
Definition sample_page (st : State) : Page :=
  {| hook := st; messageLoadAttemptRef := 2; logouts := 0; replaced := [];
     loads := [] |}.

(** The component with a text typed in, the cursor at its end. *)
Definition typed (s : string) : Input :=
  set_selectionStart (length (text_of s))
    (set_rawMessage (text_of s) (set_value (text_of s) initial_input)).

(** The component with two files attached and a text typed in. *)
Definition sample_attached : Input :=
  set_files [ {| f_name := text_of "a.png" |}; {| f_name := text_of "b.png" |} ]
    (typed "see").

(* ===================================================================== *)
(** ** Proof support *)
(* ===================================================================== *)

(** Unfolds the monad operations applied to a state. *)
Ltac eff :=
  repeat (progress (cbn [mbind mret Eff_bind Eff_ret fst snd] in *;
    unfold exec, result, mbind, mret, Eff_bind, Eff_ret, get, modify, throw,
      try_catch, try_finally, setMessages, alloc_obj, alloc_arr in *;
    cbn [fst snd] in *)).

Lemma set_messages_same st : set_messages (messages st) st = st.
Proof. by destruct st. Qed.

Lemma messages_set_messages a st : messages (set_messages a st) = a.
Proof. done. Qed.

Lemma messages_set_next_ref n st : messages (set_next_ref n st) = messages st.
Proof. done. Qed.

(** [updateSingleMessage], case by case. *)
Lemma updateSingleMessage_not_found st messageId updater :
  list_find (λ m, _id (val m) = messageId) (elems (messages st)) = None →
  updateSingleMessage messageId updater st = (Done tt, st).
Proof.
  intros Hnone. unfold updateSingleMessage. eff. rewrite Hnone. eff.
  by rewrite set_messages_same.
Qed.

Lemma updateSingleMessage_same st messageId updater index oldMessage r st1 :
  list_find (λ m, _id (val m) = messageId) (elems (messages st))
    = Some (index, oldMessage) →
  updater oldMessage st = (Done r, st1) →
  strict_eq r oldMessage = true →
  updateSingleMessage messageId updater st
    = (Done tt, set_messages (messages st) st1).
Proof.
  intros Hfind Hupd Heq. unfold updateSingleMessage. eff.
  rewrite Hfind. eff. rewrite Hupd, Heq. by eff.
Qed.

Lemma updateSingleMessage_replaced st messageId updater index oldMessage r st1 :
  list_find (λ m, _id (val m) = messageId) (elems (messages st))
    = Some (index, oldMessage) →
  updater oldMessage st = (Done r, st1) →
  strict_eq r oldMessage = false →
  updateSingleMessage messageId updater st
    = (Done tt,
       set_messages
         {| aref := next_ref st1;
            elems := <[index := r]> (elems (messages st)) |}
         (set_next_ref (S (next_ref st1)) st1)).
Proof.
  intros Hfind Hupd Heq. unfold updateSingleMessage. eff.
  rewrite Hfind. eff. rewrite Hupd, Heq. by eff.
Qed.

Lemma updateSingleMessage_threw st messageId updater index oldMessage e st1 :
  list_find (λ m, _id (val m) = messageId) (elems (messages st))
    = Some (index, oldMessage) →
  updater oldMessage st = (Threw e, st1) →
  updateSingleMessage messageId updater st = (Threw e, st1).
Proof.
  intros Hfind Hupd. unfold updateSingleMessage. eff.
  rewrite Hfind. eff. by rewrite Hupd.
Qed.

(* ===================================================================== *)
(** ** Reactions *)
(* ===================================================================== *)

Lemma wf_found st messageId index oldMessage :
  wf st →
  list_find (λ m, _id (val m) = messageId) (elems (messages st))
    = Some (index, oldMessage) →
  ref oldMessage < next_ref st.
Proof.
  intros Hwf Hfind. apply list_find_Some in Hfind as (Hlook & _ & _).
  unfold wf in Hwf. rewrite Forall_lookup in Hwf. by eapply Hwf.
Qed.

Lemma strict_eq_fresh st v oldMessage :
  ref oldMessage < next_ref st →
  strict_eq {| ref := next_ref st; val := v |} oldMessage = false.
Proof. intros Hlt. unfold strict_eq. cbn. apply Nat.eqb_neq. lia. Qed.

Lemma strict_eq_refl m : strict_eq m m = true.
Proof. apply Nat.eqb_refl. Qed.

Lemma list_find_insert_found {A} (P : A → Prop) `{∀ x, Decision (P x)}
    (l : list A) i x y :
  list_find P l = Some (i, x) → P y →
  list_find P (<[i := y]> l) = Some (i, y).
Proof.
  intros Hfind Hy. apply list_find_Some in Hfind as (Hlook & Hx & Hmin).
  apply list_find_Some. split; [|split; [done|]].
  - apply list_lookup_insert_eq. by eapply lookup_lt_Some.
  - intros j z Hj Hlt. rewrite list_lookup_insert_ne in Hj by lia. eauto.
Qed.

Lemma rollback_after_failure st st2 messageId :
  (∀ index oldMessage,
     list_find (λ m, _id (val m) = messageId) (elems (messages st))
       = Some (index, oldMessage) →
     ∃ cur, list_find (λ m, _id (val m) = messageId) (elems (messages st2))
              = Some (index, cur)
            ∧ <[index := oldMessage]> (elems (messages st2)) = elems (messages st)
            ∧ (cur = oldMessage ∨ strict_eq oldMessage cur = false)) →
  (list_find (λ m, _id (val m) = messageId) (elems (messages st)) = None →
   list_find (λ m, _id (val m) = messageId) (elems (messages st2)) = None
   ∧ elems (messages st2) = elems (messages st)) →
  let call := updateSingleMessage messageId
                (rollback (elems (messages st)) messageId) in
  result call st2 = Done tt
  ∧ toasts (exec call st2) = toasts st2
  ∧ elems (messages (exec call st2)) = elems (messages st).
Proof.
  intros Hsome Hnone call. subst call.
  destruct (list_find (λ m, _id (val m) = messageId) (elems (messages st)))
    as [[index oldMessage]|] eqn:Hfind.
  - destruct (Hsome _ _ eq_refl) as (cur & Hcur & Hins & Hcmp).
    assert (Hupd : rollback (elems (messages st)) messageId cur st2
                   = (Done oldMessage, st2)).
    { unfold rollback. by rewrite Hfind. }
    destruct (strict_eq oldMessage cur) eqn:Heq.
    + destruct Hcmp as [->|]; [|done].
      unfold result, exec.
      rewrite (updateSingleMessage_same _ _ _ _ _ _ _ Hcur Hupd Heq).
      cbn [fst snd]. rewrite set_messages_same.
      split; [done|]. split; [done|].
      rewrite <- Hins. symmetry. apply list_insert_id.
      by apply list_find_Some in Hcur as (? & _).
    + unfold result, exec.
      rewrite (updateSingleMessage_replaced _ _ _ _ _ _ _ Hcur Hupd Heq).
      cbn [fst snd]. done.
  - destruct (Hnone eq_refl) as (Hn2 & Hel).
    unfold result, exec. rewrite (updateSingleMessage_not_found _ _ _ Hn2).
    done.
Qed.

Lemma emit_refused st ev :
  socket_connected st = true → outbound_fails st = true →
  emit ev st = (Threw "emit failed", st).
Proof.
  unfold socket_connected, outbound_fails, emit.
  destruct (socketRef st) as [s|]; [|done].
  intros ->. cbn. by intros ->.
Qed.

(* ===================================================================== *)
(** ** Cleanup *)
(* ===================================================================== *)

(** What the blocks of [cleanup] leave alone. *)
Lemma leave_room_frame st :
  ∃ r sock, leave_room st = (r, set_socketRef sock st).
Proof.
  unfold leave_room, emit. eff.
  assert (Hid : (Done (), st) = (Done (), set_socketRef (socketRef st) st))
    by (by destruct st).
  assert (Hth : ∀ e, (@Threw unit e, st) = (Threw e, set_socketRef (socketRef st) st))
    by (by destruct st).
  repeat case_match; eauto.
Qed.

Lemma leave_room_done st :
  negb (socket_connected st && outbound_fails st) = true →
  ∃ sock, leave_room st = (Done tt, set_socketRef sock st).
Proof.
  intros Hok. unfold leave_room, emit, socket_connected, outbound_fails in *.
  eff.
  assert (Hid : (Done (), st) = (Done (), set_socketRef (socketRef st) st))
    by (by destruct st).
  destruct (roomId st) as [room|]; [|eauto].
  destruct (truthy _); cbn [andb]; [|eauto].
  destruct (socketRef st) as [sk|] eqn:Hs; [|eauto].
  destruct (connected sk); cbn in Hok; [|eauto].
  apply negb_true_iff in Hok. cbn. rewrite Hs, Hok. eauto.
Qed.

Lemma detach_unless_reconnect_frame reason st :
  ∃ sock, detach_unless_reconnect reason st = set_socketRef sock st.
Proof.
  unfold detach_unless_reconnect.
  assert (Hid : st = set_socketRef (socketRef st) st) by (by destruct st).
  repeat case_match; eauto.
Qed.

Lemma cancel_load_more_frame st :
  ∃ t, cancel_load_more st = set_loadMoreTimeoutRef t st.
Proof.
  unfold cancel_load_more.
  assert (Hid : st = set_loadMoreTimeoutRef (loadMoreTimeoutRef st) st)
    by (by destruct st).
  case_match; eauto.
Qed.

Lemma settle_seen reason st :
  processedMessageIds (exec (settle reason) st) = processedMessageIds st.
Proof.
  unfold settle, resetMessages, clear_user_rooms. eff.
  repeat case_match; done.
Qed.

Lemma settle_keeps_store reason st :
  reason ≠ "MANUAL" → messages (exec (settle reason) st) = messages st.
Proof.
  intros Hr. unfold settle. eff.
  rewrite (bool_decide_eq_false_2 _ Hr). cbn [andb].
  by case_match.
Qed.

Lemma cleanup_body_keeps_store reason st :
  reason ≠ "MANUAL" →
  messages (exec (cleanup_body reason) st) = messages st.
Proof.
  intros Hr. unfold cleanup_body. eff.
  destruct (cleanupInProgressRef st); [done|].
  destruct (leave_room_frame (set_cleanupInProgressRef true st))
    as (r & sock & ->).
  destruct r as [[]|e]; [|done].
  destruct (detach_unless_reconnect_frame reason
              (set_socketRef sock (set_cleanupInProgressRef true st)))
    as (sock' & ->).
  destruct (cancel_load_more_frame
              (set_socketRef sock'
                 (set_socketRef sock (set_cleanupInProgressRef true st))))
    as (t & ->).
  pose proof (settle_keeps_store reason) as Hs. unfold exec in Hs.
  by rewrite Hs.
Qed.

Lemma cleanup_keeps_store reason st :
  reason ≠ "MANUAL" →
  messages (exec (cleanup (Some reason)) st) = messages st.
Proof.
  intros Hr. pose proof (cleanup_body_keeps_store reason st Hr) as Hbody.
  unfold cleanup. eff.
  destruct (negb (mountedRef st) || negb (truthy (roomId st))); [done|].
  destruct (cleanup_body reason st) as [[[]|e] st1]; cbn [snd] in *;
    [done|].
  by destruct (mountedRef st1).
Qed.

(** The state in which the [try] block of a running cleanup reaches its
    last statement. *)
Lemma cleanup_body_runs reason st :
  cleanup_runs st = true →
  ∃ sock t,
    cleanup_body reason st
    = settle reason
        (set_messageProcessingRef false
           (set_previousMessagesRef ∅
              (set_processedMessageIds ∅
                 (set_loadMoreTimeoutRef t
                    (set_socketRef sock
                       (set_cleanupInProgressRef true st)))))).
Proof.
  unfold cleanup_runs.
  intros [[[Hm Hroom]%andb_true_iff Hc%negb_true_iff]%andb_true_iff
            Hemit]%andb_true_iff.
  unfold cleanup_body. eff. rewrite Hc.
  destruct (leave_room_done (set_cleanupInProgressRef true st) Hemit)
    as (sock & ->).
  destruct (detach_unless_reconnect_frame reason
              (set_socketRef sock (set_cleanupInProgressRef true st)))
    as (sock' & ->).
  destruct (cancel_load_more_frame
              (set_socketRef sock'
                 (set_socketRef sock (set_cleanupInProgressRef true st))))
    as (t & ->).
  by exists sock', t.
Qed.

Lemma settle_done reason st : ∃ st', settle reason st = (Done tt, st').
Proof.
  unfold settle, resetMessages. eff. repeat case_match; eauto.
Qed.

(** Every cleanup that runs empties the seen ids, whatever the reason. *)
Lemma cleanup_clears_seen reason st :
  cleanup_runs st = true →
  processedMessageIds (exec (cleanup reason) st) = ∅.
Proof.
  intros Hrun. unfold cleanup.
  set (r := match reason with Some r => r | None => "MANUAL" end).
  destruct (cleanup_body_runs r st Hrun) as (sock & t & Hbody).
  unfold cleanup_runs in Hrun.
  apply andb_true_iff in Hrun as
    [[[Hm Hroom]%andb_true_iff _]%andb_true_iff _].
  eff. rewrite Hm, Hroom. cbn [negb orb]. rewrite Hbody.
  pose proof (settle_seen r) as Hs.
  match goal with |- context [settle r ?s] =>
    specialize (Hs s); destruct (settle_done r s) as (st' & Hst') end.
  unfold exec in Hs. rewrite Hst' in *. cbn [snd] in *. cbn.
  by rewrite Hs.
Qed.

Lemma clear_user_rooms_frame st :
  ∃ u, clear_user_rooms st = set_userRooms u st.
Proof.
  unfold clear_user_rooms.
  assert (Hid : st = set_userRooms (userRooms st) st) by (by destruct st).
  case_match; eauto.
Qed.

Lemma settle_MANUAL st :
  mountedRef st = true →
  ∃ u, settle "MANUAL" st
       = (Done tt,
          set_userRooms u
            (set_messages {| aref := next_ref st; elems := [] |}
               (set_next_ref (S (next_ref st))
                  (set_loadingMessages false
                     (set_loading false (set_error None st)))))).
Proof.
  intros Hm. unfold settle, resetMessages. eff.
  rewrite Hm, (bool_decide_eq_true_2 ("MANUAL" = "MANUAL")) by done.
  cbn [andb].
  match goal with |- context [clear_user_rooms ?s] =>
    destruct (clear_user_rooms_frame s) as (u & ->) end.
  by exists u.
Qed.

(** A cleanup that runs with the default reason, ["MANUAL"], is a full
    reset. *)
Lemma cleanup_MANUAL_resets reason st :
  cleanup_runs st = true →
  reason = None ∨ reason = Some "MANUAL" →
  let st' := exec (cleanup reason) st in
  elems (messages st') = [] ∧ error st' = None
  ∧ processedMessageIds st' = ∅
  ∧ loading st' = false ∧ loadingMessages st' = false.
Proof.
  intros Hrun Hreason st'. subst st'. unfold cleanup.
  replace (match reason with Some r => r | None => "MANUAL" end)
    with "MANUAL" by (by destruct Hreason as [-> | ->]).
  destruct (cleanup_body_runs "MANUAL" st Hrun) as (sock & t & Hbody).
  unfold cleanup_runs in Hrun.
  apply andb_true_iff in Hrun as
    [[[Hm Hroom]%andb_true_iff _]%andb_true_iff _].
  eff. rewrite Hm, Hroom. cbn [negb orb]. rewrite Hbody.
  match goal with |- context [settle "MANUAL" ?s] =>
    destruct (settle_MANUAL s Hm) as (u & ->) end.
  done.
Qed.

(* ===================================================================== *)
(** ** Read receipts *)
(* ===================================================================== *)

Lemma mark_read_step userId messageIds timestamp now msg st :
  ∃ new n,
    mark_read userId messageIds timestamp now msg st
      = (Done new, set_next_ref n st)
    ∧ read_step userId messageIds (or_now timestamp now) msg new.
Proof.
  unfold mark_read, read_step. eff.
  assert (Hid : st = set_next_ref (next_ref st) st) by (by destruct st).
  destruct (bool_decide (_id (val msg) ∈ messageIds)); cbn [negb andb].
  - destruct (already_read userId (val msg)); cbn [negb].
    + exists msg, (next_ref st). by rewrite <- Hid.
    + by eexists _, _.
  - exists msg, (next_ref st). by rewrite <- Hid.
Qed.

Lemma mapE_mark_read userId messageIds timestamp now l st :
  ∃ l' n,
    mapE (mark_read userId messageIds timestamp now) l st
      = (Done l', set_next_ref n st)
    ∧ Forall2 (read_step userId messageIds (or_now timestamp now)) l l'.
Proof.
  revert st. induction l as [|msg l IH]; intros st.
  - exists [], (next_ref st). split; [|constructor].
    cbn. eff. by destruct st.
  - cbn [mapE]. eff.
    destruct (mark_read_step userId messageIds timestamp now msg st)
      as (new & n & -> & Hstep).
    destruct (IH (set_next_ref n st)) as (l' & n' & -> & Hall).
    exists (new :: l'), n'. split; [done|]. by constructor.
Qed.




(* ===================================================================== *)
(** ** The sort and the de-duplication of [processMessages] *)
(* ===================================================================== *)

Section sort.
Local Open Scope Z_scope.

Lemma dated_new_Date m : dated (val m) → new_Date (ts m) = Some (ts m).
Proof.
  unfold dated, new_Date, ts. intros H.
  by rewrite (proj2 (Z.leb_le _ _) H).
Qed.

Lemma compare_ts_dated x y :
  dated (val x) → dated (val y) → compare_ts x y = Some (ts x - ts y).
Proof.
  intros Hx Hy. unfold compare_ts.
  by rewrite (dated_new_Date x Hx), (dated_new_Date y Hy).
Qed.

(** The comparator is positive only for a later timestamp. *)
Lemma compare_ts_pos x y v : compare_ts x y = Some v → 0 < v → ts y < ts x.
Proof.
  unfold compare_ts, new_Date. repeat case_match; cbn; try done.
  intros [= <-]. lia.
Qed.

Lemma sort_insert_perm x l : sort_insert x l ≡ₚ x :: l.
Proof.
  induction l as [|y l IH]; [done|]. cbn [sort_insert].
  repeat case_match; try done. rewrite IH. apply Permutation_swap.
Qed.

Lemma js_sort_perm l : js_sort l ≡ₚ l.
Proof.
  induction l as [|x l IH]; [done|]. cbn [js_sort].
  by rewrite sort_insert_perm, IH.
Qed.

Lemma sort_insert_sorted x l :
  dated (val x) → Forall (λ m, dated (val m)) l →
  sorted_by_ts l → sorted_by_ts (sort_insert x l).
Proof.
  unfold sorted_by_ts. intros Hx Hd Hs.
  induction Hs as [|y l Hl IH Hy]; cbn [sort_insert].
  - repeat constructor.
  - apply Forall_cons in Hd as [Hdy Hd].
    rewrite (compare_ts_dated x y Hx Hdy).
    destruct (0 <? ts x - ts y) eqn:Hcmp.
    + apply Z.ltb_lt in Hcmp. constructor; [by apply IH|].
      rewrite sort_insert_perm. constructor; [lia|done].
    + apply Z.ltb_ge in Hcmp. constructor; [by constructor|].
      constructor; [lia|].
      eapply Forall_impl; [exact Hy|]. cbn. intros z Hz. lia.
Qed.

(** Over valid dates the sort sorts. *)
Lemma js_sort_sorted l :
  Forall (λ m, dated (val m)) l → sorted_by_ts (js_sort l).
Proof.
  induction 1 as [|x l Hx Hl IH]; cbn [js_sort].
  - constructor.
  - apply sort_insert_sorted; [done| |done].
    by rewrite js_sort_perm.
Qed.

(** Stability: among the entries of one instant, the order of the input
    is kept. *)
Lemma sort_insert_stable t x l :
  filter (λ m, ts m = t) (sort_insert x l) = filter (λ m, ts m = t) (x :: l).
Proof.
  induction l as [|y l IH]; [done|]. cbn [sort_insert].
  destruct (compare_ts x y) as [v|] eqn:Hv; [|done].
  destruct (0 <? v) eqn:Hcmp; [|done].
  apply Z.ltb_lt in Hcmp. pose proof (compare_ts_pos x y v Hv Hcmp).
  rewrite (filter_cons _ y), IH, !(filter_cons _ x), (filter_cons _ y).
  repeat case_decide; try done; lia.
Qed.

Lemma js_sort_stable t l :
  filter (λ m, ts m = t) (js_sort l) = filter (λ m, ts m = t) l.
Proof.
  induction l as [|x l IH]; [done|]. cbn [js_sort].
  by rewrite sort_insert_stable, !(filter_cons _ x), IH.
Qed.

(** A sorted list is left as it is. *)
Lemma js_sort_sorted_id l : sorted_by_ts l → js_sort l = l.
Proof.
  unfold sorted_by_ts. induction 1 as [|x l Hl IH Hx]; [done|].
  cbn [js_sort]. rewrite IH. destruct Hx as [|y l Hxy _]; [done|].
  cbn [sort_insert].
  destruct (compare_ts x y) as [v|] eqn:Hv; [|done].
  destruct (0 <? v) eqn:Hcmp; [|done].
  apply Z.ltb_lt in Hcmp. pose proof (compare_ts_pos x y v Hv Hcmp). lia.
Qed.

(** Appending to a sorted store. *)
Lemma sorted_snoc l x :
  sorted_by_ts (l ++ [x])
  ↔ sorted_by_ts l ∧ Forall (λ y, ts y ≤ ts x) l.
Proof.
  unfold sorted_by_ts. induction l as [|y l IH]; cbn [app].
  - split; [intros _; split; constructor|intros _; repeat constructor].
  - split.
    + intros Hs. apply StronglySorted_inv in Hs as [Hs Hy].
      apply IH in Hs as [Hs Hall].
      apply Forall_app in Hy as [Hy Hx%Forall_inv].
      split; [by constructor|by constructor].
    + intros [Hs Hall]. apply StronglySorted_inv in Hs as [Hs Hy].
      apply Forall_cons in Hall as [Hyx Hall].
      constructor; [apply IH; by split|].
      apply Forall_app. split; [done|by constructor].
Qed.
End sort.

Section dedupe.
Lemma map_set_keys k v m :
  (map_set k v m).*1 = if bool_decide (k ∈ m.*1) then m.*1 else m.*1 ++ [k].
Proof.
  induction m as [|[k' v'] m IH]; [done|]. cbn [map_set fmap list_fmap fst].
  destruct (bool_decide (k' = k)) eqn:Hk.
  - apply bool_decide_eq_true in Hk as ->.
    by rewrite bool_decide_eq_true_2 by constructor.
  - apply bool_decide_eq_false in Hk.
    cbn [fmap list_fmap fst]. rewrite IH.
    destruct (bool_decide (k ∈ m.*1)) eqn:Hin.
    + apply bool_decide_eq_true in Hin.
      by rewrite bool_decide_eq_true_2 by (by constructor).
    + apply bool_decide_eq_false in Hin.
      rewrite bool_decide_eq_false_2; [done|].
      apply not_elem_of_cons. split; [congruence|done].
Qed.

Lemma map_set_keyed v m : keyed m → keyed (map_set (_id (val v)) v m).
Proof.
  intros [Hkv Hnd]. split.
  - clear Hnd. induction Hkv as [|[k' v'] m Hk Hm IH]; cbn [map_set].
    + by repeat constructor.
    + case_bool_decide; constructor; done.
  - rewrite map_set_keys. case_bool_decide as Hin; [done|].
    apply NoDup_app. split; [done|]. split; [|apply NoDup_singleton].
    intros x Hx ->%list_elem_of_singleton. done.
Qed.

Lemma map_set_fresh v m :
  _id (val v) ∉ m.*1 → map_set (_id (val v)) v m = m ++ [(_id (val v), v)].
Proof.
  induction m as [|[k' v'] m IH]; [done|]. cbn [map_set fmap list_fmap fst].
  intros [Hne Hnin]%not_elem_of_cons.
  rewrite bool_decide_eq_false_2 by congruence.
  by rewrite IH.
Qed.

Lemma foldl_map_set_keyed l m :
  keyed m → keyed (foldl (λ map msg, map_set (_id (val msg)) msg map) m l).
Proof.
  revert m. induction l as [|x l IH]; intros m Hm; [done|].
  cbn [foldl]. by apply IH, map_set_keyed.
Qed.

Lemma keyed_ids m : keyed m → ids m.*2 = m.*1.
Proof.
  intros [Hkv _]. unfold ids.
  induction Hkv as [|[k v] m Hk Hm IH]; [done|].
  cbn in *. by rewrite IH, Hk.
Qed.

(** After the de-duplication no id occurs twice. *)
Lemma dedupe_NoDup l : NoDup (ids (dedupe l)).
Proof.
  unfold dedupe.
  assert (Hk : keyed (foldl (λ map msg, map_set (_id (val msg)) msg map) [] l)).
  { apply foldl_map_set_keyed. split; constructor. }
  rewrite (keyed_ids _ Hk). apply Hk.
Qed.

Lemma foldl_map_set_fresh l m :
  NoDup (m.*1 ++ ids l) →
  foldl (λ map msg, map_set (_id (val msg)) msg map) m l
  = m ++ ((λ msg, (_id (val msg), msg)) <$> l).
Proof.
  revert m. induction l as [|x l IH]; intros m Hnd.
  - by rewrite app_nil_r.
  - cbn [foldl]. cbn [ids fmap list_fmap] in Hnd.
    apply NoDup_app in Hnd as (Hm & Hdisj & Hl).
    apply NoDup_cons in Hl as [Hx Hl].
    rewrite map_set_fresh by (intros Hin; apply (Hdisj _ Hin); constructor).
    rewrite IH.
    + cbn [fmap list_fmap]. by rewrite <- app_assoc.
    + rewrite fmap_app. cbn [fmap list_fmap fst]. rewrite <- app_assoc.
      cbn [app]. apply NoDup_app. split; [done|]. split.
      * intros k Hk Hin. apply (Hdisj _ Hk). set_solver.
      * by apply NoDup_cons.
Qed.

(** Without a repeated id the de-duplication changes nothing. *)
Lemma dedupe_id l : NoDup (ids l) → dedupe l = l.
Proof.
  intros Hnd. unfold dedupe. rewrite foldl_map_set_fresh by done.
  cbn [app]. rewrite <- list_fmap_compose. by rewrite list_fmap_id.
Qed.
End dedupe.

(* ===================================================================== *)
(** ** Admission *)
(* ===================================================================== *)

Lemma seen_mono st st' id :
  processedMessageIds st ⊆ processedMessageIds st' →
  seen st id = true → seen st' id = true.
Proof.
  unfold seen. destruct id as [i|]; [|done].
  rewrite !bool_decide_eq_true. set_solver.
Qed.

(** The filter callback, in closed form. *)
Lemma accept_spec msg st :
  accept msg st
  = (Done (negb (rejected st (val msg))),
     if rejected st (val msg) then st else mark_seen (_id (val msg)) st).
Proof.
  unfold accept, rejected. eff.
  destruct (truthy (_id (val msg))); cbn [negb orb]; [|done].
  by destruct (seen st (_id (val msg))).
Qed.

(** What the filter of a batch accepts, and what it leaves of the state:
    only the seen ids change, by the ids accepted. *)
Lemma filterE_accept l st :
  ∃ acc S,
    filterE accept l st = (Done acc, set_processedMessageIds S st)
    ∧ (∀ i, i ∈ S ↔ i ∈ processedMessageIds st ∨ Some i ∈ ids acc)
    ∧ NoDup (ids acc)
    ∧ Forall (λ m, truthy (_id (val m)) = true
                   ∧ seen st (_id (val m)) = false) acc
    ∧ sublist acc l.
Proof.
  revert st. induction l as [|x l IH]; intros st.
  - exists [], (processedMessageIds st). cbn [filterE]. eff.
    split; [by destruct st|]. split.
    { intros i. split; [auto|]. intros [?|Hin]; [done|].
      by apply elem_of_nil in Hin. }
    split; [constructor|]. split; constructor.
  - cbn [filterE]. eff. rewrite accept_spec.
    destruct (rejected st (val x)) eqn:Hrej; cbn [negb].
    + destruct (IH st) as (acc & S & -> & HS & Hnd & Hall & Hsub).
      exists acc, S. split; [done|]. split; [done|]. split; [done|].
      split; [done|]. by apply sublist_cons.
    + unfold rejected in Hrej.
      apply orb_false_iff in Hrej as [Htr%negb_false_iff Hseen].
      destruct (_id (val x)) as [i|] eqn:Hid; [|done].
      destruct (IH (mark_seen (Some i) st))
        as (acc & S & -> & HS & Hnd & Hall & Hsub).
      cbn [mark_seen] in *. cbn [processedMessageIds set_processedMessageIds] in HS.
      exists (x :: acc), S. split; [done|]. split; [|split; [|split]].
      * intros j. rewrite HS. cbn [ids fmap list_fmap]. rewrite Hid.
        rewrite elem_of_union, elem_of_singleton, elem_of_cons.
        split; [intros [[->|?]|?]; auto|intros [?|[[= ->]|?]]; auto].
      * cbn [ids fmap list_fmap]. rewrite Hid. apply NoDup_cons.
        split; [|done]. intros Hin.
        apply list_elem_of_fmap in Hin as (m & Hm & Hmin).
        rewrite Forall_forall in Hall.
        destruct (Hall m Hmin) as [_ Hs]. rewrite <- Hm in Hs.
        unfold seen in Hs. cbn in Hs.
        apply bool_decide_eq_false in Hs. apply Hs, elem_of_union.
        left. by apply elem_of_singleton.
      * constructor; [by rewrite Hid|].
        eapply Forall_impl; [exact Hall|]. cbn.
        intros m [Ht Hs]. split; [done|].
        destruct (seen st (_id (val m))) eqn:Hs'; [|done].
        rewrite <- Hs. symmetry. eapply seen_mono; [|exact Hs']. cbn.
        apply union_subseteq_r.
      * by apply sublist_skip.
Qed.

(** [processMessages] on an array: the store it leaves. *)
Lemma processMessages_store loaded hasMore isInitialLoad st :
  ∃ acc st',
    processMessages (IsArray loaded) hasMore isInitialLoad st = (Done tt, st')
    ∧ elems (messages st') = dedupe (js_sort (elems (messages st) ++ acc))
    ∧ (∀ i, i ∈ processedMessageIds st'
            ↔ i ∈ processedMessageIds st ∨ Some i ∈ ids acc)
    ∧ NoDup (ids acc)
    ∧ Forall (λ m, truthy (_id (val m)) = true
                   ∧ seen st (_id (val m)) = false) acc
    ∧ sublist acc loaded
    ∧ hasMoreMessages st' = hasMore.
Proof.
  destruct (filterE_accept loaded st) as (acc & S & Hf & HS & Hnd & Hall & Hsub).
  exists acc. unfold processMessages. eff. rewrite Hf. eff.
  destruct isInitialLoad; eff; eexists; (split; [done|]); cbn; done.
Qed.

(** The objects that the transport allocates change only the allocator. *)
Lemma mapE_alloc_obj l st :
  ∃ objs n,
    mapE alloc_obj l st = (Done objs, set_next_ref n st)
    ∧ val <$> objs = l.
Proof.
  revert st. induction l as [|m l IH]; intros st.
  - exists [], (next_ref st). cbn. eff. by destruct st.
  - cbn [mapE]. eff.
    destruct (IH (set_next_ref (S (next_ref st)) st)) as (objs & n & -> & Hv).
    eexists (_ :: objs), n. split; [done|]. cbn. by rewrite Hv.
Qed.

Lemma stored_once_next_ref n st :
  stored_once st → stored_once (set_next_ref n st).
Proof. done. Qed.

Lemma ids_perm l l' : l ≡ₚ l' → ids l ≡ₚ ids l'.
Proof. intros H. unfold ids. by rewrite H. Qed.

(** On a store taken in through the seen ids, a batch is sorted in and
    nothing is dropped by the de-duplication. *)
Lemma processMessages_stored_once loaded hasMore isInitialLoad st :
  stored_once st →
  ∃ acc,
    elems (messages (exec (processMessages (IsArray loaded) hasMore
                             isInitialLoad) st))
    = js_sort (elems (messages st) ++ acc)
    ∧ sublist acc loaded
    ∧ stored_once (exec (processMessages (IsArray loaded) hasMore
                             isInitialLoad) st).
Proof.
  intros [Hnd Hall].
  destruct (processMessages_store loaded hasMore isInitialLoad st)
    as (acc & st' & Hrun & Hst & HS & Hnd' & Hacc & Hsub & _).
  unfold exec. rewrite Hrun. cbn [snd]. exists acc.
  assert (Hndall : NoDup (ids (elems (messages st) ++ acc))).
  { unfold ids. rewrite fmap_app. apply NoDup_app. split; [done|].
    split; [|done]. intros k Hk Hk'.
    apply list_elem_of_fmap in Hk as (m & -> & Hm).
    apply list_elem_of_fmap in Hk' as (m' & Heq & Hm').
    rewrite Forall_forall in Hall, Hacc.
    destruct (Hall m Hm) as [_ Hs]. destruct (Hacc m' Hm') as [_ Hs'].
    congruence. }
  assert (Hsorted : dedupe (js_sort (elems (messages st) ++ acc))
                    = js_sort (elems (messages st) ++ acc)).
  { apply dedupe_id. by rewrite (ids_perm _ _ (js_sort_perm _)). }
  rewrite Hsorted in Hst. split; [done|]. split; [done|].
  split.
  - rewrite Hst. by rewrite (ids_perm _ _ (js_sort_perm _)).
  - rewrite Hst. rewrite js_sort_perm. apply Forall_app. split.
    + eapply Forall_impl; [exact Hall|]. cbn. intros m [Ht Hs].
      split; [done|]. unfold seen in *.
      destruct (_id (val m)) as [i|]; [|done].
      apply bool_decide_eq_true. apply HS. left.
      by apply bool_decide_eq_true in Hs.
    + rewrite Forall_forall in Hacc |- *. intros m Hm.
      destruct (Hacc m Hm) as [Ht _]. split; [done|].
      unfold seen. destruct (_id (val m)) as [i|] eqn:Hi; [|done].
      apply bool_decide_eq_true. apply HS. right. rewrite <- Hi.
      unfold ids. apply list_elem_of_fmap. eauto.
Qed.

Lemma existsb_same_id (m : MsgObj) l :
  existsb (λ x, bool_decide (_id (val x) = _id (val m))) l = false →
  _id (val m) ∉ ids l.
Proof.
  induction l as [|x l IH]; cbn [existsb].
  - intros _. unfold ids. cbn. apply not_elem_of_nil.
  - intros [Hx%bool_decide_eq_false Hl]%orb_false_iff.
    unfold ids. cbn [fmap list_fmap]. apply not_elem_of_cons.
    split; [done|by apply IH].
Qed.

(** A rejected live message changes nothing. *)
Lemma on_message_rejected m st :
  rejected st (val m) = true → on_message (Some m) st = (Done tt, st).
Proof.
  unfold rejected, on_message. eff.
  destruct (truthy (_id (val m))); cbn [negb orb].
  - intros ->. by rewrite orb_false_r, Tauto.if_same.
  - intros _. by rewrite orb_true_r.
Qed.

(** A live message is dropped or appended at the end. *)
Lemma on_message_store m st :
  let st' := exec (on_message (Some m)) st in
  processedMessageIds st ⊆ processedMessageIds st'
  ∧ (elems (messages st') = elems (messages st)
     ∨ (elems (messages st') = elems (messages st) ++ [m]
        ∧ (_id (val m) ∉ ids (elems (messages st)))
        ∧ truthy (_id (val m)) = true
        ∧ seen st' (_id (val m)) = true)).
Proof.
  unfold on_message. eff.
  destruct ((negb (mountedRef st) || messageProcessingRef st)
            || negb (truthy (_id (val m)))) eqn:Hguard; [by split; [|left]|].
  apply orb_false_iff in Hguard as [_ Htr%negb_false_iff].
  destruct (seen st (_id (val m))) eqn:Hseen; [by split; [|left]|].
  destruct (_id (val m)) as [i|] eqn:Hid; [|done].
  cbn [mark_seen]. cbn.
  destruct (existsb _ (elems (messages st))) eqn:Hex; eff; cbn.
  - split; [set_solver|by left].
  - split; [set_solver|]. right. split; [done|].
    split; [rewrite <- Hid; apply existsb_same_id; by rewrite Hid|].
    split; [done|]. apply bool_decide_eq_true. set_solver.
Qed.

Lemma run_snoc h a st : run (h ++ [a]) st = exec (deliver a) (run h st).
Proof. unfold run. by rewrite foldl_app. Qed.

(** What a delivery does, seen from the handlers: the transport
    allocates, the handler runs. *)
Lemma deliver_live m st :
  exec (deliver (Live (Some m))) st
  = exec (on_message (Some {| ref := next_ref st; val := m |}))
      (set_next_ref (S (next_ref st)) st).
Proof. unfold deliver. by eff. Qed.

Lemma deliver_batch loaded hasMore isInitialLoad st :
  ∃ objs n,
    val <$> objs = loaded
    ∧ exec (deliver (Batch (IsArray loaded) hasMore isInitialLoad)) st
      = exec (processMessages (IsArray objs) hasMore isInitialLoad)
          (set_next_ref n st).
Proof.
  destruct (mapE_alloc_obj loaded st) as (objs & n & Hmap & Hval).
  exists objs, n. split; [done|].
  unfold deliver, receive_field. eff. rewrite Hmap. by eff.
Qed.

Lemma deliver_not_array loaded hasMore isInitialLoad st :
  loaded = Absent ∨ loaded = NotArray →
  exec (deliver (Batch loaded hasMore isInitialLoad)) st = st.
Proof. by intros [-> | ->]. Qed.

(** The invariant of admission through the seen ids. *)
Lemma deliver_stored_once a st :
  stored_once st → stored_once (exec (deliver a) st).
Proof.
  intros Hinv. destruct a as [[m|]|loaded hasMore isInitialLoad].
  - rewrite deliver_live.
    set (o := {| ref := next_ref st; val := m |}).
    set (st1 := set_next_ref (S (next_ref st)) st).
    assert (Hinv1 : stored_once st1) by done.
    destruct (on_message_store o st1) as [Hsub Hstore].
    destruct Hinv1 as [Hnd Hall].
    assert (Hall' : Forall (λ x, truthy (_id (val x)) = true
                     ∧ seen (exec (on_message (Some o)) st1) (_id (val x)) = true)
                     (elems (messages st1))).
    { eapply Forall_impl; [exact Hall|]. cbn. intros x [Ht Hs].
      split; [done|]. by eapply seen_mono. }
    destruct Hstore as [Heq|(Heq & Hnin & Htr & Hseen)]; split; rewrite Heq;
      try done.
    + unfold ids. rewrite fmap_app. apply NoDup_app. split; [done|].
      split; [|apply NoDup_singleton].
      intros k Hk ->%list_elem_of_singleton. done.
    + apply Forall_app. split; [done|]. by repeat constructor.
  - done.
  - destruct loaded as [| |loaded]; [done|done|].
    destruct (deliver_batch loaded hasMore isInitialLoad st)
      as (objs & n & _ & ->).
    destruct (processMessages_stored_once objs hasMore isInitialLoad
                (set_next_ref n st)) as (acc & _ & _ & Hinv'); done.
Qed.

Lemma initial_stored_once room sock : stored_once (initial room sock).
Proof. split; constructor. Qed.

Lemma run_stored_once h st : stored_once st → stored_once (run h st).
Proof.
  revert st. induction h as [|a h IH]; intros st Hinv; [done|].
  cbn. by apply IH, deliver_stored_once.
Qed.

(** No delivery stores an id twice, whatever the seen ids hold. *)
Lemma deliver_NoDup a st :
  NoDup (ids (elems (messages st))) →
  NoDup (ids (elems (messages (exec (deliver a) st)))).
Proof.
  intros Hnd. destruct a as [[m|]|loaded hasMore isInitialLoad].
  - rewrite deliver_live.
    destruct (on_message_store {| ref := next_ref st; val := m |}
                (set_next_ref (S (next_ref st)) st))
      as [_ [Heq|(Heq & Hnin & _)]]; rewrite Heq; [done|].
    unfold ids. rewrite fmap_app. apply NoDup_app. split; [done|].
    split; [|apply NoDup_singleton].
    intros k Hk ->%list_elem_of_singleton. done.
  - done.
  - destruct loaded as [| |loaded]; [done|done|].
    destruct (deliver_batch loaded hasMore isInitialLoad st)
      as (objs & n & _ & ->).
    destruct (processMessages_store objs hasMore isInitialLoad
                (set_next_ref n st)) as (acc & st' & Hrun & Hst & _).
    unfold exec. rewrite Hrun. cbn [snd]. rewrite Hst. apply dedupe_NoDup.
Qed.

Lemma run_NoDup h st :
  NoDup (ids (elems (messages st))) →
  NoDup (ids (elems (messages (run h st)))).
Proof.
  revert st. induction h as [|a h IH]; intros st Hnd; [done|].
  cbn. by apply IH, deliver_NoDup.
Qed.

(** A rejected candidate of a batch is filtered out, wherever it stands
    in the batch. *)
Lemma accept_rejected_mono c x st b st1 :
  accept x st = (Done b, st1) →
  rejected st c = true → rejected st1 c = true.
Proof.
  rewrite accept_spec. intros [= <- <-] Hrej.
  destruct (rejected st (val x)); [done|].
  unfold rejected in *. destruct (truthy (_id c)); cbn [negb orb] in *; [|done].
  eapply seen_mono; [|done].
  destruct (_id (val x)); cbn; set_solver.
Qed.

Lemma filterE_accept_skip l1 c l2 st :
  rejected st (val c) = true →
  filterE accept (l1 ++ c :: l2) st = filterE accept (l1 ++ l2) st.
Proof.
  revert st. induction l1 as [|x l1 IH]; intros st Hrej; cbn [app filterE].
  - eff. rewrite accept_spec, Hrej. cbn [negb].
    by destruct (filterE accept l2 st) as [[acc|e] st'].
  - eff. destruct (accept x st) as [[b|e] st1] eqn:Hx; [|done].
    by rewrite (IH st1 (accept_rejected_mono _ _ _ _ _ Hx Hrej)).
Qed.

Lemma filterE_accept_none l st :
  Forall (λ c, rejected st (val c) = true) l →
  filterE accept l st = (Done [], st).
Proof.
  induction 1 as [|c l Hc Hl IH]; [done|]. cbn [filterE]. eff.
  by rewrite accept_spec, Hc, IH.
Qed.

(* ===================================================================== *)
(** ** The allocator invariant *)
(* ===================================================================== *)

(** [wf] is an invariant of the hook: it holds initially, and every
    handler keeps it. *)

Lemma wf_initial room sock : wf (initial room sock).
Proof. constructor. Qed.

Lemma wf_intro st l a n :
  Forall (λ m, ref m < n) l →
  wf (set_messages {| aref := a; elems := l |} (set_next_ref n st)).
Proof. done. Qed.

Lemma wf_weaken st st' :
  wf st → messages st' = messages st → next_ref st ≤ next_ref st' → wf st'.
Proof.
  unfold wf. intros Hwf -> Hle. eapply Forall_impl; [exact Hwf|].
  cbn. intros m Hm. lia.
Qed.

(** An updater that returns an allocated object, or throws at once,
    keeps the invariant. *)
Lemma updateSingleMessage_wf st messageId updater :
  wf st →
  (∀ oldMessage,
     oldMessage ∈ elems (messages st) →
     (∃ r st1, updater oldMessage st = (Done r, st1)
               ∧ next_ref st ≤ next_ref st1 ∧ ref r < next_ref st1)
     ∨ ∃ e, updater oldMessage st = (Threw e, st)) →
  wf (exec (updateSingleMessage messageId updater) st)
  ∧ next_ref st ≤ next_ref (exec (updateSingleMessage messageId updater) st).
Proof.
  intros Hwf Hupd. unfold exec.
  destruct (list_find (λ m, _id (val m) = messageId) (elems (messages st)))
    as [[index oldMessage]|] eqn:Hfind.
  - pose proof Hfind as Hfind'.
    apply list_find_Some in Hfind' as (Hlook & _ & _).
    destruct (Hupd oldMessage) as [(r & st1 & Hr & Hle & Hlt)|(e & He)].
    { by eapply list_elem_of_lookup_2. }
    + destruct (strict_eq r oldMessage) eqn:Heq.
      * rewrite (updateSingleMessage_same _ _ _ _ _ _ _ Hfind Hr Heq).
        cbn [fst snd]. split; [|done].
        unfold wf in *. cbn. eapply Forall_impl; [exact Hwf|].
        cbn. intros m Hm. lia.
      * rewrite (updateSingleMessage_replaced _ _ _ _ _ _ _ Hfind Hr Heq).
        cbn [fst snd]. split; [|cbn; lia].
        apply wf_intro. apply Forall_insert; [|lia].
        eapply Forall_impl; [exact Hwf|]. cbn. intros m Hm. lia.
    + by rewrite (updateSingleMessage_threw _ _ _ _ _ _ _ Hfind He).
  - rewrite (updateSingleMessage_not_found _ _ _ Hfind). by cbn.
Qed.

Lemma handleReactionUpdate_wf data st :
  wf st → wf (exec (handleReactionUpdate data) st).
Proof.
  intros Hwf. apply updateSingleMessage_wf; [done|].
  intros oldMessage _. left. eexists _, _. split; [done|]. cbn. lia.
Qed.

Lemma add_reaction_allocates currentUser reaction oldMessage st :
  ref oldMessage < next_ref st →
  (∃ r st1, add_reaction currentUser reaction oldMessage st = (Done r, st1)
            ∧ next_ref st ≤ next_ref st1 ∧ ref r < next_ref st1)
  ∨ ∃ e, add_reaction currentUser reaction oldMessage st = (Threw e, st).
Proof.
  intros Hlt. unfold add_reaction.
  destruct (or_empty _) as [users| |]; [|right; by eexists..].
  left. case_match.
  - by exists oldMessage, st.
  - eexists _, _. split; [done|]. cbn. lia.
Qed.

Lemma remove_reaction_allocates currentUser reaction oldMessage st :
  (∃ r st1, remove_reaction currentUser reaction oldMessage st = (Done r, st1)
            ∧ next_ref st ≤ next_ref st1 ∧ ref r < next_ref st1)
  ∨ ∃ e, remove_reaction currentUser reaction oldMessage st = (Threw e, st).
Proof.
  unfold remove_reaction.
  destruct (or_empty _) as [users| |]; [|right; by eexists..].
  left. eexists _, _. split; [done|]. cbn. lia.
Qed.

Lemma rollback_allocates (messages0 : list MsgObj) messageId oldMessage st :
  Forall (λ m, ref m < next_ref st) messages0 →
  ∃ r st1, rollback messages0 messageId oldMessage st = (Done r, st1)
           ∧ next_ref st ≤ next_ref st1 ∧ ref r < next_ref st1.
Proof.
  intros Hall. unfold rollback.
  destruct (list_find _ messages0) as [[i m]|] eqn:Hfind.
  - exists m, st. split; [done|]. split; [done|].
    apply list_find_Some in Hfind as (Hlook & _ & _).
    rewrite Forall_lookup in Hall. by eapply Hall.
  - eexists _, _. split; [done|]. cbn. lia.
Qed.

Lemma wf_found_in st m : wf st → m ∈ elems (messages st) → ref m < next_ref st.
Proof. unfold wf. rewrite Forall_forall. auto. Qed.

(** A reaction handler: an optimistic update, then possibly a rollback to
    the captured messages, which were allocated before the call. *)
Lemma reaction_handler_wf (messages0 : list MsgObj) messageId updater ev text st :
  wf st →
  Forall (λ m, ref m < next_ref st) messages0 →
  (∀ st0 oldMessage,
     ref oldMessage < next_ref st0 →
     (∃ r st1, updater oldMessage st0 = (Done r, st1)
               ∧ next_ref st0 ≤ next_ref st1 ∧ ref r < next_ref st1)
     ∨ ∃ e, updater oldMessage st0 = (Threw e, st0)) →
  wf (exec (try_catch
              (st0 ← get;
               (if socket_connected st0 then mret tt
                else throw "Socket not connected");;
               updateSingleMessage messageId updater;;
               emit ev)
              (λ _,
               toast_error text;;
               updateSingleMessage messageId (rollback messages0 messageId)))
        st).
Proof.
  intros Hwf Hsnap Hupd.
  assert (Hroll : ∀ st2, wf st2 → next_ref st ≤ next_ref st2 →
            wf (exec (toast_error text;;
                      updateSingleMessage messageId
                        (rollback messages0 messageId)) st2)).
  { intros st2 Hwf2 Hle. unfold toast_error. eff.
    match goal with |- context [updateSingleMessage _ _ ?s] =>
      destruct (updateSingleMessage_wf s messageId
                  (rollback messages0 messageId)) as (Hw & _) end.
    - done.
    - intros oldMessage _. left. apply rollback_allocates. cbn.
      eapply Forall_impl; [exact Hsnap|]. cbn. intros m Hm. lia.
    - unfold exec in *.
      destruct (updateSingleMessage _ _ _) as [[[]|e] st3]; cbn in *; done. }
  unfold exec in *. unfold try_catch. eff.
  destruct (socket_connected st); eff; [|by apply Hroll].
  destruct (updateSingleMessage_wf st messageId updater Hwf)
    as (Hw & Hle).
  { intros oldMessage Hin. apply Hupd. by apply wf_found_in. }
  unfold exec in *.
  destruct (updateSingleMessage messageId updater st) as [[[]|e] st1];
    cbn in *; [|by apply Hroll].
  unfold emit. destruct (socketRef st1) as [s|]; [|by apply Hroll].
  destruct (emit_throws s); [by apply Hroll|done].
Qed.

Lemma handleReactionAdd_wf (messages0 : list MsgObj) currentUser messageId
    reaction st :
  wf st → Forall (λ m, ref m < next_ref st) messages0 →
  wf (exec (handleReactionAdd messages0 currentUser messageId reaction) st).
Proof.
  intros Hwf Hsnap. apply reaction_handler_wf; [done|done|].
  intros st0 oldMessage. apply add_reaction_allocates.
Qed.

Lemma handleReactionRemove_wf (messages0 : list MsgObj) currentUser messageId
    reaction st :
  wf st → Forall (λ m, ref m < next_ref st) messages0 →
  wf (exec (handleReactionRemove messages0 currentUser messageId reaction)
        st).
Proof.
  intros Hwf Hsnap. apply reaction_handler_wf; [done|done|].
  intros st0 oldMessage _. apply remove_reaction_allocates.
Qed.

Lemma mapE_mark_read_bound userId messageIds timestamp now l st :
  ∃ l' n,
    mapE (mark_read userId messageIds timestamp now) l st
      = (Done l', set_next_ref n st)
    ∧ next_ref st ≤ n
    ∧ (Forall (λ m, ref m < next_ref st) l → Forall (λ m, ref m < n) l').
Proof.
  revert st. induction l as [|msg l IH]; intros st.
  - exists [], (next_ref st). cbn. eff. split; [by destruct st|]. by split.
  - cbn [mapE]. eff. unfold mark_read at 1.
    destruct (negb (bool_decide (_id (val msg) ∈ messageIds))
              || already_read userId (val msg)) eqn:Hskip.
    + assert (Hsame : (if negb (bool_decide (_id (val msg) ∈ messageIds))
                       then mret msg
                       else if already_read userId (val msg) then mret msg
                            else alloc_obj
                                   (with_readers
                                      (Some (default [] (readers (val msg)) ++
                                             [{| r_userId := userId;
                                                 r__id := None;
                                                 readAt := or_now timestamp now |}]))
                                      (val msg))) st = (Done msg, st)).
      { destruct (negb _); [done|]. cbn in Hskip. by rewrite Hskip. }
      rewrite Hsame. destruct (IH st) as (l' & n & -> & Hle & Hall).
      exists (msg :: l'), n. split; [done|]. split; [done|].
      intros [Hm Hl]%Forall_cons. constructor; [lia|auto].
    + apply orb_false_iff in Hskip as [-> ->]. eff.
      destruct (IH (set_next_ref (S (next_ref st)) st))
        as (l' & n & -> & Hle & Hall). cbn in Hle.
      eexists (_ :: l'), n. split; [done|]. split; [lia|].
      intros [Hm Hl]%Forall_cons. constructor; [cbn; lia|].
      apply Hall. cbn. eapply Forall_impl; [exact Hl|]. cbn. lia.
Qed.

Lemma on_messagesRead_wf userId messageIds timestamp now st :
  wf st → wf (exec (on_messagesRead userId messageIds timestamp now) st).
Proof.
  intros Hwf. unfold on_messagesRead. eff.
  destruct (mountedRef st); cbn [negb]; [|done].
  destruct (mapE_mark_read_bound userId messageIds timestamp now
              (elems (messages st)) st) as (l' & n & -> & Hle & Hall).
  eff. apply wf_intro. eapply Forall_impl; [exact (Hall Hwf)|]. cbn. lia.
Qed.

Lemma mapE_alloc_obj_bound l st :
  ∃ objs n,
    mapE alloc_obj l st = (Done objs, set_next_ref n st)
    ∧ next_ref st ≤ n ∧ Forall (λ m, ref m < n) objs.
Proof.
  revert st. induction l as [|m l IH]; intros st.
  - exists [], (next_ref st). cbn. eff. split; [by destruct st|]. by split.
  - cbn [mapE]. eff.
    destruct (IH (set_next_ref (S (next_ref st)) st))
      as (objs & n & -> & Hle & Hall). cbn in Hle.
    eexists (_ :: objs), n. split; [done|]. split; [lia|].
    constructor; [cbn; lia|done].
Qed.

(** The de-duplication returns messages of its input. *)
Lemma map_set_values k v m x : x ∈ (map_set k v m).*2 → x = v ∨ x ∈ m.*2.
Proof.
  induction m as [|[k' v'] m IH]; cbn [map_set].
  - cbn. rewrite list_elem_of_singleton. auto.
  - case_bool_decide; cbn [fmap list_fmap snd];
      rewrite !elem_of_cons; intros [->|Hin]; auto.
    destruct (IH Hin); auto.
Qed.

Lemma dedupe_subseteq l x : x ∈ dedupe l → x ∈ l.
Proof.
  unfold dedupe.
  assert (Hgen : ∀ m,
    x ∈ (foldl (λ map msg, map_set (_id (val msg)) msg map) m l).*2 →
    x ∈ m.*2 ∨ x ∈ l).
  { induction l as [|y l IH]; intros m; cbn [foldl]; [auto|].
    intros [Hin|Hin]%IH; [|right; by constructor].
    apply map_set_values in Hin as [->|Hin]; [right; constructor|by left]. }
  intros [Hin|Hin]%Hgen; [|done]. by apply elem_of_nil in Hin.
Qed.

Lemma processMessages_wf loaded hasMore isInitialLoad st :
  wf st → Forall (λ m, ref m < next_ref st) loaded →
  wf (exec (processMessages (IsArray loaded) hasMore isInitialLoad) st).
Proof.
  intros Hwf Hloaded.
  destruct (filterE_accept loaded st) as (acc & S & Hf & _ & _ & _ & Hsub).
  unfold processMessages. eff. rewrite Hf. eff.
  assert (Hall : Forall (λ m, ref m < Datatypes.S (next_ref st))
                   (dedupe (js_sort (elems (messages st) ++ acc)))).
  { apply Forall_forall. intros x Hx%dedupe_subseteq.
    rewrite js_sort_perm in Hx. apply elem_of_app in Hx as [Hx|Hx].
    - pose proof (wf_found_in _ _ Hwf Hx). lia.
    - rewrite Forall_forall in Hloaded.
      pose proof (Hloaded x (elem_of_sublist _ _ _ Hx Hsub)). lia. }
  destruct isInitialLoad; eff; exact Hall.
Qed.

Lemma receive_field_bound f st :
  ∃ objs n,
    receive_field f st = (Done objs, set_next_ref n st)
    ∧ next_ref st ≤ n
    ∧ ∀ l, objs = IsArray l → Forall (λ m, ref m < n) l.
Proof.
  destruct f as [| |l]; cbn [receive_field].
  - exists Absent, (next_ref st). eff. split; [by destruct st|]. by split.
  - exists NotArray, (next_ref st). eff. split; [by destruct st|]. by split.
  - destruct (mapE_alloc_obj_bound l st) as (objs & n & Hmap & Hle & Hall).
    exists (IsArray objs), n. unfold mbind, Eff_bind. rewrite Hmap.
    split; [done|]. split; [done|].
    by intros ? [= <-].
Qed.

Lemma processMessages_field_wf f hasMore isInitialLoad st :
  wf st → (∀ l, f = IsArray l → Forall (λ m, ref m < next_ref st) l) →
  wf (exec (processMessages f hasMore isInitialLoad) st).
Proof.
  intros Hwf Hf. destruct f as [| |l]; [done|done|].
  apply processMessages_wf; auto.
Qed.

Lemma on_message_wf m st :
  wf st → ref m < next_ref st → wf (exec (on_message (Some m)) st).
Proof.
  intros Hwf Hm. unfold on_message. eff.
  destruct ((negb (mountedRef st) || messageProcessingRef st)
            || negb (truthy (_id (val m)))); [done|].
  destruct (seen st (_id (val m))); [done|].
  destruct (_id (val m)) as [i|]; cbn [mark_seen]; cbn.
  - destruct (existsb _ (elems (messages st))); eff; cbn; [done|].
    unfold wf in *. cbn. apply Forall_app. split.
    + eapply Forall_impl; [exact Hwf|]. cbn. lia.
    + repeat constructor. lia.
  - destruct (existsb _ (elems (messages st))); eff; cbn; [done|].
    unfold wf in *. cbn. apply Forall_app. split.
    + eapply Forall_impl; [exact Hwf|]. cbn. lia.
    + repeat constructor. lia.
Qed.

Lemma deliver_wf a st : wf st → wf (exec (deliver a) st).
Proof.
  intros Hwf. destruct a as [[m|]|loaded hasMore isInitialLoad].
  - rewrite deliver_live. apply on_message_wf; cbn; [|lia].
    unfold wf in *. cbn. eapply Forall_impl; [exact Hwf|]. cbn. lia.
  - done.
  - unfold deliver. eff.
    destruct (receive_field_bound loaded st) as (objs & n & -> & Hle & Hall).
    apply processMessages_field_wf; [|done].
    unfold wf in *. cbn. eapply Forall_impl; [exact Hwf|]. cbn. lia.
Qed.

Lemma handlePreviousMessages_wf (messages0 : list MsgObj) response st :
  wf st →
  (∀ l hasMore, response = RespObject (IsArray l) hasMore →
                Forall (λ m, ref m < next_ref st) l) →
  wf (exec (handlePreviousMessages messages0 response) st).
Proof.
  intros Hwf Hresp. unfold handlePreviousMessages, previousMessages_body. eff.
  destruct (negb (mountedRef st) || messageProcessingRef st); [done|].
  destruct response as [| |msgs hasMore]; eff; [done|done|].
  set (loadedMessages := match msgs with Absent => IsArray [] | f => f end).
  set (st1 := set_messageProcessingRef true st).
  pose proof (processMessages_field_wf loadedMessages hasMore
                (bool_decide (length messages0 = 0)) st1) as Hp.
  unfold exec in Hp.
  destruct (processMessages loadedMessages hasMore _ st1) as [[[]|e] st2];
    cbn in *; apply Hp; try done;
    intros l Hl; subst loadedMessages; destruct msgs; simplify_eq;
    try constructor; by eapply Hresp.
Qed.

Lemma settle_wf reason st : wf st → wf (exec (settle reason) st).
Proof.
  intros Hwf. unfold settle, resetMessages. eff.
  destruct (bool_decide (reason = "MANUAL") && mountedRef st).
  - eff.
    match goal with |- context [clear_user_rooms ?s] =>
      destruct (clear_user_rooms_frame s) as (u & ->) end.
    constructor.
  - by destruct (bool_decide (reason = "DISCONNECT") && mountedRef st).
Qed.

Lemma cleanup_wf reason st : wf st → wf (exec (cleanup reason) st).
Proof.
  intros Hwf. unfold cleanup.
  set (r := match reason with Some r => r | None => "MANUAL" end).
  eff. destruct (negb (mountedRef st) || negb (truthy (roomId st))); [done|].
  assert (Hbody : wf (cleanup_body r st).2).
  { unfold cleanup_body. eff.
    destruct (cleanupInProgressRef st); [done|].
    destruct (leave_room_frame (set_cleanupInProgressRef true st))
      as (res & sock & ->).
    destruct res as [[]|e]; [|done].
    destruct (detach_unless_reconnect_frame r
                (set_socketRef sock (set_cleanupInProgressRef true st)))
      as (sock' & ->).
    destruct (cancel_load_more_frame
                (set_socketRef sock'
                   (set_socketRef sock (set_cleanupInProgressRef true st))))
      as (t & ->).
    by apply (settle_wf r). }
  destruct (cleanup_body r st) as [[[]|e] st1]; cbn [snd] in *; [done|].
  by destruct (mountedRef st1).
Qed.

Lemma receive_response_bound response st :
  ∃ r n,
    receive_response response st = (Done r, set_next_ref n st)
    ∧ next_ref st ≤ n
    ∧ ∀ l hasMore, r = RespObject (IsArray l) hasMore →
                   Forall (λ m, ref m < n) l.
Proof.
  destruct response as [| |msgs hasMore]; cbn [receive_response].
  - exists RespFalsy, (next_ref st). eff. split; [by destruct st|]. by split.
  - exists RespPrimitive, (next_ref st). eff.
    split; [by destruct st|]. by split.
  - destruct (receive_field_bound msgs st) as (objs & n & Hf & Hle & Hall).
    exists (RespObject objs hasMore), n. unfold mbind, Eff_bind. rewrite Hf.
    split; [done|]. split; [done|]. intros l ? [= -> _]. by apply Hall.
Qed.

(* ===================================================================== *)
(** ** Valid dates *)
(* ===================================================================== *)

(** Admissions that bring valid dates leave a store of valid dates. *)
Lemma processMessages_dated loaded hasMore isInitialLoad st :
  dated_store st → Forall (λ m, dated (val m)) loaded →
  dated_store (exec (processMessages (IsArray loaded) hasMore isInitialLoad)
                 st).
Proof.
  intros Hst Hloaded.
  destruct (processMessages_store loaded hasMore isInitialLoad st)
    as (acc & st' & Hrun & Hel & _ & _ & _ & Hsub & _).
  unfold exec, dated_store in *. rewrite Hrun. cbn [snd]. rewrite Hel.
  apply Forall_forall. intros x Hx%dedupe_subseteq.
  rewrite js_sort_perm in Hx. apply elem_of_app in Hx as [Hx|Hx].
  - rewrite Forall_forall in Hst. by apply Hst.
  - rewrite Forall_forall in Hloaded.
    by apply Hloaded, (elem_of_sublist _ _ _ Hx Hsub).
Qed.

Lemma deliver_dated a st :
  dated_admission a → dated_store st → dated_store (exec (deliver a) st).
Proof.
  intros Ha Hst. destruct a as [[m|]|loaded hasMore isInitialLoad].
  - rewrite deliver_live.
    destruct (on_message_store {| ref := next_ref st; val := m |}
                (set_next_ref (S (next_ref st)) st))
      as [_ [Heq|(Heq & _)]]; unfold dated_store; rewrite Heq; [done|].
    apply Forall_app. split; [done|]. by repeat constructor.
  - done.
  - destruct loaded as [| |loaded]; [done|done|].
    destruct (deliver_batch loaded hasMore isInitialLoad st)
      as (objs & n & Hval & ->).
    apply processMessages_dated; [done|].
    cbn in Ha. rewrite <- Hval, Forall_fmap in Ha. exact Ha.
Qed.

Lemma run_dated h st :
  Forall dated_admission h → dated_store st → dated_store (run h st).
Proof.
  intros Hh. revert st. induction Hh as [|a h Ha _ IH]; intros st Hst; [done|].
  cbn. by apply IH, deliver_dated.
Qed.

(* ===================================================================== *)
(** ** Handlers run to completion *)
(* ===================================================================== *)

(** No handler writes [mountedRef], and [messageProcessingRef] is set only
    inside [handlePreviousMessages], whose [finally] block resets it: a
    hook that is not unmounted is idle between two events. *)

Section keeps.
Context (P : State → Prop).

Lemma keeps_ret {A} (a : A) : keeps P (mret a).
Proof. by intros st. Qed.

Lemma keeps_throw {A} e : keeps P (@throw A e).
Proof. by intros st. Qed.

Lemma keeps_bind {A B} (m : Eff A) (f : A → Eff B) :
  keeps P m → (∀ a, keeps P (f a)) → keeps P (m ≫= f).
Proof.
  intros Hm Hf st HP. specialize (Hm st HP). unfold exec in *.
  unfold mbind, Eff_bind. destruct (m st) as [[a|e] st1]; cbn [snd] in *.
  - by apply Hf.
  - done.
Qed.

Lemma keeps_get {A} (f : State → Eff A) :
  (∀ st, P st → P (exec (f st) st)) → keeps P (get ≫= f).
Proof. intros Hf st HP. by apply Hf. Qed.

Lemma keeps_modify (f : State → State) :
  (∀ st, P st → P (f st)) → keeps P (modify f).
Proof. intros Hf st HP. by apply Hf. Qed.

Lemma keeps_try_catch {A} (body : Eff A) handler :
  keeps P body → (∀ e, keeps P (handler e)) → keeps P (try_catch body handler).
Proof.
  intros Hb Hh st HP. specialize (Hb st HP). unfold exec, try_catch in *.
  destruct (body st) as [[a|e] st1]; cbn [snd] in *; [done|].
  by apply Hh.
Qed.

Lemma keeps_try_finally {A} (body : Eff A) fin :
  keeps P body → (∀ st, P st → P (fin st)) →
  keeps P (try_finally body fin).
Proof.
  intros Hb Hf st HP. specialize (Hb st HP). unfold exec, try_finally in *.
  destruct (body st) as [r st1]. by apply Hf.
Qed.

Lemma keeps_filterE {A} (p : A → Eff bool) l :
  (∀ x, keeps P (p x)) → keeps P (filterE p l).
Proof.
  intros Hp. induction l as [|x l IH]; cbn [filterE].
  - apply keeps_ret.
  - apply keeps_bind; [done|]. intros b.
    apply keeps_bind; [done|]. intros r. apply keeps_ret.
Qed.

Lemma keeps_mapE {A B} (f : A → Eff B) l :
  (∀ x, keeps P (f x)) → keeps P (mapE f l).
Proof.
  intros Hf. induction l as [|x l IH]; cbn [mapE].
  - apply keeps_ret.
  - apply keeps_bind; [done|]. intros y.
    apply keeps_bind; [done|]. intros r. apply keeps_ret.
Qed.
End keeps.

(** The two flags are not touched by allocation, by the store, by the
    seen ids, by toasts or by the socket. *)

Section phase.
Context (busy : bool).

Lemma keeps_phase_alloc_obj v : keeps (phase busy) (alloc_obj v).
Proof. by intros st. Qed.

Lemma keeps_phase_alloc_arr l : keeps (phase busy) (alloc_arr l).
Proof. by intros st. Qed.

Lemma keeps_phase_setMessages updater :
  (∀ prev, keeps (phase busy) (updater prev)) → keeps (phase busy) (setMessages updater).
Proof.
  intros Hu. unfold setMessages. apply keeps_get. intros st Hst.
  apply (keeps_bind (phase busy)); [apply Hu| |done].
  intros new. by apply keeps_modify.
Qed.

Lemma keeps_phase_emit ev : keeps (phase busy) (emit ev).
Proof. intros st Hst. unfold exec, emit. by repeat case_match. Qed.

Lemma keeps_phase_updateSingleMessage messageId updater :
  (∀ m, keeps (phase busy) (updater m)) →
  keeps (phase busy) (updateSingleMessage messageId updater).
Proof.
  intros Hu. unfold updateSingleMessage. apply keeps_phase_setMessages.
  intros prev. destruct (list_find _ _) as [[index oldMessage]|];
    [|apply keeps_ret].
  apply keeps_bind; [apply Hu|]. intros r.
  destruct (strict_eq r oldMessage);
    [apply keeps_ret|apply keeps_phase_alloc_arr].
Qed.

Lemma keeps_phase_rollback (messages0 : list MsgObj) messageId m :
  keeps (phase busy) (rollback messages0 messageId m).
Proof.
  unfold rollback. destruct (list_find _ _) as [[? ?]|];
    [apply keeps_ret|apply keeps_phase_alloc_obj].
Qed.

Lemma keeps_phase_reaction_handler (messages0 : list MsgObj) messageId updater
    ev text :
  (∀ m, keeps (phase busy) (updater m)) →
  keeps (phase busy)
    (try_catch
       (st0 ← get;
        (if socket_connected st0 then mret tt
         else throw "Socket not connected");;
        updateSingleMessage messageId updater;;
        emit ev)
       (λ _,
        toast_error text;;
        updateSingleMessage messageId (rollback messages0 messageId))).
Proof.
  intros Hu. apply keeps_try_catch.
  - apply keeps_get. intros st Hst.
    apply (keeps_bind (phase busy)); [| |done].
    + destruct (socket_connected st); [apply keeps_ret|apply keeps_throw].
    + intros _. apply keeps_bind.
      * by apply keeps_phase_updateSingleMessage.
      * intros _. apply keeps_phase_emit.
  - intros _. apply keeps_bind.
    + by apply keeps_modify.
    + intros _. apply keeps_phase_updateSingleMessage.
      apply keeps_phase_rollback.
Qed.

Lemma keeps_phase_processMessages loaded hasMore isInitialLoad :
  keeps (phase busy) (processMessages loaded hasMore isInitialLoad).
Proof.
  unfold processMessages. destruct loaded as [| |l];
    [apply keeps_throw|apply keeps_throw|].
  apply keeps_bind.
  - apply keeps_phase_setMessages. intros prev. apply keeps_bind.
    + apply keeps_filterE. intros x. unfold accept.
      destruct (negb _); [apply keeps_ret|].
      apply keeps_get. intros st Hst.
      destruct (seen st _); [done|]. unfold exec. eff.
      unfold phase, mark_seen in *. by destruct (_id (val x)).
    + intros newMessages. apply keeps_phase_alloc_arr.
  - intros _. apply keeps_bind; [by apply keeps_modify|].
    intros _. destruct isInitialLoad; [by apply keeps_modify|apply keeps_ret].
Qed.

Lemma keeps_phase_on_message message : keeps (phase busy) (on_message message).
Proof.
  unfold on_message. apply keeps_get. intros st Hst.
  destruct message as [m|]; [|done].
  destruct (_ || _); [done|]. destruct (seen st _); [done|].
  apply (keeps_bind (phase busy)); [| |done].
  - apply keeps_modify. intros s Hs. unfold phase, mark_seen in *.
    by destruct (_id (val m)).
  - intros _. apply keeps_phase_setMessages. intros prev.
    destruct (existsb _ _); [apply keeps_ret|apply keeps_phase_alloc_arr].
Qed.

Lemma keeps_phase_receive_field f : keeps (phase busy) (receive_field f).
Proof.
  destruct f as [| |l]; cbn [receive_field]; try apply keeps_ret.
  apply keeps_bind; [|intros; apply keeps_ret].
  apply keeps_mapE. apply keeps_phase_alloc_obj.
Qed.

Lemma keeps_phase_deliver a : keeps (phase busy) (deliver a).
Proof.
  destruct a as [[m|]|loaded hasMore isInitialLoad]; cbn [deliver].
  - apply keeps_bind; [apply keeps_phase_alloc_obj|].
    intros o. apply keeps_phase_on_message.
  - apply keeps_phase_on_message.
  - apply keeps_bind; [apply keeps_phase_receive_field|].
    intros objs. apply keeps_phase_processMessages.
Qed.
End phase.

Lemma keeps_mounted {A} (m : Eff A) :
  (∀ busy, keeps (phase busy) m) → keeps (λ st, mountedRef st = true) m.
Proof.
  intros Hm st Hst.
  by destruct (Hm (messageProcessingRef st) st (conj Hst eq_refl)).
Qed.

(** Whatever happens in its [try] block, [handlePreviousMessages]
    returns idle. *)
Lemma handlePreviousMessages_idle (messages0 : list MsgObj) response :
  keeps idle (handlePreviousMessages messages0 response).
Proof.
  intros st [Hm Hp]. unfold handlePreviousMessages.
  unfold exec, mbind at 1, Eff_bind at 1, get. rewrite Hm, Hp. cbn [negb orb].
  assert (Hbody : keeps (λ st, mountedRef st = true)
                    (try_catch (previousMessages_body messages0 response)
                       (λ _,
                        modify (set_loadingMessages false);;
                        modify (set_error (Some "메시지 처리 중 오류가 발생했습니다."));;
                        modify (set_hasMoreMessages (Some false))))).
  { apply keeps_try_catch.
    - unfold previousMessages_body.
      apply keeps_bind; [by apply keeps_modify|]. intros _.
      destruct response as [| |msgs hasMore]; try apply keeps_throw.
      apply keeps_bind; [|intros _; by apply keeps_modify].
      apply keeps_mounted. intros busy. apply keeps_phase_processMessages.
    - intros _. apply keeps_bind; [by apply keeps_modify|]. intros _.
      apply keeps_bind; [by apply keeps_modify|]. intros _.
      by apply keeps_modify. }
  specialize (Hbody st Hm). unfold exec, try_finally in *.
  destruct (try_catch _ _ st) as [r st1]. by split.
Qed.

Lemma settle_idle reason : keeps idle (settle reason).
Proof.
  unfold settle, resetMessages. apply keeps_get. intros st Hst.
  destruct (bool_decide (reason = "MANUAL") && mountedRef st).
  - unfold exec. eff.
    match goal with |- context [clear_user_rooms ?s] =>
      by destruct (clear_user_rooms_frame s) as (u & ->) end.
  - by destruct (bool_decide (reason = "DISCONNECT") && mountedRef st).
Qed.

Lemma cleanup_idle reason : keeps idle (cleanup reason).
Proof.
  unfold cleanup. apply keeps_get. intros st Hst.
  destruct (_ || _); [done|].
  apply (keeps_try_finally idle); [|done|done].
  apply keeps_try_catch.
  - unfold cleanup_body. apply keeps_get. intros s Hs.
    destruct (cleanupInProgressRef s); [done|].
    apply (keeps_bind idle); [by apply keeps_modify| |done].
    intros _. apply keeps_bind.
    { unfold leave_room. apply keeps_get. intros s1 Hs1.
      destruct (roomId s1); [|done].
      destruct (_ && _); [by apply keeps_phase_emit|done]. }
    intros _. apply keeps_bind.
    { apply keeps_modify. intros s1 Hs1.
      by destruct (detach_unless_reconnect_frame
                     (match reason with Some r => r | None => "MANUAL" end) s1)
        as (sock & ->). }
    intros _. apply keeps_bind.
    { apply keeps_modify. intros s1 Hs1.
      by destruct (cancel_load_more_frame s1) as (t & ->). }
    intros _. apply keeps_bind; [by apply keeps_modify|].
    intros _. apply keeps_bind; [by apply keeps_modify|].
    intros _. apply keeps_bind; [apply keeps_modify; by intros ? [? ?]|].
    intros _. apply settle_idle.
  - intros _. apply keeps_get. intros s Hs.
    by destruct (mountedRef s).
Qed.

Lemma handle_idle renders ev : keeps idle (handle renders ev).
Proof.
  destruct ev; cbn [handle].
  - apply keeps_phase_deliver.
  - apply keeps_bind.
    + destruct response as [| |msgs hasMore]; cbn [receive_response];
        try apply keeps_ret.
      apply keeps_bind; [apply keeps_phase_receive_field|].
      intros; apply keeps_ret.
    + intros r. apply handlePreviousMessages_idle.
  - unfold on_messagesRead. apply keeps_get. intros st Hst.
    destruct (negb _); [done|].
    apply keeps_phase_setMessages; [|done]. intros prev.
    apply keeps_bind; [|intros; apply keeps_phase_alloc_arr].
    apply keeps_mapE. intros x. unfold mark_read.
    destruct (negb _); [apply keeps_ret|].
    destruct (already_read _ _); [apply keeps_ret|apply keeps_phase_alloc_obj].
  - unfold on_messageReactionUpdate. apply keeps_get. intros st Hst.
    destruct (negb _); [done|].
    apply keeps_phase_updateSingleMessage; [|done].
    intros m. apply keeps_phase_alloc_obj.
  - apply keeps_phase_reaction_handler.
    intros m. unfold add_reaction.
    destruct (or_empty _); [|apply keeps_throw..].
    case_match; [apply keeps_ret|apply keeps_phase_alloc_obj].
  - apply keeps_phase_reaction_handler.
    intros m. unfold remove_reaction.
    destruct (or_empty _); [|apply keeps_throw..].
    apply keeps_phase_alloc_obj.
  - apply cleanup_idle.
Qed.

(** What every handler keeps holds after every sequence of events. *)
Lemma after_renders_keeps (P : State → Prop) renders evs st :
  (∀ renders ev, keeps P (handle renders ev)) →
  P st → P (after_renders renders evs st).
Proof.
  intros Hk. revert renders st.
  induction evs as [|ev evs IH]; intros renders st HP; [done|].
  cbn [after_renders]. by apply IH, Hk.
Qed.

(** Between two events the hook is mounted and idle. *)
Lemma idle_after evs room sock : idle (after evs (initial room sock)).
Proof. unfold after. apply after_renders_keeps; [apply handle_idle|done]. Qed.

(** A property of the state that an allocation keeps, and that does not
    depend on the store, the toasts, the outbox, the seen ids and the
    flags of a batch, is kept by every handler but [cleanup]. *)
Section quiet.
Context (P : State → Prop).
Hypothesis P_alloc : ∀ st, P st → P (set_next_ref (S (next_ref st)) st).
Hypothesis P_messages : ∀ a st, P st → P (set_messages a st).
Hypothesis P_toasts : ∀ t st, P st → P (set_toasts t st).
Hypothesis P_sent : ∀ ev s st,
  socketRef st = Some s → P st → P (set_socketRef (Some (sent ev s)) st).
Hypothesis P_seen : ∀ S st, P st → P (set_processedMessageIds S st).
Hypothesis P_hasMore : ∀ h st, P st → P (set_hasMoreMessages h st).
Hypothesis P_latch : ∀ b st, P st → P (set_initialLoadCompletedRef b st).
Hypothesis P_loadingMessages : ∀ b st, P st → P (set_loadingMessages b st).
Hypothesis P_processing : ∀ b st, P st → P (set_messageProcessingRef b st).
Hypothesis P_batch_error : ∀ st,
  P st → P (set_error (Some "메시지 처리 중 오류가 발생했습니다.") st).

Lemma quiet_alloc_obj v : keeps P (alloc_obj v).
Proof using P_alloc. intros st HP. by apply P_alloc. Qed.

Lemma quiet_alloc_arr l : keeps P (alloc_arr l).
Proof using P_alloc. intros st HP. by apply P_alloc. Qed.

Lemma quiet_setMessages updater :
  (∀ prev, keeps P (updater prev)) → keeps P (setMessages updater).
Proof using P_messages.
  intros Hu. unfold setMessages. apply keeps_get. intros st Hst.
  apply (keeps_bind P); [apply Hu| |done].
  intros new. apply keeps_modify. intros. by apply P_messages.
Qed.

Lemma quiet_emit ev : keeps P (emit ev).
Proof using P_sent.
  intros st HP. unfold exec, emit.
  destruct (socketRef st) as [s|] eqn:Hs; [|done].
  destruct (emit_throws s) eqn:He; [done|]. cbn [snd].
  pose proof (P_sent ev s st Hs HP) as H. unfold sent in H.
  by rewrite He in H.
Qed.

Lemma quiet_updateSingleMessage messageId updater :
  (∀ m, keeps P (updater m)) →
  keeps P (updateSingleMessage messageId updater).
Proof using P_alloc P_messages.
  intros Hu. unfold updateSingleMessage. apply quiet_setMessages.
  intros prev. destruct (list_find _ _) as [[index oldMessage]|];
    [|apply keeps_ret].
  apply keeps_bind; [apply Hu|]. intros r.
  destruct (strict_eq r oldMessage); [apply keeps_ret|apply quiet_alloc_arr].
Qed.

Lemma quiet_reaction_handler (messages0 : list MsgObj) messageId updater
    ev text :
  (∀ m, keeps P (updater m)) →
  keeps P
    (try_catch
       (st0 ← get;
        (if socket_connected st0 then mret tt
         else throw "Socket not connected");;
        updateSingleMessage messageId updater;;
        emit ev)
       (λ _,
        toast_error text;;
        updateSingleMessage messageId (rollback messages0 messageId))).
Proof using P_alloc P_messages P_toasts P_sent.
  intros Hu. apply keeps_try_catch.
  - apply keeps_get. intros st Hst.
    apply (keeps_bind P); [| |done].
    + destruct (socket_connected st); [apply keeps_ret|apply keeps_throw].
    + intros _. apply keeps_bind.
      * by apply quiet_updateSingleMessage.
      * intros _. apply quiet_emit.
  - intros _. apply keeps_bind.
    + apply keeps_modify. intros. by apply P_toasts.
    + intros _. apply quiet_updateSingleMessage. intros m.
      unfold rollback. destruct (list_find _ _) as [[? ?]|];
        [apply keeps_ret|apply quiet_alloc_obj].
Qed.

Lemma quiet_mark_seen id st : P st → P (mark_seen id st).
Proof using P_seen. intros HP. destruct id; [by apply P_seen|done]. Qed.

Lemma quiet_processMessages loaded hasMore isInitialLoad :
  keeps P (processMessages loaded hasMore isInitialLoad).
Proof using P_alloc P_messages P_seen P_hasMore P_latch.
  unfold processMessages. destruct loaded as [| |l];
    [apply keeps_throw|apply keeps_throw|].
  apply keeps_bind.
  - apply quiet_setMessages. intros prev. apply keeps_bind.
    + apply keeps_filterE. intros x. unfold accept.
      destruct (negb _); [apply keeps_ret|].
      apply keeps_get. intros st Hst.
      destruct (seen st _); [done|]. unfold exec. eff.
      by apply quiet_mark_seen.
    + intros newMessages. apply quiet_alloc_arr.
  - intros _. apply keeps_bind.
    + apply keeps_modify. intros. by apply P_hasMore.
    + intros _. destruct isInitialLoad; [|apply keeps_ret].
      apply keeps_modify. intros. by apply P_latch.
Qed.

Lemma quiet_on_message message : keeps P (on_message message).
Proof using P_alloc P_messages P_seen.
  unfold on_message. apply keeps_get. intros st Hst.
  destruct message as [m|]; [|done].
  destruct (_ || _); [done|]. destruct (seen st _); [done|].
  apply (keeps_bind P); [| |done].
  - apply keeps_modify. intros. by apply quiet_mark_seen.
  - intros _. apply quiet_setMessages. intros prev.
    destruct (existsb _ _); [apply keeps_ret|apply quiet_alloc_arr].
Qed.

Lemma quiet_receive_field f : keeps P (receive_field f).
Proof using P_alloc.
  destruct f as [| |l]; cbn [receive_field]; try apply keeps_ret.
  apply keeps_bind; [|intros; apply keeps_ret].
  apply keeps_mapE. apply quiet_alloc_obj.
Qed.

Lemma quiet_deliver a : keeps P (deliver a).
Proof using P_alloc P_messages P_seen P_hasMore P_latch.
  destruct a as [[m|]|loaded hasMore isInitialLoad]; cbn [deliver].
  - apply keeps_bind; [apply quiet_alloc_obj|].
    intros o. apply quiet_on_message.
  - apply quiet_on_message.
  - apply keeps_bind; [apply quiet_receive_field|].
    intros objs. apply quiet_processMessages.
Qed.

Lemma quiet_handlePreviousMessages (messages0 : list MsgObj) response :
  keeps P (handlePreviousMessages messages0 response).
Proof using All.
  unfold handlePreviousMessages. apply keeps_get. intros st Hst.
  destruct (_ || _); [done|].
  apply (keeps_try_finally P); [| |done].
  - apply keeps_try_catch.
    + unfold previousMessages_body.
      apply keeps_bind; [apply keeps_modify; intros; by apply P_processing|].
      intros _. destruct response as [| |msgs hasMore]; try apply keeps_throw.
      apply keeps_bind; [apply quiet_processMessages|].
      intros _. apply keeps_modify. intros. by apply P_loadingMessages.
    + intros _.
      apply keeps_bind;
        [apply keeps_modify; intros; by apply P_loadingMessages|].
      intros _.
      apply keeps_bind; [apply keeps_modify; intros; by apply P_batch_error|].
      intros _. apply keeps_modify. intros. by apply P_hasMore.
  - intros. by apply P_processing.
Qed.

Lemma quiet_handle renders ev :
  is_cleanup ev = false → keeps P (handle renders ev).
Proof using All.
  intros Hev.
  destruct ev as [a|age response|userId messageIds timestamp0 now|data
                 |age currentUser messageId reaction
                 |age currentUser messageId reaction
                 |reason]; cbn [handle]; [| | | | | |done].
  - apply quiet_deliver.
  - apply keeps_bind.
    + destruct response as [| |msgs hasMore]; cbn [receive_response];
        try apply keeps_ret.
      apply keeps_bind; [apply quiet_receive_field|].
      intros; apply keeps_ret.
    + intros r. apply quiet_handlePreviousMessages.
  - unfold on_messagesRead. apply keeps_get. intros st Hst.
    destruct (negb _); [done|].
    apply quiet_setMessages; [|done]. intros prev.
    apply keeps_bind; [|intros; apply quiet_alloc_arr].
    apply keeps_mapE. intros x. unfold mark_read.
    destruct (negb _); [apply keeps_ret|].
    destruct (already_read _ _); [apply keeps_ret|apply quiet_alloc_obj].
  - unfold on_messageReactionUpdate. apply keeps_get. intros st Hst.
    destruct (negb _); [done|].
    apply quiet_updateSingleMessage; [|done].
    intros m. apply quiet_alloc_obj.
  - apply quiet_reaction_handler.
    intros m. unfold add_reaction.
    destruct (or_empty _); [|apply keeps_throw..].
    case_match; [apply keeps_ret|apply quiet_alloc_obj].
  - apply quiet_reaction_handler.
    intros m. unfold remove_reaction.
    destruct (or_empty _); [|apply keeps_throw..].
    apply quiet_alloc_obj.
Qed.

Lemma quiet_after_renders renders evs st :
  Forall (λ ev, is_cleanup ev = false) evs →
  P st → P (after_renders renders evs st).
Proof using All.
  intros Hevs. revert renders st.
  induction Hevs as [|ev evs Hev _ IH]; [done|].
  intros renders st HP. cbn [after_renders]. apply IH. by apply quiet_handle.
Qed.

Lemma quiet_after evs st :
  Forall (λ ev, is_cleanup ev = false) evs → P st → P (after evs st).
Proof using All. unfold after. apply quiet_after_renders. Qed.
End quiet.

(** The allocator only moves forward. *)
Lemma settle_allocator n reason : keeps (allocator_past n) (settle reason).
Proof.
  unfold settle, resetMessages. apply keeps_get. intros st Hst.
  destruct (bool_decide (reason = "MANUAL") && mountedRef st).
  - unfold exec. eff.
    match goal with |- context [clear_user_rooms ?s] =>
      destruct (clear_user_rooms_frame s) as (u & ->) end.
    unfold allocator_past in *. cbn. lia.
  - by destruct (bool_decide (reason = "DISCONNECT") && mountedRef st).
Qed.

Lemma cleanup_allocator n reason : keeps (allocator_past n) (cleanup reason).
Proof.
  unfold cleanup. apply keeps_get. intros st Hst.
  destruct (_ || _); [done|].
  apply (keeps_try_finally (allocator_past n)); [|done|done].
  apply keeps_try_catch.
  - unfold cleanup_body. apply keeps_get. intros s Hs.
    destruct (cleanupInProgressRef s); [done|].
    apply (keeps_bind (allocator_past n)); [by apply keeps_modify| |done].
    intros _. apply keeps_bind.
    { intros s1 Hs1. unfold exec.
      by destruct (leave_room_frame s1) as (r & sock & ->). }
    intros _. apply keeps_bind.
    { apply keeps_modify. intros s1 Hs1.
      by destruct (detach_unless_reconnect_frame
                     (match reason with Some r => r | None => "MANUAL" end) s1)
        as (sock & ->). }
    intros _. apply keeps_bind.
    { apply keeps_modify. intros s1 Hs1.
      by destruct (cancel_load_more_frame s1) as (t & ->). }
    intros _. apply keeps_bind; [by apply keeps_modify|].
    intros _. apply keeps_bind; [by apply keeps_modify|].
    intros _. apply keeps_bind; [by apply keeps_modify|].
    intros _. apply settle_allocator.
  - intros _. apply keeps_get. intros s Hs.
    by destruct (mountedRef s).
Qed.

Lemma handle_allocator n renders ev :
  keeps (allocator_past n) (handle renders ev).
Proof.
  destruct (is_cleanup ev) eqn:Hev.
  - destruct ev; try done. apply cleanup_allocator.
  - apply quiet_handle; try done; unfold allocator_past; cbn; intros; lia.
Qed.

Lemma handle_next_ref renders ev st :
  next_ref st ≤ next_ref (exec (handle renders ev) st).
Proof. exact (handle_allocator (next_ref st) renders ev st (le_n _)). Qed.

Lemma rendered_bound renders age n :
  Forall (Forall (λ m : MsgObj, ref m < n)) renders →
  Forall (λ m, ref m < n) (rendered renders age).
Proof.
  intros Hall. unfold rendered.
  destruct (renders !! age) as [l|] eqn:Hl; [|constructor].
  rewrite Forall_lookup in Hall. by eapply Hall.
Qed.

(** Every handler keeps the allocator invariant, when the stores that
    its closure may hold were allocated before. *)
Lemma handle_wf renders ev st :
  wf st → Forall (Forall (λ m, ref m < next_ref st)) renders →
  wf (exec (handle renders ev) st).
Proof.
  intros Hwf Hrenders. destruct ev; cbn [handle].
  - by apply deliver_wf.
  - unfold exec. unfold mbind, Eff_bind.
    destruct (receive_response_bound response st)
      as (r & n & -> & Hle & Hall).
    apply handlePreviousMessages_wf; [|done].
    unfold wf in *. cbn. eapply Forall_impl; [exact Hwf|]. cbn. lia.
  - by apply on_messagesRead_wf.
  - unfold on_messageReactionUpdate. eff.
    destruct (mountedRef st); cbn [negb]; [|done].
    by apply handleReactionUpdate_wf.
  - apply handleReactionAdd_wf; [done|by apply rendered_bound].
  - apply handleReactionRemove_wf; [done|by apply rendered_bound].
  - by apply cleanup_wf.
Qed.

Lemma wf_after_renders renders evs st :
  wf st → Forall (Forall (λ m, ref m < next_ref st)) renders →
  wf (after_renders renders evs st).
Proof.
  revert renders st.
  induction evs as [|ev evs IH]; intros renders st Hwf Hrenders; [done|].
  cbn [after_renders].
  assert (Hall : Forall (Forall (λ m, ref m < next_ref st))
                   (elems (messages st) :: renders)) by (by constructor).
  apply IH; [by apply handle_wf|].
  pose proof (handle_next_ref (elems (messages st) :: renders) ev st) as Hle.
  eapply Forall_impl; [exact Hall|]. cbn. intros l Hl.
  eapply Forall_impl; [exact Hl|]. cbn. intros m Hm. lia.
Qed.

(** The invariant holds in every state the hook can reach. *)
Lemma wf_after evs room sock : wf (after evs (initial room sock)).
Proof.
  unfold after. apply wf_after_renders; [apply wf_initial|constructor].
Qed.

(* ===================================================================== *)
(** ** The reaction handlers *)
(* ===================================================================== *)

Lemma or_empty_plain (r : gmap string (list string)) reaction :
  plain_key reaction →
  or_empty (get_property r reaction) = Own (default [] (r !! reaction)).
Proof.
  intros Hplain. unfold get_property.
  destruct (r !! reaction); [done|].
  by rewrite bool_decide_eq_false_2.
Qed.

Lemma add_reaction_spec currentUser reaction old st :
  plain_key reaction →
  add_reaction currentUser reaction old st
  = if bool_decide (currentUser ∈ users_of reaction (val old))
    then (Done old, st)
    else (Done {| ref := next_ref st;
                  val := with_reactions
                           (Some (<[reaction :=
                                      users_of reaction (val old)
                                      ++ [currentUser]]>
                                    (default ∅ (reactions (val old)))))
                           (val old) |},
          set_next_ref (S (next_ref st)) st).
Proof.
  intros Hplain. unfold add_reaction, users_of.
  rewrite (or_empty_plain _ _ Hplain). by case_bool_decide.
Qed.

Lemma remove_reaction_spec currentUser reaction old st :
  plain_key reaction →
  remove_reaction currentUser reaction old st
  = (Done {| ref := next_ref st;
             val := with_reactions
                      (Some (<[reaction :=
                                 filter (λ id, id ≠ currentUser)
                                   (users_of reaction (val old))]>
                               (default ∅ (reactions (val old)))))
                      (val old) |},
     set_next_ref (S (next_ref st)) st).
Proof.
  intros Hplain. unfold remove_reaction, users_of.
  by rewrite (or_empty_plain _ _ Hplain).
Qed.

Lemma add_reaction_reacts currentUser reaction :
  reacts (add_reaction currentUser reaction).
Proof.
  intros st old. unfold add_reaction.
  destruct (or_empty _); [|right; right; by eexists..].
  case_bool_decide; [by left|right; left; by eexists].
Qed.

Lemma remove_reaction_reacts currentUser reaction :
  reacts (remove_reaction currentUser reaction).
Proof.
  intros st old. unfold remove_reaction.
  destruct (or_empty _); [|right; right; by eexists..].
  right; left; by eexists.
Qed.

Lemma update_reacts x :
  reacts (λ msg, alloc_obj (with_reactions x (val msg))).
Proof. intros st old. right. left. by eexists. Qed.

(** [updateSingleMessage] with such an updater: nothing happens, or the
    located message is replaced, or the updater throws and nothing has
    happened. *)
Lemma updateSingleMessage_reacts st messageId updater :
  wf st → reacts updater →
  updateSingleMessage messageId updater st = (Done tt, st)
  ∨ (∃ i old x,
       list_find (λ m, _id (val m) = messageId) (elems (messages st))
         = Some (i, old)
       ∧ updater old st
         = (Done {| ref := next_ref st; val := with_reactions x (val old) |},
            set_next_ref (S (next_ref st)) st)
       ∧ updateSingleMessage messageId updater st
         = (Done tt, replaced_at i (with_reactions x (val old)) st))
  ∨ ∃ e, updateSingleMessage messageId updater st = (Threw e, st).
Proof.
  intros Hwf Hupd.
  destruct (list_find (λ m, _id (val m) = messageId) (elems (messages st)))
    as [[i old]|] eqn:Hfind.
  - destruct (Hupd st old) as [Hsame|[(x & Hnew)|(e & He)]].
    + left.
      rewrite (updateSingleMessage_same _ _ _ _ _ _ _ Hfind Hsame
                 (strict_eq_refl old)).
      by rewrite set_messages_same.
    + right. left. exists i, old, x. split; [done|]. split; [done|].
      rewrite (updateSingleMessage_replaced _ _ _ _ _ _ _ Hfind Hnew); [done|].
      apply strict_eq_fresh. by eapply wf_found.
    + right. right. exists e.
      by rewrite (updateSingleMessage_threw _ _ _ _ _ _ _ Hfind He).
  - left. by apply updateSingleMessage_not_found.
Qed.

Lemma stripped_insert (l : list MsgObj) (i : nat) old n x :
  l !! i = Some old →
  stripped <$> <[i := {| ref := n; val := with_reactions x (val old) |}]> l
  = stripped <$> l.
Proof.
  intros Hi. rewrite list_fmap_insert.
  apply list_insert_id. by rewrite list_lookup_fmap, Hi.
Qed.

(** A reaction handler whose closure holds the store of the moment: the
    optimistic update, the emit and, when the outbound path fails or the
    updater throws, the toast and the rollback, which puts the store
    back. *)
Lemma reaction_handler_outcome messageId updater ev text st :
  wf st → reacts updater →
  let h := try_catch
             (st0 ← get;
              (if socket_connected st0 then mret tt
               else throw "Socket not connected");;
              updateSingleMessage messageId updater;;
              emit ev)
             (λ _,
              toast_error text;;
              updateSingleMessage messageId
                (rollback (elems (messages st)) messageId)) in
  let rolled_back :=
    result h st = Done tt
    ∧ toasts (exec h st) = toasts st ++ [text]
    ∧ elems (messages (exec h st)) = elems (messages st)
    ∧ socketRef (exec h st) = socketRef st in
  if outbound_fails st then rolled_back
  else ∃ s,
         socketRef st = Some s
         ∧ match updateSingleMessage messageId updater st with
           | (Done _, st1) =>
               h st = (Done tt, set_socketRef (Some (sent ev s)) st1)
           | (Threw _, _) => rolled_back
           end.
Proof.
  intros Hwf Hupd h rolled_back. subst h rolled_back.
  assert (Hroll : ∀ st2,
    toasts st2 = toasts st → socketRef st2 = socketRef st →
    (∀ index oldMessage,
       list_find (λ m, _id (val m) = messageId) (elems (messages st))
         = Some (index, oldMessage) →
       ∃ cur, list_find (λ m, _id (val m) = messageId)
                (elems (messages st2)) = Some (index, cur)
              ∧ <[index := oldMessage]> (elems (messages st2))
                = elems (messages st)
              ∧ (cur = oldMessage ∨ strict_eq oldMessage cur = false)) →
    (list_find (λ m, _id (val m) = messageId) (elems (messages st)) = None →
     list_find (λ m, _id (val m) = messageId) (elems (messages st2)) = None
     ∧ elems (messages st2) = elems (messages st)) →
    let r := (toast_error text;;
              updateSingleMessage messageId
                (rollback (elems (messages st)) messageId)) st2 in
    r.1 = Done tt ∧ toasts r.2 = toasts st ++ [text]
    ∧ elems (messages r.2) = elems (messages st)
    ∧ socketRef r.2 = socketRef st).
  { intros st2 Ht Hs Hsome Hnone r. subst r. unfold toast_error. eff.
    set (st3 := set_toasts (toasts st2 ++ [text]) st2).
    destruct (rollback_after_failure st st3 messageId Hsome Hnone)
      as (Hres & Ht3 & Hel3).
    unfold result, exec in *. split; [done|].
    split; [by rewrite Ht3; subst st3; cbn; rewrite Ht|].
    split; [done|].
    assert (Hk : keeps (λ s, socketRef s = socketRef st)
                   (updateSingleMessage messageId
                      (rollback (elems (messages st)) messageId))).
    { apply quiet_updateSingleMessage; [done|done|].
      intros m. unfold rollback.
      destruct (list_find _ _) as [[? ?]|]; [apply keeps_ret|].
      by intros ? ?. }
    by apply (Hk st3). }
  assert (Hroll0 :
    let r := (toast_error text;;
              updateSingleMessage messageId
                (rollback (elems (messages st)) messageId)) st in
    r.1 = Done tt ∧ toasts r.2 = toasts st ++ [text]
    ∧ elems (messages r.2) = elems (messages st)
    ∧ socketRef r.2 = socketRef st).
  { apply Hroll; [done|done| |done].
    intros index oldMessage Hfind. exists oldMessage. split; [done|].
    split; [|by left]. apply list_insert_id.
    by apply list_find_Some in Hfind as (? & _). }
  unfold try_catch. eff.
  unfold outbound_fails, socket_connected.
  destruct (socketRef st) as [s|] eqn:Hs; [|exact Hroll0].
  destruct (connected s) eqn:Hc; cbn [negb orb]; eff; [|exact Hroll0].
  destruct (updateSingleMessage_reacts st messageId updater Hwf Hupd)
    as [Hrun|[(i & old & x & Hfind & _ & Hrun)|(e & Hrun)]]; rewrite Hrun.
  - eff. unfold emit. rewrite Hs.
    destruct (emit_throws s) eqn:He; [exact Hroll0|].
    exists s. split; [done|]. unfold sent. by rewrite He.
  - eff. unfold emit. cbn [socketRef replaced_at set_messages set_next_ref].
    rewrite Hs. destruct (emit_throws s) eqn:He.
    + apply Hroll; [done|done| |by rewrite Hfind].
      intros index oldMessage. rewrite Hfind. intros [= <- <-].
      pose proof Hfind as Hfind'.
      apply list_find_Some in Hfind' as (Hlook & Hid & _).
      eexists. unfold replaced_at. cbn [messages set_messages elems].
      split; [by eapply list_find_insert_found|]. split.
      * rewrite list_insert_insert_eq. by apply list_insert_id.
      * right. unfold strict_eq. cbn. apply Nat.eqb_neq.
        pose proof (wf_found _ _ _ _ Hwf Hfind). lia.
    + exists s. split; [done|]. unfold sent. by rewrite He.
  - eff. destruct (emit_throws s); [exact Hroll0|].
    exists s. split; [done|]. exact Hroll0.
Qed.

Lemma socket_ready_fails st s : socket_ready st s → outbound_fails st = false.
Proof. intros (Hs & Hc & He). unfold outbound_fails. by rewrite Hs, Hc, He. Qed.

(** Over a socket that takes the emit, and for a reaction that is no name
    of [Object.prototype], a call goes through, whatever the closure of
    the handler holds. *)
Lemma handleReactionAdd_sent (messages0 : list MsgObj) st s currentUser
    messageId reaction :
  wf st → socket_ready st s → plain_key reaction →
  handleReactionAdd messages0 currentUser messageId reaction st
  = (Done tt,
     set_socketRef (Some (sent (MessageReaction messageId reaction "add") s))
       (match list_find (λ m, _id (val m) = messageId) (elems (messages st))
        with
        | Some (i, m) =>
            if bool_decide (currentUser ∈ users_of reaction (val m)) then st
            else replaced_at i (reacted currentUser reaction (val m)) st
        | None => st
        end)).
Proof.
  intros Hwf (Hs & Hc & He) Hplain.
  unfold handleReactionAdd, try_catch. eff.
  unfold socket_connected. rewrite Hs, Hc. eff.
  destruct (list_find (λ m, _id (val m) = messageId) (elems (messages st)))
    as [[i m]|] eqn:Hfind.
  - pose proof (add_reaction_spec currentUser reaction m st Hplain) as Hspec.
    destruct (bool_decide (currentUser ∈ users_of reaction (val m))).
    + rewrite (updateSingleMessage_same _ _ _ _ _ _ _ Hfind Hspec
                 (strict_eq_refl m)).
      rewrite set_messages_same. eff. unfold emit, sent. by rewrite Hs, He.
    + rewrite (updateSingleMessage_replaced _ _ _ _ _ _ _ Hfind Hspec)
        by (apply strict_eq_fresh; by eapply wf_found).
      eff. unfold emit, sent. cbn [socketRef set_messages set_next_ref].
      by rewrite Hs, He.
  - rewrite (updateSingleMessage_not_found _ _ _ Hfind).
    eff. unfold emit, sent. by rewrite Hs, He.
Qed.

Lemma handleReactionRemove_sent (messages0 : list MsgObj) st s currentUser
    messageId reaction :
  wf st → socket_ready st s → plain_key reaction →
  handleReactionRemove messages0 currentUser messageId reaction st
  = (Done tt,
     set_socketRef
       (Some (sent (MessageReaction messageId reaction "remove") s))
       (match list_find (λ m, _id (val m) = messageId) (elems (messages st))
        with
        | Some (i, m) =>
            replaced_at i (unreacted currentUser reaction (val m)) st
        | None => st
        end)).
Proof.
  intros Hwf (Hs & Hc & He) Hplain.
  unfold handleReactionRemove, try_catch. eff.
  unfold socket_connected. rewrite Hs, Hc. eff.
  destruct (list_find (λ m, _id (val m) = messageId) (elems (messages st)))
    as [[i m]|] eqn:Hfind.
  - pose proof (remove_reaction_spec currentUser reaction m st Hplain)
      as Hspec.
    rewrite (updateSingleMessage_replaced _ _ _ _ _ _ _ Hfind Hspec)
      by (apply strict_eq_fresh; by eapply wf_found).
    eff. unfold emit, sent. cbn [socketRef set_messages set_next_ref].
    by rewrite Hs, He.
  - rewrite (updateSingleMessage_not_found _ _ _ Hfind).
    eff. unfold emit, sent. by rewrite Hs, He.
Qed.

(* ===================================================================== *)
(** ** The properties of the hooks *)
(* ===================================================================== *)

(** C1, as stated, fails: a live message with an earlier timestamp than
    the last stored one is appended behind it. *)
Lemma live_message_breaks_order :
  ¬ (∀ h, sorted_by_ts (elems (messages (run h (initial None None))))).
Proof.
  intros Hclaim.
  specialize (Hclaim [Live (Some (sample_message "a" 5));
                      Live (Some (sample_message "b" 2))]).
  apply StronglySorted_inv in Hclaim as [_ Hfirst].
  apply Forall_inv in Hfirst. vm_compute in Hfirst. by apply Hfirst.
Qed.

(** C1, amended.  In every state reached from the initial state by a
    history of admissions whose timestamps are within the range of
    [Date]: a history batch with such timestamps leaves the store sorted
    ascending by timestamp; it is the stable sort of the store followed
    by the newly accepted messages, so entries of one instant keep their
    order, stored ones first.  A live message is dropped or appended at
    the end, without a sort: the store is then sorted exactly when it was
    sorted before and no stored entry is later than the new message. *)
Theorem batch_sorts_live_appends room sock h :
  Forall dated_admission h →
  let st := run h (initial room sock) in
  (∀ loaded hasMore isInitialLoad,
     Forall dated loaded →
     let st' :=
       exec (deliver (Batch (IsArray loaded) hasMore isInitialLoad)) st in
     sorted_by_ts (elems (messages st'))
     ∧ ∃ newMessages,
         elems (messages st') = js_sort (elems (messages st) ++ newMessages)
         ∧ sublist (val <$> newMessages) loaded
         ∧ ∀ t, filter (λ m, ts m = t) (elems (messages st'))
                = filter (λ m, ts m = t) (elems (messages st) ++ newMessages))
  ∧ (∀ message,
       let st' := exec (deliver (Live message)) st in
       elems (messages st') = elems (messages st)
       ∨ ∃ o,
           message = Some (val o)
           ∧ elems (messages st') = elems (messages st) ++ [o]
           ∧ (sorted_by_ts (elems (messages st'))
              ↔ sorted_by_ts (elems (messages st))
                ∧ Forall (λ y, (ts y ≤ ts o)%Z) (elems (messages st)))).
Proof.
  intros Hh st.
  assert (Hinv : stored_once st)
    by apply run_stored_once, initial_stored_once.
  assert (Hdated : dated_store st)
    by (apply run_dated; [done|constructor]).
  split.
  - intros loaded hasMore isInitialLoad Hloaded st'. subst st'.
    destruct (deliver_batch loaded hasMore isInitialLoad st)
      as (objs & n & Hval & ->).
    destruct (processMessages_stored_once objs hasMore isInitialLoad
                (set_next_ref n st)) as (acc & Hst & Hsub & _); [done|].
    rewrite Hst. split.
    { apply js_sort_sorted, Forall_app. split; [done|].
      rewrite <- Hval, Forall_fmap in Hloaded.
      apply Forall_forall. intros x Hx.
      rewrite Forall_forall in Hloaded.
      by apply Hloaded, (elem_of_sublist _ _ _ Hx Hsub). }
    exists acc. split; [done|]. split.
    + rewrite <- Hval. by apply fmap_sublist.
    + intros t. apply js_sort_stable.
  - intros [m|] st'; [|by left]. subst st'. rewrite deliver_live.
    destruct (on_message_store {| ref := next_ref st; val := m |}
                (set_next_ref (S (next_ref st)) st))
      as [_ [Heq|(Heq & _)]]; [by left|].
    right. eexists. split; [|split; [exact Heq|]]; [done|].
    rewrite Heq. apply sorted_snoc.
Qed.

Lemma batch_sorts_live_appends_witness :
  let h := [Live (Some (sample_message "a" 5));
            Live (Some (sample_message "b" 2))] in
  let st := run h (initial None None) in
  let st' :=
    exec (deliver (Batch (IsArray [sample_message "c" 3]) None false)) st in
  ts <$> elems (messages st) = [5; 2]%Z
  ∧ sorted_by_ts (elems (messages st')).
Proof.
  intros h st st'. split; [reflexivity|].
  refine (proj1 (proj1 (batch_sorts_live_appends None None h _)
                   [sample_message "c" 3] None false _)).
  - repeat (apply Forall_cons_2 || apply Forall_nil_2);
      unfold dated_admission, dated; cbn; lia.
  - repeat (apply Forall_cons_2 || apply Forall_nil_2);
      unfold dated; cbn; lia.
Defined.

(** C2.  Deliveries never store an id twice: if no id occurs twice in
    the store, none does after any history of live messages and history
    batches, however often an id is delivered and whatever the seen ids
    hold.  A candidate without an id, or with an id among the seen ids,
    is rejected: as a live message it leaves the whole state unchanged;
    in a batch it is filtered out, and the batch does what it does
    without that candidate; a batch of rejected candidates only leaves
    the entries of a sorted store, and the seen ids, as they are. *)
Theorem admission_at_most_once :
  (∀ h st,
     NoDup (ids (elems (messages st))) →
     NoDup (ids (elems (messages (run h st)))))
  ∧ (∀ st m,
       rejected st (val m) = true → on_message (Some m) st = (Done tt, st))
  ∧ (∀ st l1 c l2 hasMore isInitialLoad,
       rejected st (val c) = true →
       processMessages (IsArray (l1 ++ c :: l2)) hasMore isInitialLoad st
       = processMessages (IsArray (l1 ++ l2)) hasMore isInitialLoad st)
  ∧ (∀ st l hasMore isInitialLoad,
       Forall (λ c, rejected st (val c) = true) l →
       NoDup (ids (elems (messages st))) →
       sorted_by_ts (elems (messages st)) →
       let st' := exec (processMessages (IsArray l) hasMore isInitialLoad) st in
       elems (messages st') = elems (messages st)
       ∧ processedMessageIds st' = processedMessageIds st).
Proof.
  split; [exact run_NoDup|]. split; [intros; by apply on_message_rejected|].
  split.
  - intros st l1 c l2 hasMore isInitialLoad Hrej.
    unfold processMessages. eff. by rewrite filterE_accept_skip.
  - intros st l hasMore isInitialLoad Hrej Hnd Hsorted st'. subst st'.
    unfold processMessages. eff. rewrite (filterE_accept_none _ _ Hrej).
    rewrite app_nil_r, (js_sort_sorted_id _ Hsorted), (dedupe_id _ Hnd).
    by destruct isInitialLoad.
Qed.

Lemma admission_at_most_once_witness :
  let m1 := sample_message "m1" 5 in
  let h := [Live (Some m1); Batch (IsArray [m1; m1]) (Some true) false;
            Live (Some m1)] in
  NoDup (ids (elems (messages (run h (initial None None)))))
  ∧ on_message (Some {| ref := 9; val := m1 |}) (sample_state None)
    = (Done tt, sample_state None)
  ∧ processMessages (IsArray [{| ref := 9; val := m1 |}]) None false
      (sample_state None)
    = processMessages (IsArray []) None false (sample_state None)
  ∧ elems (messages
             (exec (processMessages (IsArray [{| ref := 9; val := m1 |}])
                      None false) (sample_state None)))
    = elems (messages (sample_state None)).
Proof.
  intros m1 h.
  destruct admission_at_most_once as (Hstore & Hlive & Hbatch & Hsame).
  split; [|split; [|split]].
  - apply Hstore. cbn. constructor.
  - apply Hlive. reflexivity.
  - apply (Hbatch (sample_state None) [] {| ref := 9; val := m1 |} []).
    reflexivity.
  - apply (Hsame (sample_state None) [{| ref := 9; val := m1 |}] None false).
    + repeat constructor.
    + cbn. repeat constructor; rewrite ?elem_of_cons, ?elem_of_nil;
        intros H; repeat destruct H as [H|H]; done.
    + repeat constructor; cbn; unfold ts; cbn; lia.
Defined.




(** C4.  If the store holds a message with the id of the delta, then
    after the ingestion of the delta the located message carries exactly
    the reactions of the delta, whatever reactions (optimistic or not) it
    carried before, and is otherwise the message it was.  First for
    [handleReactionUpdate] and the listener of a mounted hook, in any
    state whose objects were allocated before the next free address; then
    for the event in any state the hook reaches. *)
Theorem reaction_delta_overwrites :
  (∀ st data index oldMessage,
     wf st →
     list_find (λ m, _id (val m) = d_messageId data) (elems (messages st))
       = Some (index, oldMessage) →
     let st' := exec (handleReactionUpdate data) st in
     (∃ new,
        elems (messages st') !! index = Some new
        ∧ reactions (val new) = d_reactions data
        ∧ val new = with_reactions (d_reactions data) (val oldMessage))
     ∧ (mountedRef st = true →
        exec (on_messageReactionUpdate data) st = st'))
  ∧ (∀ evs room sock renders data index oldMessage,
       let st := after evs (initial room sock) in
       let st' := exec (handle renders (ReactionUpdate data)) st in
       list_find (λ m, _id (val m) = d_messageId data) (elems (messages st))
         = Some (index, oldMessage) →
       ∃ new,
         elems (messages st') !! index = Some new
         ∧ reactions (val new) = d_reactions data
         ∧ val new = with_reactions (d_reactions data) (val oldMessage)).
Proof.
  assert (Hgen : ∀ st data index oldMessage,
     wf st →
     list_find (λ m, _id (val m) = d_messageId data) (elems (messages st))
       = Some (index, oldMessage) →
     let st' := exec (handleReactionUpdate data) st in
     (∃ new,
        elems (messages st') !! index = Some new
        ∧ reactions (val new) = d_reactions data
        ∧ val new = with_reactions (d_reactions data) (val oldMessage))
     ∧ (mountedRef st = true →
        exec (on_messageReactionUpdate data) st = st')).
  { intros st data index oldMessage Hwf Hfind st'. split.
    - pose proof (wf_found _ _ _ _ Hwf Hfind) as Hlt.
      exists {| ref := next_ref st;
                val := with_reactions (d_reactions data) (val oldMessage) |}.
      subst st'. unfold exec, handleReactionUpdate.
      rewrite (updateSingleMessage_replaced st _ _ index oldMessage
                 {| ref := next_ref st;
                    val := with_reactions (d_reactions data)
                             (val oldMessage) |}
                 (set_next_ref (S (next_ref st)) st) Hfind eq_refl
                 (strict_eq_fresh _ _ _ Hlt)).
      cbn [snd]. rewrite messages_set_messages. cbn [elems].
      split; [|done].
      apply list_find_Some in Hfind as (Hlook & _ & _).
      apply list_lookup_insert_eq. by eapply lookup_lt_Some.
    - intros Hm. subst st'. unfold exec, on_messageReactionUpdate. eff.
      by rewrite Hm. }
  split; [exact Hgen|].
  intros evs room sock renders data index oldMessage st st' Hfind.
  destruct (Hgen st data index oldMessage (wf_after evs room sock) Hfind)
    as [Hnew Hlistener].
  destruct (idle_after evs room sock) as [Hm _].
  subst st'. cbn [handle]. by rewrite (Hlistener Hm).
Qed.

Lemma reaction_delta_overwrites_witness :
  let st := sample_state None in
  let data := {| d_messageId := Some "m2";
                 d_reactions := Some {["ok" := ["u1"; "u2"]]} |} in
  (∃ new,
     elems (messages (exec (handleReactionUpdate data) st)) !! 1 = Some new
     ∧ reactions (val new) = d_reactions data
     ∧ val new = with_reactions (d_reactions data) (sample_message "m2" 7))
  ∧ (let st := after [Delivery (Live (Some (sample_message "m2" 7)))]
                 (initial (Some "room1") None) in
     ∃ new,
       elems (messages (exec (handle [] (ReactionUpdate data)) st)) !! 0
         = Some new
       ∧ reactions (val new) = d_reactions data
       ∧ val new = with_reactions (d_reactions data) (sample_message "m2" 7)).
Proof.
  intros st data. split.
  - refine (proj1 (proj1 reaction_delta_overwrites st data 1
                     {| ref := 2; val := sample_message "m2" 7 |} _ _)).
    + unfold wf. cbn. repeat constructor.
    + reflexivity.
  - refine (proj2 reaction_delta_overwrites
              [Delivery (Live (Some (sample_message "m2" 7)))]
              (Some "room1") None [] data 0
              {| ref := 1; val := sample_message "m2" 7 |} _).
    reflexivity.
Defined.

(** C5, as stated, fails: an updater that returns a message equal to the
    located one field for field, but as a new object, yields a new
    collection.  [handleReactionUpdate] does so when the server repeats
    the reactions the message already has. *)
Lemma updateSingleMessage_equal_copy_new_collection :
  ¬ (∀ st messageId updater index oldMessage r st1,
       list_find (λ m, _id (val m) = messageId) (elems (messages st))
         = Some (index, oldMessage) →
       updater oldMessage st = (Done r, st1) →
       val r = val oldMessage →
       messages (exec (updateSingleMessage messageId updater) st)
         = messages st).
Proof.
  intros Hclaim.
  specialize (Hclaim (sample_state None) (Some "m1")
    (λ msg, alloc_obj (with_reactions None (val msg))) 0
    {| ref := 1; val := sample_message "m1" 5 |}
    {| ref := 4; val := sample_message "m1" 5 |}
    (set_next_ref 5 (sample_state None))
    eq_refl eq_refl eq_refl).
  vm_compute in Hclaim. discriminate Hclaim.
Qed.

(** C5, amended.  If no message has the id, the call changes nothing at
    all; if the updater returns the very object it was given ([===]), the
    store is the original collection, the same array reference; if it
    returns another object, the store is a newly allocated array. *)
Theorem updateSingleMessage_same_reference st messageId updater :
  (list_find (λ m, _id (val m) = messageId) (elems (messages st)) = None →
   updateSingleMessage messageId updater st = (Done tt, st))
  ∧ (∀ index oldMessage r st1,
       list_find (λ m, _id (val m) = messageId) (elems (messages st))
         = Some (index, oldMessage) →
       updater oldMessage st = (Done r, st1) →
       strict_eq r oldMessage = true →
       messages (exec (updateSingleMessage messageId updater) st)
         = messages st)
  ∧ (∀ index oldMessage r st1,
       list_find (λ m, _id (val m) = messageId) (elems (messages st))
         = Some (index, oldMessage) →
       updater oldMessage st = (Done r, st1) →
       strict_eq r oldMessage = false →
       messages (exec (updateSingleMessage messageId updater) st)
         = {| aref := next_ref st1;
              elems := <[index := r]> (elems (messages st)) |}).
Proof.
  split; [|split].
  - apply updateSingleMessage_not_found.
  - intros index oldMessage r st1 Hfind Hupd Heq. unfold exec.
    by rewrite (updateSingleMessage_same _ _ _ _ _ _ _ Hfind Hupd Heq).
  - intros index oldMessage r st1 Hfind Hupd Heq. unfold exec.
    by rewrite (updateSingleMessage_replaced _ _ _ _ _ _ _ Hfind Hupd Heq).
Qed.

Lemma updateSingleMessage_same_reference_witness :
  let st := sample_state None in
  let copy := λ msg : MsgObj, alloc_obj (val msg) in
  updateSingleMessage (Some "m9") (λ msg, mret msg) st = (Done tt, st)
  ∧ messages (exec (updateSingleMessage (Some "m1") (λ msg, mret msg)) st)
    = messages st
  ∧ aref (messages (exec (updateSingleMessage (Some "m1") copy) st)) = 5.
Proof.
  intros st copy. split; [|split].
  - apply (proj1 (updateSingleMessage_same_reference st (Some "m9")
                    (λ msg, mret msg))).
    reflexivity.
  - apply (proj1 (proj2 (updateSingleMessage_same_reference st (Some "m1")
                           (λ msg, mret msg)))
             0 {| ref := 1; val := sample_message "m1" 5 |}
             {| ref := 1; val := sample_message "m1" 5 |} st);
      reflexivity.
  - rewrite (proj2 (proj2 (updateSingleMessage_same_reference st (Some "m1")
                             copy))
               0 {| ref := 1; val := sample_message "m1" 5 |}
               {| ref := 4; val := sample_message "m1" 5 |}
               (set_next_ref 5 st)); reflexivity.
Defined.



(** C7, on the code: with the reasons ["disconnect"] and ["manual"] of
    [CLEANUP_REASONS], neither call enters the ["MANUAL"] branch, so the
    store survives both calls, and so does a pending error. *)
Theorem cleanup_disconnect_then_manual_keeps_store :
  (∀ st,
     messages (exec (cleanup (Some CLEANUP_REASONS.MANUAL))
                 (exec (cleanup (Some CLEANUP_REASONS.DISCONNECT)) st))
     = messages st)
  ∧ (let st := set_error (Some "boom")
                 (sample_state (Some (sample_socket true false))) in
     let st' := exec (cleanup (Some CLEANUP_REASONS.MANUAL))
                  (exec (cleanup (Some CLEANUP_REASONS.DISCONNECT)) st) in
     length (elems (messages st')) = 2
     ∧ error st' = Some "boom"
     ∧ processedMessageIds st' = ∅).
Proof.
  split.
  - intros st. by rewrite !cleanup_keeps_store.
  - vm_compute. done.
Qed.

(** C8, as stated, fails: a cleanup for a disconnect empties the seen
    ids, under either spelling of the reason. *)
Lemma cleanup_disconnect_clears_seen :
  ¬ (∀ st,
       messages (exec (cleanup (Some "disconnect")) st) = messages st
       ∧ processedMessageIds (exec (cleanup (Some "disconnect")) st)
         = processedMessageIds st)
  ∧ ¬ (∀ st,
       messages (exec (cleanup (Some "DISCONNECT")) st) = messages st
       ∧ processedMessageIds (exec (cleanup (Some "DISCONNECT")) st)
         = processedMessageIds st).
Proof.
  split; intros Hclaim;
    destruct (Hclaim (sample_state (Some (sample_socket true false))))
      as [_ Hseen];
    rewrite cleanup_clears_seen in Hseen by reflexivity;
    assert (Hin : "m1" ∈ processedMessageIds
                    (sample_state (Some (sample_socket true false))))
      by (cbn; set_solver);
    rewrite <- Hseen in Hin; set_solver.
Qed.

(** C8, amended.  A cleanup for a disconnect, under either spelling of
    the reason, leaves the store exactly as it was; the seen ids are
    emptied whenever the cleanup runs. *)
Theorem cleanup_disconnect_keeps_store st reason :
  reason = "disconnect" ∨ reason = "DISCONNECT" →
  messages (exec (cleanup (Some reason)) st) = messages st
  ∧ (cleanup_runs st = true →
     processedMessageIds (exec (cleanup (Some reason)) st) = ∅).
Proof.
  intros Hreason. split.
  - apply cleanup_keeps_store. by destruct Hreason as [-> | ->].
  - apply cleanup_clears_seen.
Qed.

Lemma cleanup_disconnect_keeps_store_witness :
  let st := sample_state (Some (sample_socket true false)) in
  messages (exec (cleanup (Some "disconnect")) st) = messages st
  ∧ processedMessageIds (exec (cleanup (Some "disconnect")) st) = ∅.
Proof.
  intros st.
  destruct (cleanup_disconnect_keeps_store st "disconnect" (or_introl eq_refl))
    as [Hstore Hseen].
  exact (conj Hstore (Hseen eq_refl)).
Defined.

(** C9, as stated, fails: a payload object whose [messages] field is
    missing holds no array, and yet raises no error: the listener reads
    it as an empty batch, sets no error message, takes [hasMore] from the
    payload and rebuilds the array of the store. *)
Lemma batch_without_messages_is_empty :
  ¬ (∀ st messages0 (response : Response MsgObj),
       mountedRef st = true → messageProcessingRef st = false →
       not_a_batch response = true →
       let call := handlePreviousMessages messages0 response in
       error (exec call st) = Some "메시지 처리 중 오류가 발생했습니다."
       ∧ hasMoreMessages (exec call st) = Some false
       ∧ messages (exec call st) = messages st).
Proof.
  intros Hclaim.
  destruct (Hclaim (set_hasMoreMessages (Some false) (sample_state None)) []
              (RespObject Absent (Some true)) eq_refl eq_refl eq_refl)
    as (Herror & HhasMore & Hstore).
  vm_compute in HhasMore. discriminate HhasMore.
Qed.

(** C9, amended.  A malformed payload (not an object, or an object whose
    [messages] field is present and not an array) makes the ingestion
    throw; the handler catches the error and completes normally, sets the
    error message shown to the user, sets [hasMoreMessages] to [false],
    and leaves the store and the seen ids as they were.  First for the
    handler of a mounted hook that is not in the middle of a batch, in
    any state; then for the event in any state the hook reaches,
    whatever the closure of the listener holds.  A payload object
    without a [messages] field is handled as the one with an empty
    array. *)
Theorem malformed_batch_is_caught :
  (∀ st messages0 response,
     mountedRef st = true → messageProcessingRef st = false →
     malformed response = true →
     let call := handlePreviousMessages messages0 response in
     (∃ e, result (previousMessages_body messages0 response) st = Threw e)
     ∧ result call st = Done tt
     ∧ error (exec call st) = Some "메시지 처리 중 오류가 발생했습니다."
     ∧ hasMoreMessages (exec call st) = Some false
     ∧ messages (exec call st) = messages st
     ∧ processedMessageIds (exec call st) = processedMessageIds st
     ∧ messageProcessingRef (exec call st) = false)
  ∧ (∀ evs room sock renders age response,
       let st := after evs (initial room sock) in
       let call := handle renders (PreviousMessages age response) in
       malformed response = true →
       result call st = Done tt
       ∧ error (exec call st) = Some "메시지 처리 중 오류가 발생했습니다."
       ∧ hasMoreMessages (exec call st) = Some false
       ∧ messages (exec call st) = messages st
       ∧ processedMessageIds (exec call st) = processedMessageIds st)
  ∧ (∀ messages0 hasMore,
       handlePreviousMessages messages0 (RespObject Absent hasMore)
       = handlePreviousMessages messages0 (RespObject (IsArray []) hasMore)).
Proof.
  assert (Hgen : ∀ st messages0 (response : Response MsgObj),
     mountedRef st = true → messageProcessingRef st = false →
     malformed response = true →
     let call := handlePreviousMessages messages0 response in
     (∃ e, result (previousMessages_body messages0 response) st = Threw e)
     ∧ result call st = Done tt
     ∧ error (exec call st) = Some "메시지 처리 중 오류가 발생했습니다."
     ∧ hasMoreMessages (exec call st) = Some false
     ∧ messages (exec call st) = messages st
     ∧ processedMessageIds (exec call st) = processedMessageIds st
     ∧ messageProcessingRef (exec call st) = false).
  { intros st messages0 response Hm Hp Hbad call. subst call.
    unfold handlePreviousMessages, previousMessages_body. eff.
    rewrite Hm, Hp. cbn [negb orb].
    destruct response as [| |[| |l] hasMore]; try discriminate Hbad; eff;
      (split; [by eexists|done]). }
  split; [exact Hgen|]. split; [|done].
  intros evs room sock renders age response st call Hbad.
  destruct (idle_after evs room sock) as [Hm Hp].
  assert (Hrecv : ∃ r : Response MsgObj,
            receive_response response st = (Done r, st)
            ∧ malformed r = true).
  { destruct response as [| |[| |l] hasMore]; try discriminate Hbad;
      by eexists. }
  destruct Hrecv as (r & Hrecv & Hbad').
  destruct (Hgen st (rendered renders age) r Hm Hp Hbad')
    as (_ & H1 & H2 & H3 & H4 & H5 & _).
  subst call. unfold result, exec in *. cbn [handle].
  unfold mbind, Eff_bind. rewrite Hrecv. done.
Qed.

Lemma malformed_batch_is_caught_witness :
  let st := sample_state None in
  let call := handlePreviousMessages [] (RespObject NotArray (Some true)) in
  (result call st = Done tt
   ∧ error (exec call st) = Some "메시지 처리 중 오류가 발생했습니다."
   ∧ hasMoreMessages (exec call st) = Some false
   ∧ messages (exec call st) = messages st)
  ∧ (let st := after [Delivery (Live (Some (sample_message "m1" 5)))]
                 (initial (Some "room1") None) in
     messages (exec (handle [] (PreviousMessages 0 RespPrimitive)) st)
     = messages st).
Proof.
  intros st call. split.
  - destruct (proj1 malformed_batch_is_caught st []
                (RespObject NotArray (Some true)) eq_refl eq_refl eq_refl)
      as (_ & H1 & H2 & H3 & H4 & _).
    exact (conj H1 (conj H2 (conj H3 H4))).
  - destruct (proj1 (proj2 malformed_batch_is_caught)
                [Delivery (Live (Some (sample_message "m1" 5)))]
                (Some "room1") None [] 0 RespPrimitive eq_refl)
      as (_ & _ & _ & H4 & _).
    exact H4.
Defined.

(** C10.  When the target id is found and the updater returns a new
    message object, the resulting store is the old one with the located
    entry replaced: same length, same order, the new object at the located
    index, and at every other index the very same object as before. *)
Theorem updateSingleMessage_frame st messageId updater index oldMessage
    updatedMessage st1 :
  list_find (λ m, _id (val m) = messageId) (elems (messages st))
    = Some (index, oldMessage) →
  updater oldMessage st = (Done updatedMessage, st1) →
  strict_eq updatedMessage oldMessage = false →
  let store := elems (messages st) in
  let store' :=
    elems (messages (exec (updateSingleMessage messageId updater) st)) in
  store' = <[index := updatedMessage]> store
  ∧ length store' = length store
  ∧ store' !! index = Some updatedMessage
  ∧ ∀ j, j ≠ index → store' !! j = store !! j.
Proof.
  intros Hfind Hupd Hneq store store'. subst store store'.
  unfold exec.
  rewrite (updateSingleMessage_replaced _ _ _ _ _ _ _ Hfind Hupd Hneq).
  cbn [snd]. rewrite messages_set_messages. cbn [elems].
  apply list_find_Some in Hfind as (Hlook & _ & _).
  split; [done|]. split; [by rewrite length_insert|].
  split.
  - apply list_lookup_insert_eq. by eapply lookup_lt_Some.
  - intros j Hj. by apply list_lookup_insert_ne.
Qed.

Lemma updateSingleMessage_frame_witness :
  let st := sample_state None in
  let data := {| d_messageId := Some "m2"; d_reactions := None |} in
  elems (messages (exec (handleReactionUpdate data) st)) !! 0
    = elems (messages st) !! 0.
Proof.
  intros st data.
  refine (proj2 (proj2 (proj2
    (updateSingleMessage_frame st (Some "m2")
       (λ msg, alloc_obj (with_reactions None (val msg))) 1
       {| ref := 2; val := sample_message "m2" 7 |}
       {| ref := 4; val := with_reactions None (sample_message "m2" 7) |}
       (set_next_ref 5 st) _ _ _))) 0 _).
  - reflexivity.
  - reflexivity.
  - reflexivity.
  - lia.
Defined.

(* ===================================================================== *)
(** ** Unmount and cleanup *)
(* ===================================================================== *)

Lemma set_cleanupInProgressRef_same st :
  set_cleanupInProgressRef (cleanupInProgressRef st) st = st.
Proof. by destruct st. Qed.

Lemma cleanup_unmounted reason st :
  mountedRef st = false → cleanup reason st = (Done tt, st).
Proof. intros Hm. unfold cleanup. eff. by rewrite Hm. Qed.

(** X1.  The function run on unmount clears [mountedRef] and nothing
    else: it clears the flag before it calls [cleanup], which therefore
    returns at its first guard.  No [leaveRoom] is emitted on this path,
    no listener is detached, and the store and the seen ids stay as they
    are. *)
Theorem unmount_only_clears_mounted st :
  unmount st = (Done tt, set_mountedRef false st).
Proof.
  unfold unmount. eff. case_match; [|done].
  by rewrite cleanup_unmounted.
Qed.

(** X2.  An unmounted hook ignores what the socket delivers: each of the
    listeners [message], [messagesRead], [previousMessages],
    [messageReactionUpdate], [error] and [session_ended], and [cleanup]
    and [retryMessageLoad], leave the whole state as it is. *)
Theorem unmounted_hook_ignores_events st :
  mountedRef st = false →
  (∀ message, on_message message st = (Done tt, st))
  ∧ (∀ userId messageIds timestamp now,
       on_messagesRead userId messageIds timestamp now st = (Done tt, st))
  ∧ (∀ captured response,
       handlePreviousMessages captured response st = (Done tt, st))
  ∧ (∀ data, on_messageReactionUpdate data st = (Done tt, st))
  ∧ (∀ err, on_error err st = (Done tt, st))
  ∧ (∀ reason, cleanup reason st = (Done tt, st))
  ∧ (∀ p, hook p = st →
          on_session_ended p = (Done tt, p) ∧ retryMessageLoad p = p).
Proof.
  intros Hm. repeat split.
  - intros [m|]; unfold on_message; eff; [|done]. by rewrite Hm.
  - intros. unfold on_messagesRead. eff. by rewrite Hm.
  - intros. unfold handlePreviousMessages. eff. by rewrite Hm.
  - intros. unfold on_messageReactionUpdate. eff. by rewrite Hm.
  - intros. unfold on_error. eff. by rewrite Hm.
  - intros. by apply cleanup_unmounted.
  - unfold on_session_ended. by rewrite H, Hm.
  - unfold retryMessageLoad. rewrite H, Hm. by case_match.
Qed.

Lemma unmounted_hook_ignores_events_witness :
  on_message (Some {| ref := 9; val := sample_message "m3" 9 |})
    sample_unmounted
  = (Done tt, sample_unmounted).
Proof.
  apply (unmounted_hook_ignores_events sample_unmounted).
  reflexivity.
Defined.

Lemma cleanup_body_done_or_refused reason st :
  (∃ st', cleanup_body reason st = (Done tt, st'))
  ∨ (∃ e st', cleanup_body reason st = (Threw e, st')
              ∧ mountedRef st' = mountedRef st).
Proof.
  unfold cleanup_body. eff.
  destruct (cleanupInProgressRef st); [by left; eexists|].
  destruct (leave_room_frame (set_cleanupInProgressRef true st))
    as (r & sock & ->).
  destruct r as [[]|e]; [|right; by eexists _, _].
  left. match goal with |- context [settle reason ?s] =>
    destruct (settle_done reason s) as (st' & ->) end.
  by eexists.
Qed.

Lemma cleanup_done reason st : ∃ st', cleanup reason st = (Done tt, st').
Proof.
  unfold cleanup.
  set (r := match reason with Some r => r | None => "MANUAL" end).
  eff.
  destruct (negb (mountedRef st) || negb (truthy (roomId st)));
    [by eexists|].
  destruct (cleanup_body_done_or_refused r st)
    as [(st' & ->)|(e & st' & -> & _)]; [by eexists|].
  destruct (mountedRef st'); by eexists.
Qed.

(** X3.  [cleanup] never raises, whatever the state and the reason.  When
    it gets past its first guard (mounted, with a room), it ends with
    [cleanupInProgressRef] cleared; and a call made while the flag is set
    does nothing but clear the flag, through the [finally] block. *)
Theorem cleanup_always_completes reason st :
  result (cleanup reason) st = Done tt
  ∧ (mountedRef st = true → truthy (roomId st) = true →
     cleanupInProgressRef (exec (cleanup reason) st) = false
     ∧ (cleanupInProgressRef st = true →
        exec (cleanup reason) st = set_cleanupInProgressRef false st)).
Proof.
  unfold cleanup.
  set (r := match reason with Some r => r | None => "MANUAL" end).
  split.
  { destruct (cleanup_done reason st) as (st' & Hst').
    unfold cleanup in Hst'. fold r in Hst'. unfold result. by rewrite Hst'. }
  eff.
  - intros -> ->. cbn [negb orb]. split.
    + destruct (cleanup_body_done_or_refused r st)
        as [(st' & ->)|(e & st' & -> & _)]; [done|].
      by destruct (mountedRef st').
    + intros Hc. unfold cleanup_body. eff. by rewrite Hc.
Qed.

Lemma cleanup_always_completes_witness :
  let st := set_cleanupInProgressRef true (sample_state None) in
  cleanupInProgressRef (exec (cleanup None) st) = false
  ∧ (cleanupInProgressRef st = true →
     exec (cleanup None) st = set_cleanupInProgressRef false st).
Proof.
  intros st.
  apply (proj2 (cleanup_always_completes None st)); reflexivity.
Defined.

(** X4.  When the socket is connected and refuses the [leaveRoom] emit,
    [cleanup] does none of its work: the call completes, the error
    message of the [catch] block is set, and everything else is as
    before the call: the listeners are still attached, the seen ids and
    the store are kept, even for the reason ["MANUAL"]. *)
Theorem cleanup_refused_leave_only_sets_error reason st :
  mountedRef st = true → truthy (roomId st) = true →
  cleanupInProgressRef st = false →
  socket_connected st = true → outbound_fails st = true →
  cleanup reason st
  = (Done tt, set_error (Some "채팅방 정리 중 오류가 발생했습니다.") st).
Proof.
  intros Hm Hroom Hc Hconn Hfail. unfold cleanup, cleanup_body, leave_room.
  eff. rewrite Hm, Hroom. cbn [negb orb]. eff. rewrite Hc. eff.
  cbn [roomId set_cleanupInProgressRef].
  destruct (roomId st) as [room|] eqn:Hr; [|done].
  rewrite Hroom.
  replace (socket_connected (set_cleanupInProgressRef true st)) with true
    by done.
  cbn [andb]. rewrite emit_refused by done. cbn. rewrite Hm.
  destruct st. cbn in *. by subst.
Qed.

Lemma cleanup_refused_leave_only_sets_error_witness :
  let st := sample_state (Some (sample_socket true true)) in
  cleanup None st
  = (Done tt, set_error (Some "채팅방 정리 중 오류가 발생했습니다.") st).
Proof.
  intros st.
  apply (cleanup_refused_leave_only_sets_error None st); reflexivity.
Defined.

Lemma listeners_detach s :
  listeners (detach_listeners s)
  = filter (λ n, n ∉ room_events) (listeners s).
Proof.
  unfold detach_listeners, off. cbn [foldl listeners].
  rewrite !list_filter_filter. apply list_filter_iff. intros n.
  unfold room_events. rewrite !not_elem_of_cons.
  pose proof (not_elem_of_nil n). tauto.
Qed.

Lemma set_socketRef_same st s : socketRef st = Some s → set_socketRef (Some s) st = st.
Proof. destruct st. cbn. by intros ->. Qed.

Lemma leave_room_runs st s room :
  socketRef st = Some s → roomId st = Some room →
  truthy (roomId st) = true →
  negb (socket_connected st && outbound_fails st) = true →
  leave_room st
  = (Done tt,
     set_socketRef (Some (if connected s then sent (LeaveRoom room) s else s))
       st).
Proof.
  intros Hs Hroom Htr Hemit. unfold leave_room. eff.
  rewrite Hroom. rewrite Hroom in Htr. rewrite Htr.
  unfold socket_connected, outbound_fails in *. rewrite Hs in *.
  destruct (connected s); cbn [andb negb orb] in *.
  - apply negb_true_iff in Hemit. unfold emit, sent. by rewrite Hs, Hemit.
  - by rewrite set_socketRef_same.
Qed.

Lemma cleanup_socket reason st s room :
  cleanup_runs st = true → socketRef st = Some s → roomId st = Some room →
  socketRef (exec (cleanup reason) st)
  = Some ((if bool_decide (reason = Some "RECONNECT") then id
           else detach_listeners)
            (if connected s then sent (LeaveRoom room) s else s)).
Proof.
  intros Hrun Hs Hroom. unfold cleanup.
  set (r := match reason with Some r => r | None => "MANUAL" end).
  pose proof Hrun as Hrun'. unfold cleanup_runs in Hrun'.
  apply andb_true_iff in Hrun' as [Hrun' Hemit].
  apply andb_true_iff in Hrun' as [Hrun' Hc%negb_true_iff].
  apply andb_true_iff in Hrun' as [Hm Htr].
  assert (Hrec : bool_decide (r ≠ "RECONNECT")
                 = negb (bool_decide (reason = Some "RECONNECT"))).
  { subst r. destruct reason as [x|]; [|done].
    destruct (decide (x = "RECONNECT")) as [->|Hne]; [done|].
    rewrite bool_decide_eq_true_2 by done.
    rewrite bool_decide_eq_false_2; [done|congruence]. }
  eff. rewrite Hm, Htr. cbn [negb orb].
  unfold cleanup_body. eff. rewrite Hc. eff.
  rewrite (leave_room_runs (set_cleanupInProgressRef true st) s room)
    by done.
  eff. unfold detach_unless_reconnect at 1.
  cbn [socketRef set_socketRef]. rewrite Hrec.
  pose proof (settle_done r) as Hd.
  assert (Hset : ∀ s0, socketRef (settle r s0).2 = socketRef s0).
  { intros s0. unfold settle, resetMessages, clear_user_rooms. eff.
    repeat case_match; done. }
  match goal with |- context [settle r ?s0] =>
    specialize (Hset s0); destruct (Hd s0) as (st' & Hst') end.
  rewrite Hst' in *. cbn [fst snd] in *.
  cbn [socketRef set_cleanupInProgressRef]. rewrite Hset.
  match goal with |- context [cancel_load_more ?s0] =>
    destruct (cancel_load_more_frame s0) as (t & ->) end.
  by destruct (bool_decide (reason = Some "RECONNECT")).
Qed.

(** X5.  What a cleanup that runs does to the socket: it emits
    [leaveRoom] for the room if the socket is connected, and it detaches
    the listeners of the eight room events unless the reason is the
    string ["RECONNECT"]; every other listener stays.  The reason
    [CLEANUP_REASONS.RECONNECT] is the string ["reconnect"], for which
    the listeners are detached as well. *)
Theorem cleanup_detaches_listeners reason st s room :
  cleanup_runs st = true → socketRef st = Some s → roomId st = Some room →
  ∃ s',
    socketRef (exec (cleanup reason) st) = Some s'
    ∧ connected s' = connected s
    ∧ outbox s' = (if connected s then outbox s ++ [LeaveRoom room]
                   else outbox s)
    ∧ listeners s'
      = (if bool_decide (reason = Some "RECONNECT") then listeners s
         else filter (λ n, n ∉ room_events) (listeners s)).
Proof.
  intros Hrun Hs Hroom. eexists. split; [by apply cleanup_socket|].
  destruct (bool_decide (reason = Some "RECONNECT")); cbn [id].
  - by destruct (connected s) eqn:Hc.
  - rewrite listeners_detach. unfold detach_listeners, off.
    cbn [foldl connected outbox]. by destruct (connected s) eqn:Hc.
Qed.

Lemma cleanup_detaches_listeners_witness :
  let st := sample_state (Some (sample_socket true false)) in
  ∃ s',
    socketRef (exec (cleanup (Some CLEANUP_REASONS.RECONNECT)) st) = Some s'
    ∧ connected s' = true
    ∧ outbox s' = [LeaveRoom "room1"]
    ∧ listeners s' = [].
Proof.
  intros st.
  apply (cleanup_detaches_listeners (Some CLEANUP_REASONS.RECONNECT) st
           (sample_socket true false) "room1"); reflexivity.
Defined.

(* ===================================================================== *)
(** ** Properties that the handlers leave alone *)
(* ===================================================================== *)

Lemma in_error_after_renders renders evs st :
  Forall (λ ev, is_cleanup ev = false) evs →
  in_error st → in_error (after_renders renders evs st).
Proof.
  apply quiet_after_renders; unfold in_error;
    try (by intros ? ? (? & ? & ?)); try (by intros ? (? & ? & ?)).
  by intros ev s st0 Hs (? & ? & ?).
Qed.

Lemma in_error_after evs st :
  Forall (λ ev, is_cleanup ev = false) evs →
  in_error st → in_error (after evs st).
Proof. apply in_error_after_renders. Qed.

Lemma in_error_status st : in_error st → getConnectionState st = "error".
Proof.
  intros (Hs & Hl & He). unfold getConnectionState.
  destruct (socketRef st); [|done]. by rewrite Hl, He.
Qed.

Lemma or_else_truthy text fallback :
  fallback ≠ "" → truthy (Some (or_else text fallback)) = true.
Proof.
  intros Hf. unfold or_else. destruct text as [t|].
  - destruct (truthy (Some t)) eqn:Ht; [done|]. cbn.
    apply negb_true_iff, String.eqb_neq. done.
  - cbn. apply negb_true_iff, String.eqb_neq. done.
Qed.

(* ===================================================================== *)
(** ** Errors, status and the end of the session *)
(* ===================================================================== *)

(** X6.  The ["error"] listener of a mounted hook.  A message that the
    server rejected (code ["MESSAGE_REJECTED"]) only raises a toast: the
    error cell, and with it the connection status that the hook exposes,
    stay as they are.  Any other error sets the error cell to a non-empty
    message, so that a hook with a socket that is not loading exposes the
    status ["error"]; no toast is raised.  An event without a payload
    makes the listener throw, the state untouched. *)
Theorem error_event_toast_or_status st :
  mountedRef st = true →
  (∀ e, e_code e = Some "MESSAGE_REJECTED" →
        on_error (Some e) st
        = (Done tt,
           set_toasts
             (toasts st
              ++ [or_else (e_message e)
                    "금칙어가 포함되어 메시지를 전송할 수 없습니다."]) st)
        ∧ getConnectionState (exec (on_error (Some e)) st)
          = getConnectionState st)
  ∧ (∀ e, e_code e ≠ Some "MESSAGE_REJECTED" →
          on_error (Some e) st
          = (Done tt,
             set_error
               (Some (or_else (e_message e)
                        "채팅 연결에 문제가 발생했습니다.")) st)
          ∧ (socketRef st ≠ None → loading st = false →
             getConnectionState (exec (on_error (Some e)) st) = "error"))
  ∧ on_error None st = (Threw "TypeError", st).
Proof.
  intros Hm. split; [|split].
  - intros e He. unfold on_error, toast_error. eff. rewrite Hm. cbn [negb].
    by rewrite (bool_decide_eq_true_2 _ He).
  - intros e He. unfold on_error. eff. rewrite Hm. cbn [negb].
    rewrite (bool_decide_eq_false_2 _ He). split; [done|].
    intros Hs Hl. apply in_error_status. split; [done|]. split; [done|].
    cbn [error set_error]. by apply or_else_truthy.
  - unfold on_error. eff. by rewrite Hm.
Qed.

Lemma error_event_toast_or_status_witness :
  let st := sample_state (Some (sample_socket true false)) in
  let e := {| e_code := Some "SERVER_DOWN"; e_message := Some "" |} in
  on_error (Some e) st
  = (Done tt, set_error (Some "채팅 연결에 문제가 발생했습니다.") st)
  ∧ (socketRef st ≠ None → loading st = false →
     getConnectionState (exec (on_error (Some e)) st) = "error").
Proof.
  intros st e.
  apply (proj1 (proj2 (error_event_toast_or_status st eq_refl)) e).
  done.
Defined.

(** X7.  The ["session_ended"] listener of a mounted hook always logs out
    and redirects to the login page with [error=session_expired]: the
    [cleanup()] it calls first never raises.  The hook is left as that
    cleanup, with the default reason, leaves it: when the cleanup runs,
    the store and the seen ids are empty, no error is set, and the
    listeners of the room events, the one of ["session_ended"] among
    them, are detached from the socket. *)
Theorem session_end_logs_out p :
  mountedRef (hook p) = true →
  ∃ p',
    on_session_ended p = (Done tt, p')
    ∧ logouts p' = S (logouts p)
    ∧ replaced p' = replaced p ++ ["/?error=session_expired"]
    ∧ hook p' = exec (cleanup None) (hook p)
    ∧ (cleanup_runs (hook p) = true →
       elems (messages (hook p')) = []
       ∧ error (hook p') = None
       ∧ processedMessageIds (hook p') = ∅
       ∧ ∀ s, socketRef (hook p) = Some s →
              ∃ s', socketRef (hook p') = Some s'
                    ∧ ∀ name, name ∈ room_events → name ∉ listeners s').
Proof.
  intros Hm. unfold on_session_ended. rewrite Hm. cbn [negb].
  destruct (cleanup_done None (hook p)) as (st' & Hc).
  rewrite Hc. eexists. split; [done|]. cbn [logouts replaced hook].
  split; [done|]. split; [done|].
  split; [unfold exec; by rewrite Hc|].
  intros Hrun.
  destruct (cleanup_MANUAL_resets None (hook p) Hrun (or_introl eq_refl))
    as (Hstore & Herr & Hseen & _).
  unfold exec in *. rewrite Hc in *. cbn [snd] in *.
  split; [done|]. split; [done|]. split; [done|].
  intros s Hs.
  assert (∃ room, roomId (hook p) = Some room) as [room Hroom].
  { unfold cleanup_runs in Hrun. destruct (roomId (hook p)); [by eexists|].
    by rewrite andb_false_r in Hrun. }
  pose proof (cleanup_socket None _ s room Hrun Hs Hroom) as Hsock.
  unfold exec in Hsock. rewrite Hc in Hsock. cbn [snd] in Hsock.
  eexists. split; [exact Hsock|]. cbn [bool_decide decide_rel id].
  intros name Hname. rewrite listeners_detach.
  rewrite list_elem_of_filter. tauto.
Qed.

Lemma session_end_logs_out_witness :
  let p := sample_page (sample_state (Some (sample_socket true false))) in
  ∃ p',
    on_session_ended p = (Done tt, p')
    ∧ logouts p' = 1
    ∧ replaced p' = ["/?error=session_expired"]
    ∧ hook p' = exec (cleanup None) (hook p)
    ∧ (cleanup_runs (hook p) = true →
       elems (messages (hook p')) = []
       ∧ error (hook p') = None
       ∧ processedMessageIds (hook p') = ∅
       ∧ ∀ s, socketRef (hook p) = Some s →
              ∃ s', socketRef (hook p') = Some s'
                    ∧ ∀ name, name ∈ room_events → name ∉ listeners s').
Proof.
  intros p. apply (session_end_logs_out p). reflexivity.
Defined.

(** X8.  An error message, once set, stays set through every later
    event that is not a cleanup: no delivery, history batch, read
    receipt or reaction clears it.  So on a hook with a socket that is
    not loading, one malformed history batch turns the exposed connection
    status to ["error"], whatever the socket's own state, and the status
    stays ["error"] through all such events, well-formed batches
    included. *)
Theorem error_status_is_sticky st evs :
  Forall (λ ev, is_cleanup ev = false) evs →
  socketRef st ≠ None → loading st = false →
  (truthy (error st) = true → getConnectionState (after evs st) = "error")
  ∧ (∀ age response,
       idle st → malformed response = true →
       getConnectionState (after (PreviousMessages age response :: evs) st)
       = "error").
Proof.
  intros Hevs Hs Hl. split.
  - intros He. by apply in_error_status, in_error_after.
  - intros age response [Hm Hp] Hbad. apply in_error_status.
    unfold after. cbn [after_renders].
    apply in_error_after_renders; [done|].
    unfold handle, exec. eff.
    assert (Hrecv : ∃ r, receive_response response st = (Done r, st)
                         ∧ malformed r = true).
    { destruct response as [| |[| |l] hasMore]; try done;
        cbn [receive_response receive_field]; eff; by eexists. }
    destruct Hrecv as (r & -> & Hr).
    unfold handlePreviousMessages, previousMessages_body, processMessages.
    eff. rewrite Hm, Hp. cbn [negb orb].
    destruct r as [| |[| |l] hasMore]; try done; by split.
Qed.

Lemma error_status_is_sticky_witness :
  let st := sample_state (Some (sample_socket true false)) in
  getConnectionState st = "connected"
  ∧ getConnectionState
      (after [PreviousMessages 0 RespPrimitive;
              PreviousMessages 1
                (RespObject (IsArray [sample_message "m3" 9]) (Some false));
              Delivery (Live (Some (sample_message "m4" 11)))] st)
    = "error".
Proof.
  intros st. split; [reflexivity|].
  apply (proj2 (error_status_is_sticky st
           [PreviousMessages 1
              (RespObject (IsArray [sample_message "m3" 9]) (Some false));
            Delivery (Live (Some (sample_message "m4" 11)))]
           ltac:(repeat constructor) ltac:(done) eq_refl)
         0 RespPrimitive).
  - by split.
  - reflexivity.
Defined.

(* ===================================================================== *)
(** ** Admission, continued *)
(* ===================================================================== *)

Lemma deliver_grows a st :
  stored_once st →
  (∀ m, m ∈ elems (messages st) → m ∈ elems (messages (exec (deliver a) st)))
  ∧ processedMessageIds st ⊆ processedMessageIds (exec (deliver a) st)
  ∧ length (elems (messages st))
    ≤ length (elems (messages (exec (deliver a) st))).
Proof.
  intros Hinv. destruct a as [[m|]|loaded hasMore isInitialLoad].
  - rewrite deliver_live.
    destruct (on_message_store {| ref := next_ref st; val := m |}
                (set_next_ref (S (next_ref st)) st)) as [Hsub Hstore].
    cbn [messages processedMessageIds set_next_ref] in *.
    split; [|split; [done|]].
    + intros x Hx. destruct Hstore as [->|[-> _]]; [done|].
      apply elem_of_app. by left.
    + destruct Hstore as [->|[-> _]]; [done|]. rewrite length_app. lia.
  - done.
  - destruct loaded as [| |loaded]; [done|done|].
    destruct (deliver_batch loaded hasMore isInitialLoad st)
      as (objs & n & _ & ->).
    destruct (processMessages_stored_once objs hasMore isInitialLoad
                (set_next_ref n st)) as (acc & Hst & _ & _); [done|].
    destruct (processMessages_store objs hasMore isInitialLoad
                (set_next_ref n st))
      as (acc' & st' & Hrun & _ & HS & _).
    rewrite Hst. unfold exec. rewrite Hrun. cbn [snd].
    cbn [messages processedMessageIds set_next_ref] in *.
    split; [|split].
    + intros x Hx. rewrite js_sort_perm. apply elem_of_app. by left.
    + intros i Hi. apply HS. by left.
    + rewrite js_sort_perm, length_app. lia.
Qed.

(** X9.  Admission only adds.  From a store taken in through the seen
    ids (every stored id seen, none stored twice), as every store reached
    by deliveries from the initial state is, no history of live messages
    and batches removes or replaces a stored message object, and no seen
    id is forgotten. *)
Theorem admissions_only_add h st :
  stored_once st →
  (∀ m, m ∈ elems (messages st) → m ∈ elems (messages (run h st)))
  ∧ processedMessageIds st ⊆ processedMessageIds (run h st)
  ∧ length (elems (messages st)) ≤ length (elems (messages (run h st))).
Proof.
  revert st. induction h as [|a h IH]; intros st Hinv; [done|].
  cbn [run foldl].
  destruct (deliver_grows a st Hinv) as (Hm & Hs & Hl).
  destruct (IH (exec (deliver a) st)) as (Hm' & Hs' & Hl');
    [by apply deliver_stored_once|].
  unfold run in *. split; [auto|]. split; [by etrans|lia].
Qed.

Lemma admissions_only_add_witness :
  let st := run [Live (Some (sample_message "a" 5))]
              (initial (Some "room1") None) in
  let h := [Batch (IsArray [sample_message "b" 2]) (Some false) false] in
  (∀ m, m ∈ elems (messages st) → m ∈ elems (messages (run h st)))
  ∧ processedMessageIds st ⊆ processedMessageIds (run h st)
  ∧ length (elems (messages st)) ≤ length (elems (messages (run h st))).
Proof.
  intros st h. apply (admissions_only_add h st).
  apply run_stored_once, initial_stored_once.
Defined.

(** X10.  A live message whose id is already in the store never changes
    the store, whatever the seen ids hold: the listener's own look at the
    store stops it.  In particular a stored message that comes again
    after a cleanup which emptied the seen ids and kept the store (any
    reason but ["MANUAL"]) is not stored twice. *)
Theorem stored_id_is_never_appended st m :
  _id m ∈ ids (elems (messages st)) →
  elems (messages (exec (deliver (Live (Some m))) st)) = elems (messages st)
  ∧ ∀ reason,
      reason ≠ "MANUAL" →
      elems (messages (exec (deliver (Live (Some m)))
                         (exec (cleanup (Some reason)) st)))
      = elems (messages st).
Proof.
  assert (Hlive : ∀ st0,
    _id m ∈ ids (elems (messages st0)) →
    elems (messages (exec (deliver (Live (Some m))) st0))
    = elems (messages st0)).
  { intros st0 Hin. rewrite deliver_live.
    by destruct (on_message_store {| ref := next_ref st0; val := m |}
                   (set_next_ref (S (next_ref st0)) st0))
      as [_ [Heq|(_ & Hnin & _)]]. }
  intros Hin. split; [by apply Hlive|].
  intros reason Hr.
  pose proof (cleanup_keeps_store reason st Hr) as Hkeep.
  rewrite Hlive; by rewrite Hkeep.
Qed.

Lemma stored_id_is_never_appended_witness :
  let st := sample_state (Some (sample_socket true false)) in
  let m := sample_message "m1" 5 in
  elems (messages (exec (deliver (Live (Some m))) st)) = elems (messages st)
  ∧ ∀ reason,
      reason ≠ "MANUAL" →
      elems (messages (exec (deliver (Live (Some m)))
                         (exec (cleanup (Some reason)) st)))
      = elems (messages st).
Proof.
  intros st m. apply (stored_id_is_never_appended st m).
  cbn. apply list_elem_of_here.
Defined.

(* ===================================================================== *)
(** ** The de-duplication, continued *)
(* ===================================================================== *)

Lemma with_id_cons k x l :
  with_id k (x :: l)
  = if decide (_id (val x) = k) then x :: with_id k l else with_id k l.
Proof. unfold with_id. by rewrite filter_cons. Qed.

Lemma with_id_app k l1 l2 : with_id k (l1 ++ l2) = with_id k l1 ++ with_id k l2.
Proof. unfold with_id. by rewrite filter_app. Qed.

Lemma with_id_absent k l : k ∉ ids l → with_id k l = [].
Proof.
  unfold ids. induction l as [|x l IH]; [done|].
  cbn [fmap list_fmap]. intros [Hx Hl]%not_elem_of_cons.
  rewrite with_id_cons, decide_False by congruence. auto.
Qed.

Lemma with_id_unique l x :
  NoDup (ids l) → x ∈ l → with_id (_id (val x)) l = [x].
Proof.
  unfold ids. induction l as [|y l IH]; intros Hnd Hin.
  - by apply elem_of_nil in Hin.
  - cbn [fmap list_fmap] in Hnd. apply NoDup_cons in Hnd as [Hy Hnd].
    rewrite with_id_cons.
    apply elem_of_cons in Hin as [->|Hin].
    + rewrite decide_True by done. by rewrite (with_id_absent _ l Hy).
    + rewrite decide_False; [by apply IH|].
      intros Heq. apply Hy. rewrite Heq.
      apply list_elem_of_fmap. by exists x.
Qed.

Lemma map_set_with_id v m k :
  keyed m →
  with_id k (map_set (_id (val v)) v m).*2
  = if bool_decide (_id (val v) = k) then [v] else with_id k m.*2.
Proof.
  intros [Hkv Hnd].
  induction Hkv as [|[k' v'] m Hk Hm IH]; cbn [map_set].
  - cbn [fmap list_fmap snd]. rewrite with_id_cons.
    case_decide; [by rewrite bool_decide_eq_true_2
                 |by rewrite bool_decide_eq_false_2].
  - cbn [fst snd fmap list_fmap] in *. subst k'.
    apply NoDup_cons in Hnd as [Hv' Hnd].
    assert (Hids : ids m.*2 = m.*1) by (apply keyed_ids; by split).
    destruct (decide (_id (val v') = _id (val v))) as [Heq|Hne].
    + rewrite bool_decide_eq_true_2 by done.
      cbn [fmap list_fmap snd]. rewrite !with_id_cons.
      destruct (decide (_id (val v) = k)) as [Hk|Hk].
      * rewrite bool_decide_eq_true_2 by done.
        rewrite with_id_absent; [done|].
        rewrite Hids. congruence.
      * rewrite bool_decide_eq_false_2 by done.
        by rewrite decide_False by congruence.
    + rewrite bool_decide_eq_false_2 by done.
      cbn [fmap list_fmap snd]. rewrite !with_id_cons, IH by done.
      destruct (decide (_id (val v) = k)) as [Hk|Hk].
      * rewrite bool_decide_eq_true_2 by done.
        by rewrite decide_False by congruence.
      * by rewrite bool_decide_eq_false_2 by done.
Qed.

Lemma keyed_with_id k m :
  keyed m → with_id k m.*2 = option_list (last (with_id k m.*2)).
Proof.
  intros Hk.
  assert (Hnd : NoDup (ids m.*2)) by (rewrite keyed_ids by done; apply Hk).
  clear Hk.
  induction (m.*2) as [|x l IH]; [done|].
  cbn [ids fmap list_fmap] in Hnd. apply NoDup_cons in Hnd as [Hx Hnd].
  rewrite with_id_cons. case_decide as Hk; [|by apply IH].
  subst k. by rewrite (with_id_absent _ l Hx).
Qed.

Lemma foldl_map_set_with_id k l m :
  keyed m →
  with_id k (foldl (λ map msg, map_set (_id (val msg)) msg map) m l).*2
  = option_list (last (with_id k (m.*2 ++ l))).
Proof.
  revert m. induction l as [|x l IH]; intros m Hm.
  - cbn [foldl]. rewrite app_nil_r. by apply keyed_with_id.
  - cbn [foldl]. rewrite IH by (by apply map_set_keyed).
    rewrite !with_id_app, map_set_with_id by done.
    rewrite (with_id_cons _ x).
    destruct (decide (_id (val x) = k)) as [Hk|Hk].
    + rewrite bool_decide_eq_true_2 by done.
      by rewrite !last_app_cons.
    + by rewrite bool_decide_eq_false_2 by done.
Qed.

Lemma dedupe_with_id k l :
  with_id k (dedupe l) = option_list (last (with_id k l)).
Proof.
  unfold dedupe. rewrite foldl_map_set_with_id; [done|].
  split; constructor.
Qed.

Lemma foldl_map_set_keys l m :
  (foldl (λ map msg, map_set (_id (val msg)) msg map) m l).*1
  = foldl (λ ks msg,
             if bool_decide (_id (val msg) ∈ ks) then ks
             else ks ++ [_id (val msg)]) m.*1 l.
Proof.
  revert m. induction l as [|x l IH]; intros m; [done|].
  cbn [foldl]. by rewrite IH, map_set_keys.
Qed.

Lemma dedupe_ids l : ids (dedupe l) = reverse (remove_dups (reverse (ids l))).
Proof.
  unfold dedupe.
  assert (Hk : keyed (foldl (λ map msg, map_set (_id (val msg)) msg map) [] l)).
  { apply foldl_map_set_keyed. split; constructor. }
  rewrite (keyed_ids _ Hk), foldl_map_set_keys. cbn [fmap list_fmap].
  clear Hk. induction l as [|x l IH] using rev_ind; [done|].
  rewrite foldl_app. cbn [foldl]. rewrite IH.
  unfold ids. rewrite fmap_app, reverse_app. cbn [fmap list_fmap].
  rewrite reverse_singleton. cbn [app remove_dups].
  destruct (decide_rel elem_of (_id (val x)) (reverse ((λ m, _id (val m)) <$> l)))
    as [Hin|Hnin].
  - rewrite bool_decide_eq_true_2; [done|].
    by rewrite elem_of_reverse, elem_of_remove_dups.
  - rewrite bool_decide_eq_false_2; [by rewrite reverse_cons|].
    by rewrite elem_of_reverse, elem_of_remove_dups.
Qed.

(** X11.  The de-duplication through the [Map] keyed by [_id]: the ids
    come out in the order of their first occurrence, each once, and under
    each id the object that came last with that id. *)
Theorem dedupe_first_position_last_object l :
  ids (dedupe l) = reverse (remove_dups (reverse (ids l)))
  ∧ ∀ k, with_id k (dedupe l) = option_list (last (with_id k l)).
Proof. split; [apply dedupe_ids|intros; apply dedupe_with_id]. Qed.

(* ===================================================================== *)
(** ** A batch that brings stored messages again *)
(* ===================================================================== *)

Lemma StronglySorted_filter {A} (R : A → A → Prop) (P : A → Prop)
    `{∀ x, Decision (P x)} l :
  StronglySorted R l → StronglySorted R (filter P l).
Proof.
  induction 1 as [|x l Hl IH Hx]; [constructor|].
  rewrite filter_cons. case_decide; [|done].
  constructor; [done|]. rewrite Forall_forall in Hx |- *.
  intros y [_ Hy]%list_elem_of_filter. auto.
Qed.

Lemma filter_comm {A} (P Q : A → Prop) `{∀ x, Decision (P x)}
    `{∀ x, Decision (Q x)} (l : list A) :
  filter P (filter Q l) = filter Q (filter P l).
Proof. rewrite !list_filter_filter. apply list_filter_iff. tauto. Qed.

(** Two entries of one id, the first not later than the second, keep
    their order through the sort of a list of valid dates. *)
Lemma js_sort_with_id_pair k l o c :
  Forall (λ m, dated (val m)) l →
  with_id k l = [o; c] → (ts o ≤ ts c)%Z →
  with_id k (js_sort l) = [o; c].
Proof.
  intros Hd Hl Hle.
  assert (Hperm : with_id k (js_sort l) ≡ₚ [o; c]).
  { rewrite <- Hl. unfold with_id. by rewrite js_sort_perm. }
  symmetry in Hperm. apply Permutation_length_2_inv in Hperm as [?|Heq];
    [done|].
  destruct (decide (ts o = ts c)) as [Hts|Hts].
  - assert (Hstable : filter (λ m, ts m = ts o) (with_id k (js_sort l))
                      = filter (λ m, ts m = ts o) (with_id k l)).
    { unfold with_id.
      rewrite !(filter_comm (λ m, ts m = ts o) (λ m, _id (val m) = k)).
      by rewrite js_sort_stable. }
    rewrite Heq, Hl in Hstable.
    rewrite !filter_cons, !filter_nil in Hstable.
    rewrite !decide_True in Hstable by done.
    by rewrite Heq, Hstable.
  - assert (Hsorted : sorted_by_ts (with_id k (js_sort l))).
    { by apply StronglySorted_filter, js_sort_sorted. }
    rewrite Heq in Hsorted. apply StronglySorted_inv in Hsorted as [_ Hc].
    apply Forall_inv in Hc. lia.
Qed.

(** Every candidate of a batch that has an id is seen when the filter
    has run. *)
Lemma filterE_accept_marks l st acc st' c :
  filterE accept l st = (Done acc, st') →
  c ∈ l → truthy (_id (val c)) = true → seen st' (_id (val c)) = true.
Proof.
  revert st acc st'. induction l as [|x l IH]; intros st acc st' Hrun Hin Htr.
  - by apply elem_of_nil in Hin.
  - cbn [filterE] in Hrun. eff. rewrite accept_spec in Hrun.
    destruct (filterE accept l _) as [[acc'|e] st1] eqn:Hrest; [|done].
    injection Hrun as <- <-.
    assert (Hmono : processedMessageIds
                      (if rejected st (val x) then st
                       else mark_seen (_id (val x)) st)
                    ⊆ processedMessageIds st1).
    { destruct (filterE_accept l
                  (if rejected st (val x) then st
                   else mark_seen (_id (val x)) st))
        as (acc0 & S & Hf & HS & _).
      rewrite Hrest in Hf. injection Hf as _ ->. cbn.
      intros i Hi. apply HS. by left. }
    apply elem_of_cons in Hin as [->|Hin]; [|by eapply IH].
    eapply seen_mono; [exact Hmono|].
    unfold rejected. rewrite Htr. cbn [negb orb].
    destruct (seen st (_id (val x))) eqn:Hs; [done|].
    destruct (_id (val x)) as [i|]; [|done]. cbn.
    apply bool_decide_eq_true. set_solver.
Qed.

(** X12.  A history batch that brings again a message whose id is stored
    but no longer seen (the seen ids were emptied by a cleanup or a
    retry), the timestamps of the store and of the batch being within
    the range of [Date]: when no copy in the batch is earlier than the
    stored message, the store afterwards holds exactly one message with
    that id, and it is an object of the batch; the stored object is
    replaced. *)
Theorem redelivered_batch_replaces st loaded hasMore isInitialLoad o :
  dated_store st → Forall (λ m, dated (val m)) loaded →
  NoDup (ids (elems (messages st))) →
  o ∈ elems (messages st) →
  truthy (_id (val o)) = true → seen st (_id (val o)) = false →
  (∃ c, c ∈ loaded ∧ _id (val c) = _id (val o)) →
  (∀ c, c ∈ loaded → _id (val c) = _id (val o) → (ts o ≤ ts c)%Z) →
  let st' := exec (processMessages (IsArray loaded) hasMore isInitialLoad)
               st in
  ∃ c, c ∈ loaded
       ∧ with_id (_id (val o)) (elems (messages st')) = [c].
Proof.
  intros Hdst Hdl Hnd Ho Htr Hseen (c0 & Hc0 & Hid0) Hts st'. subst st'.
  unfold processMessages, exec. eff.
  destruct (filterE_accept loaded st)
    as (acc & S & Hf & HS & Hnd' & Hacc & Hsub).
  pose proof (filterE_accept_marks _ _ _ _ c0 Hf Hc0) as Hmark.
  rewrite Hid0 in Hmark. specialize (Hmark Htr).
  rewrite Hf. eff.
  assert (Hin : _id (val o) ∈ ids acc).
  { destruct (_id (val o)) as [i|] eqn:Hi; [|done].
    unfold seen in Hmark, Hseen. cbn in Hmark.
    apply bool_decide_eq_true in Hmark. apply bool_decide_eq_false in Hseen.
    apply HS in Hmark as [?|?]; done. }
  apply list_elem_of_fmap in Hin as (c & Hidc & Hc).
  assert (Hcl : c ∈ loaded) by (by eapply elem_of_sublist).
  assert (Hdall : Forall (λ m, dated (val m)) (elems (messages st) ++ acc)).
  { apply Forall_app. split; [done|]. apply Forall_forall. intros x Hx.
    rewrite Forall_forall in Hdl.
    by apply Hdl, (elem_of_sublist _ _ _ Hx Hsub). }
  exists c. split; [done|].
  destruct isInitialLoad; cbn [snd messages set_messages
    set_initialLoadCompletedRef set_hasMoreMessages elems];
    rewrite dedupe_with_id;
    rewrite (js_sort_with_id_pair _ _ o c Hdall); try done;
    try (apply Hts; done);
    unfold with_id; rewrite filter_app;
    fold (with_id (_id (val o)) (elems (messages st)));
    fold (with_id (_id (val o)) acc);
    rewrite (with_id_unique _ o Hnd Ho);
    rewrite Hidc, (with_id_unique _ c Hnd' Hc); done.
Qed.

Lemma redelivered_batch_replaces_witness :
  let st := exec (cleanup (Some CLEANUP_REASONS.DISCONNECT))
              (sample_state (Some (sample_socket true false))) in
  let o := {| ref := 1; val := sample_message "m1" 5 |} in
  let loaded := [ {| ref := 7; val := sample_message "m1" 5 |} ] in
  ∃ c, c ∈ loaded
       ∧ with_id (Some "m1")
           (elems (messages
                     (exec (processMessages (IsArray loaded) (Some false)
                              false) st)))
         = [c].
Proof.
  intros st o loaded.
  apply (redelivered_batch_replaces st loaded (Some false) false o).
  - repeat (apply Forall_cons_2 || apply Forall_nil_2);
      unfold dated; cbn; lia.
  - repeat (apply Forall_cons_2 || apply Forall_nil_2);
      unfold dated; cbn; lia.
  - apply (bool_decide_unpack _). vm_compute. exact I.
  - vm_compute. apply list_elem_of_here.
  - reflexivity.
  - reflexivity.
  - exists {| ref := 7; val := sample_message "m1" 5 |}.
    split; [apply list_elem_of_here|reflexivity].
  - intros c Hc _. apply list_elem_of_singleton in Hc as ->. vm_compute.
    discriminate.
Defined.

(* ===================================================================== *)
(** ** Read receipts, continued *)
(* ===================================================================== *)

Lemma on_messagesRead_mounted userId messageIds timestamp now st :
  mountedRef st = true →
  ∃ l' n,
    on_messagesRead userId messageIds timestamp now st
    = (Done tt,
       set_messages {| aref := n; elems := l' |} (set_next_ref (S n) st))
    ∧ Forall2 (read_step userId messageIds (or_now timestamp now))
        (elems (messages st)) l'.
Proof.
  intros Hm. unfold on_messagesRead. eff. rewrite Hm. cbn [negb].
  destruct (mapE_mark_read userId messageIds timestamp now
              (elems (messages st)) st) as (l' & n & -> & Hall).
  eff. by exists l', n.
Qed.

Lemma read_step_read userId messageIds readAt old new :
  read_step userId messageIds readAt old new →
  _id (val new) ∈ messageIds → already_read userId (val new) = true.
Proof.
  unfold read_step.
  destruct (bool_decide (_id (val old) ∈ messageIds)) eqn:Hin; cbn [andb].
  - destruct (already_read userId (val old)) eqn:Hread; cbn [negb].
    + by intros ->.
    + intros -> _. unfold already_read. cbn [readers with_readers].
      rewrite existsb_app. cbn [existsb]. unfold reader_of at 2.
      cbn [r_userId]. rewrite (bool_decide_eq_true_2 (userId = userId)) by done.
      cbn. by rewrite orb_true_r.
  - intros -> Hin'. by apply bool_decide_eq_false in Hin.
Qed.

Lemma mapE_mark_read_again userId messageIds timestamp now l st :
  Forall (λ m, _id (val m) ∈ messageIds → already_read userId (val m) = true)
    l →
  mapE (mark_read userId messageIds timestamp now) l st = (Done l, st).
Proof.
  induction 1 as [|m l Hm Hl IH]; [done|].
  cbn [mapE]. eff.
  assert (Hsame : mark_read userId messageIds timestamp now m st
                  = (Done m, st)).
  { unfold mark_read. case_bool_decide as Hin; cbn [negb]; [|done].
    by rewrite (Hm Hin). }
  by rewrite Hsame, IH.
Qed.

(** X13.  A read receipt that comes twice marks once.  After the
    ["messagesRead"] listener has run for a user and a list of ids,
    running it again for the same user and ids, with whatever timestamp,
    leaves every message object of the store as it is: the first
    [readAt] stays. *)
Theorem read_receipt_is_idempotent st userId messageIds
    timestamp now timestamp' now' :
  mountedRef st = true →
  let st1 := exec (on_messagesRead userId messageIds timestamp now) st in
  let st2 := exec (on_messagesRead userId messageIds timestamp' now') st1 in
  elems (messages st2) = elems (messages st1).
Proof.
  intros Hm st1 st2. subst st1 st2.
  destruct (on_messagesRead_mounted userId messageIds timestamp now st Hm)
    as (l' & n & Hrun & Hall).
  unfold exec at 2 3. rewrite Hrun. cbn [snd].
  unfold on_messagesRead, exec. eff.
  cbn [mountedRef set_messages set_next_ref]. rewrite Hm. cbn [negb].
  cbn [messages set_messages elems].
  rewrite mapE_mark_read_again; [done|].
  apply Forall_forall. intros new Hnew.
  apply list_elem_of_lookup in Hnew as [i Hi].
  destruct (Forall2_lookup_r _ _ _ _ _ Hall Hi) as (old & _ & Hstep).
  by eapply read_step_read.
Qed.

Lemma read_receipt_is_idempotent_witness :
  let st := sample_state None in
  let st1 := exec (on_messagesRead (Some "u1") [Some "m1"] (Some 9%Z) 10) st in
  let st2 := exec (on_messagesRead (Some "u1") [Some "m1"] None 20) st1 in
  elems (messages st2) = elems (messages st1).
Proof.
  apply (read_receipt_is_idempotent (sample_state None) (Some "u1")
           [Some "m1"] (Some 9%Z) 10%Z None 20%Z).
  reflexivity.
Defined.

(* ===================================================================== *)
(** ** Reactions, continued *)
(* ===================================================================== *)

(** X14.  When the outbound path of [handleReactionRemove] fails (no
    connection at call time, or the emit throws), the call completes
    without raising, shows its error toast, emits nothing, and leaves in
    the store exactly the message objects that were there before the
    call, for a handler whose closure holds the current store. *)
Theorem reaction_remove_failure_rolls_back st currentUser messageId reaction :
  wf st → outbound_fails st = true →
  let call :=
    handleReactionRemove (elems (messages st)) currentUser messageId
      reaction in
  result call st = Done tt
  ∧ toasts (exec call st) = toasts st ++ ["리액션 제거에 실패했습니다."]
  ∧ elems (messages (exec call st)) = elems (messages st)
  ∧ socketRef (exec call st) = socketRef st.
Proof.
  intros Hwf Hfail call. subst call.
  pose proof (reaction_handler_outcome messageId
                (remove_reaction currentUser reaction)
                (MessageReaction messageId reaction "remove")
                "리액션 제거에 실패했습니다." st Hwf
                (remove_reaction_reacts _ _)) as H.
  cbn zeta in H. by rewrite Hfail in H.
Qed.

Lemma reaction_remove_failure_rolls_back_witness :
  let st := sample_state (Some (sample_socket true true)) in
  let call :=
    handleReactionRemove (elems (messages st)) "u1" (Some "m1") "ok" in
  result call st = Done tt
  ∧ toasts (exec call st) = toasts st ++ ["리액션 제거에 실패했습니다."]
  ∧ elems (messages (exec call st)) = elems (messages st)
  ∧ socketRef (exec call st) = socketRef st.
Proof.
  apply (reaction_remove_failure_rolls_back
           (sample_state (Some (sample_socket true true))) "u1" (Some "m1")
           "ok").
  - unfold wf. cbn. repeat constructor.
  - reflexivity.
Defined.

(* ===================================================================== *)
(** ** What the events do to the store as a whole *)
(* ===================================================================== *)

Lemma stripped_ids l l' : stripped <$> l = stripped <$> l' → ids l = ids l'.
Proof.
  intros H. unfold ids.
  change (λ m, _id (val m)) with (_id ∘ stripped).
  by rewrite !list_fmap_compose, H.
Qed.

Lemma stripped_ts (l l' : list MsgObj) :
  stripped <$> l = stripped <$> l' → ts <$> l = ts <$> l'.
Proof.
  intros H.
  change ts with ((λ m, default 0%Z (timestamp m)) ∘ stripped).
  by rewrite !list_fmap_compose, H.
Qed.

Lemma sorted_by_ts_fmap (l l' : list MsgObj) :
  ts <$> l = ts <$> l' → sorted_by_ts l → sorted_by_ts l'.
Proof.
  unfold sorted_by_ts. intros Heq Hs. revert l' Heq.
  induction Hs as [|x l Hl IH Hx]; intros [|y l'] Heq; try done.
  - constructor.
  - cbn [fmap list_fmap] in Heq. injection Heq as Hxy Heq.
    constructor; [by apply IH|].
    apply Forall_forall. intros z Hz.
    assert (Hin : ts z ∈ ts <$> l).
    { rewrite Heq. apply list_elem_of_fmap. by exists z. }
    apply list_elem_of_fmap in Hin as (w & Hw & Hwl).
    rewrite Forall_forall in Hx. specialize (Hx w Hwl). lia.
Qed.

Lemma read_step_stripped userId messageIds readAt old new :
  read_step userId messageIds readAt old new → stripped new = stripped old.
Proof.
  unfold read_step. case_match; [|by intros ->].
  unfold stripped. by intros ->.
Qed.

Lemma updateSingleMessage_stripped st messageId updater :
  wf st → reacts updater →
  ∃ out st1,
    updateSingleMessage messageId updater st = (out, st1)
    ∧ stripped <$> elems (messages st1) = stripped <$> elems (messages st).
Proof.
  intros Hwf Hupd.
  destruct (updateSingleMessage_reacts st messageId updater Hwf Hupd)
    as [Hsame|[(i & old & x & Hfind & _ & Hnew)|(e & He)]].
  - by exists (Done tt), st.
  - eexists _, _. split; [exact Hnew|]. unfold replaced_at. cbn [messages
      set_messages elems]. apply stripped_insert.
    by apply list_find_Some in Hfind as (? & _).
  - by exists (Threw e), st.
Qed.

Lemma reaction_handler_stripped messageId updater ev text st :
  wf st → reacts updater →
  stripped
  <$> elems (messages
               (exec (try_catch
                        (st0 ← get;
                         (if socket_connected st0 then mret tt
                          else throw "Socket not connected");;
                         updateSingleMessage messageId updater;;
                         emit ev)
                        (λ _,
                         toast_error text;;
                         updateSingleMessage messageId
                           (rollback (elems (messages st)) messageId))) st))
  = stripped <$> elems (messages st).
Proof.
  intros Hwf Hupd.
  pose proof (reaction_handler_outcome messageId updater ev text st Hwf Hupd)
    as H. cbn zeta in H.
  destruct (outbound_fails st).
  - destruct H as (_ & _ & -> & _). done.
  - destruct H as (s & _ & H).
    destruct (updateSingleMessage_stripped st messageId updater Hwf Hupd)
      as (out & st1 & Hrun & Heq).
    rewrite Hrun in H. destruct out as [[]|e].
    + unfold exec. rewrite H. by cbn [snd messages set_socketRef].
    + destruct H as (_ & _ & -> & _). done.
Qed.

Lemma on_messagesRead_stripped userId messageIds stamp now st :
  stripped <$> elems (messages
                        (exec (on_messagesRead userId messageIds stamp now)
                           st))
  = stripped <$> elems (messages st).
Proof.
  destruct (mountedRef st) eqn:Hm.
  - destruct (on_messagesRead_mounted userId messageIds stamp now st Hm)
      as (l' & n & Hrun & Hall).
    unfold exec. rewrite Hrun. cbn [snd messages set_messages elems].
    symmetry. clear Hrun.
    induction Hall as [|old new l l' Hstep Hall IH]; [done|].
    cbn [fmap list_fmap]. f_equal; [|done].
    symmetry. by eapply read_step_stripped.
  - unfold on_messagesRead, exec. eff. by rewrite Hm.
Qed.

Lemma in_place_stripped renders ev st :
  wf st → in_place ev = true →
  current_closure renders ev st ∨ goes_through ev st →
  stripped <$> elems (messages (exec (handle renders ev) st))
  = stripped <$> elems (messages st).
Proof.
  intros Hwf Hev Hcall.
  destruct ev as [a|age response|userId messageIds timestamp0 now|data
                 |age currentUser messageId reaction
                 |age currentUser messageId reaction
                 |reason]; try done; cbn [handle].
  - apply on_messagesRead_stripped.
  - unfold on_messageReactionUpdate, exec. eff.
    destruct (mountedRef st); cbn [negb]; [|done].
    destruct (updateSingleMessage_stripped st (d_messageId data)
                (λ msg, alloc_obj (with_reactions (d_reactions data) (val msg)))
                Hwf (update_reacts _)) as (out & st1 & Hrun & Heq).
    unfold handleReactionUpdate. by rewrite Hrun.
  - destruct Hcall as [Hcur|[(s & Hready) Hplain]].
    + cbn [current_closure] in Hcur. rewrite Hcur.
      apply (reaction_handler_stripped messageId
               (add_reaction currentUser reaction)
               (MessageReaction messageId reaction "add")
               "리액션 추가에 실패했습니다." st Hwf (add_reaction_reacts _ _)).
    + unfold exec.
      rewrite (handleReactionAdd_sent _ st s _ _ _ Hwf Hready Hplain).
      cbn [snd messages set_socketRef].
      destruct (list_find _ _) as [[i m]|] eqn:Hfind; [|done].
      case_bool_decide; [done|].
      unfold replaced_at, reacted. cbn [messages set_messages elems].
      apply stripped_insert. by apply list_find_Some in Hfind as (? & _).
  - destruct Hcall as [Hcur|[(s & Hready) Hplain]].
    + cbn [current_closure] in Hcur. rewrite Hcur.
      apply (reaction_handler_stripped messageId
               (remove_reaction currentUser reaction)
               (MessageReaction messageId reaction "remove")
               "리액션 제거에 실패했습니다." st Hwf
               (remove_reaction_reacts _ _)).
    + unfold exec.
      rewrite (handleReactionRemove_sent _ st s _ _ _ Hwf Hready Hplain).
      cbn [snd messages set_socketRef].
      destruct (list_find _ _) as [[i m]|] eqn:Hfind; [|done].
      unfold replaced_at, unreacted. cbn [messages set_messages elems].
      apply stripped_insert. by apply list_find_Some in Hfind as (? & _).
Qed.

(** X15.  Read receipts and reactions change messages in place.  For
    every state whose objects were allocated before the next free
    address, a ["messagesRead"] event, a ["messageReactionUpdate"] event
    and a call of [handleReactionAdd] or [handleReactionRemove] leave the
    store with the same messages in the same positions, up to their
    reactions and readers: no message is added, dropped or moved, no id
    and no timestamp changes, and a sorted store stays sorted.  For the
    reaction calls this holds when the closure of the handler holds the
    store of the moment, whether the call succeeds or rolls back, and,
    whatever the closure holds, when the call goes through: the socket
    takes the emit and the reaction is no name of [Object.prototype]. *)
Theorem in_place_events_keep_the_log renders ev st :
  wf st → in_place ev = true →
  current_closure renders ev st ∨ goes_through ev st →
  let st' := exec (handle renders ev) st in
  stripped <$> elems (messages st') = stripped <$> elems (messages st)
  ∧ ids (elems (messages st')) = ids (elems (messages st))
  ∧ (sorted_by_ts (elems (messages st))
     → sorted_by_ts (elems (messages st'))).
Proof.
  intros Hwf Hev Hcall st'. subst st'.
  pose proof (in_place_stripped renders ev st Hwf Hev Hcall) as H.
  split; [done|]. split; [by apply stripped_ids|].
  apply sorted_by_ts_fmap. symmetry. by apply stripped_ts.
Qed.

Lemma in_place_events_keep_the_log_witness :
  let st := sample_state (Some (sample_socket true true)) in
  let st' :=
    exec (handle [elems (messages st)]
            (ReactionRemove 0 "u1" (Some "m2") "ok")) st in
  toasts st' = ["리액션 제거에 실패했습니다."]
  ∧ stripped <$> elems (messages st') = stripped <$> elems (messages st)
  ∧ ids (elems (messages st')) = ids (elems (messages st))
  ∧ (sorted_by_ts (elems (messages st))
     → sorted_by_ts (elems (messages st'))).
Proof.
  intros st st'. split; [reflexivity|].
  apply (in_place_events_keep_the_log [elems (messages st)]
           (ReactionRemove 0 "u1" (Some "m2") "ok") st).
  - unfold wf. cbn. repeat constructor.
  - reflexivity.
  - left. reflexivity.
Defined.














(* ===================================================================== *)
(** ** Reactions that reach the server *)
(* ===================================================================== *)

Lemma users_of_reacted user reaction m :
  users_of reaction (reacted user reaction m) = users_of reaction m ++ [user].
Proof.
  unfold users_of at 1, reacted. cbn [reactions with_reactions from_option id].
  by rewrite lookup_insert_eq.
Qed.

Lemma users_of_unreacted user reaction m :
  users_of reaction (unreacted user reaction m)
  = filter (λ id, id ≠ user) (users_of reaction m).
Proof.
  unfold users_of at 1, unreacted. cbn [reactions with_reactions from_option id].
  by rewrite lookup_insert_eq.
Qed.

Lemma find_replaced st messageId i m v :
  list_find (λ m, _id (val m) = messageId) (elems (messages st)) = Some (i, m) →
  _id v = _id (val m) →
  list_find (λ m, _id (val m) = messageId) (elems (messages (replaced_at i v st)))
  = Some (i, {| ref := next_ref st; val := v |}).
Proof.
  intros Hfind Hid. unfold replaced_at. cbn [messages set_messages elems].
  eapply list_find_insert_found; [done|]. cbn.
  apply list_find_Some in Hfind as (_ & <- & _). done.
Qed.

(** X17.  Over a working connection, adding the same reaction twice is
    adding it once, for a reaction that is no name of
    [Object.prototype] and handlers of any age: from any state whose
    objects were allocated before the next free address, the second
    [handleReactionAdd] of a user leaves [messages] the very array the
    first call left (no new array, no new object), while the intent is
    emitted to the server both times; after the first call the user is
    recorded under the reaction of the located message. *)
Theorem reaction_add_twice_is_once st s age age' currentUser messageId
    reaction :
  wf st → socket_ready st s → plain_key reaction →
  let st1 := after [ReactionAdd age currentUser messageId reaction] st in
  let st2 := after [ReactionAdd age currentUser messageId reaction;
                    ReactionAdd age' currentUser messageId reaction] st in
  messages st2 = messages st1
  ∧ toasts st2 = toasts st
  ∧ (∃ s2, socketRef st2 = Some s2
           ∧ outbox s2
             = outbox s ++ [MessageReaction messageId reaction "add";
                            MessageReaction messageId reaction "add"])
  ∧ ∀ i m,
      list_find (λ m, _id (val m) = messageId) (elems (messages st))
        = Some (i, m) →
      ∃ new, elems (messages st1) !! i = Some new
             ∧ currentUser ∈ users_of reaction (val new).
Proof.
  intros Hwf Hready Hplain st1 st2. subst st1 st2.
  unfold after. cbn [after_renders handle].
  set (ev := MessageReaction messageId reaction "add").
  set (st1 := exec (handleReactionAdd (rendered [elems (messages st)] age)
                      currentUser messageId reaction) st).
  assert (Hst1 : st1
    = set_socketRef (Some (sent ev s))
        (match list_find (λ m, _id (val m) = messageId) (elems (messages st))
         with
         | Some (i, m) =>
             if bool_decide (currentUser ∈ users_of reaction (val m)) then st
             else replaced_at i (reacted currentUser reaction (val m)) st
         | None => st
         end)).
  { subst st1. unfold exec.
    by rewrite (handleReactionAdd_sent _ st s _ _ _ Hwf Hready Hplain). }
  assert (Hwf1 : wf st1).
  { apply handleReactionAdd_wf; [done|]. apply rendered_bound.
    by repeat constructor. }
  assert (Hready1 : socket_ready st1 (sent ev s)).
  { rewrite Hst1. destruct Hready as (? & ? & ?). by split. }
  assert (Hst2 :
    exec (handleReactionAdd
            (rendered [elems (messages st1); elems (messages st)] age')
            currentUser messageId reaction) st1
    = set_socketRef (Some (sent ev (sent ev s)))
        (match list_find (λ m, _id (val m) = messageId) (elems (messages st1))
         with
         | Some (i, m) =>
             if bool_decide (currentUser ∈ users_of reaction (val m)) then st1
             else replaced_at i (reacted currentUser reaction (val m)) st1
         | None => st1
         end)).
  { unfold exec.
    by rewrite (handleReactionAdd_sent _ st1 (sent ev s) _ _ _ Hwf1 Hready1
                  Hplain). }
  assert (Hfound : ∀ i m,
    list_find (λ m, _id (val m) = messageId) (elems (messages st))
      = Some (i, m) →
    ∃ new, list_find (λ m, _id (val m) = messageId) (elems (messages st1))
             = Some (i, new)
           ∧ currentUser ∈ users_of reaction (val new)).
  { intros i m Hfind. rewrite Hst1, Hfind. cbn [messages set_socketRef].
    case_bool_decide as Hin.
    - by exists m.
    - eexists. split; [by apply (find_replaced st messageId i m)|]. cbn [val].
      rewrite users_of_reacted. apply elem_of_app. right.
      apply list_elem_of_here. }
  assert (Hnone :
    list_find (λ m, _id (val m) = messageId) (elems (messages st)) = None →
    list_find (λ m, _id (val m) = messageId) (elems (messages st1)) = None).
  { intros Hfind. by rewrite Hst1, Hfind. }
  split; [|split; [|split]].
  - rewrite Hst2.
    destruct (list_find (λ m, _id (val m) = messageId) (elems (messages st)))
      as [[i m]|] eqn:Hfind.
    + destruct (Hfound i m eq_refl) as (new & -> & Hin).
      by rewrite bool_decide_eq_true_2.
    + by rewrite (Hnone eq_refl).
  - rewrite Hst2.
    assert (Ht1 : toasts st1 = toasts st).
    { rewrite Hst1. cbn [toasts set_socketRef]. by repeat case_match. }
    cbn [toasts set_socketRef]. rewrite <- Ht1. by repeat case_match.
  - rewrite Hst2. eexists. split; [done|]. cbn [outbox sent].
    by rewrite <- app_assoc.
  - intros i m Hfind. destruct (Hfound i m Hfind) as (new & Hnew & Hin).
    exists new. split; [|done]. by apply list_find_Some in Hnew as (? & _).
Qed.

Lemma reaction_add_twice_is_once_witness :
  let st := sample_state (Some (sample_socket true false)) in
  messages (after [ReactionAdd 0 "u1" (Some "m1") "ok";
                   ReactionAdd 1 "u1" (Some "m1") "ok"] st)
  = messages (after [ReactionAdd 0 "u1" (Some "m1") "ok"] st).
Proof.
  intros st.
  apply (reaction_add_twice_is_once st (sample_socket true false) 0 1 "u1"
           (Some "m1") "ok").
  - unfold wf. cbn. repeat constructor.
  - by split.
  - apply (bool_decide_unpack _). vm_compute. exact I.
Defined.

(** X18.  A reaction to a message that the store does not hold, over a
    working connection: [handleReactionAdd] and [handleReactionRemove]
    still emit the intent to the server, and leave the store (the same
    array), the toasts and everything else as they are, whatever the
    closure of the handler holds. *)
Theorem reaction_to_unknown_message_is_sent renders age st s currentUser
    messageId reaction :
  wf st → socket_ready st s →
  list_find (λ m, _id (val m) = messageId) (elems (messages st)) = None →
  handle renders (ReactionAdd age currentUser messageId reaction) st
  = (Done tt,
     set_socketRef (Some (sent (MessageReaction messageId reaction "add") s))
       st)
  ∧ handle renders (ReactionRemove age currentUser messageId reaction) st
    = (Done tt,
       set_socketRef
         (Some (sent (MessageReaction messageId reaction "remove") s)) st).
Proof.
  intros Hwf (Hs & Hc & He) Hfind. cbn [handle].
  unfold handleReactionAdd, handleReactionRemove, try_catch. eff.
  unfold socket_connected. rewrite Hs, Hc. eff.
  rewrite !(updateSingleMessage_not_found _ _ _ Hfind). eff.
  unfold emit, sent. by rewrite Hs, He.
Qed.

Lemma reaction_to_unknown_message_is_sent_witness :
  let st := sample_state (Some (sample_socket true false)) in
  handle [] (ReactionAdd 0 "u1" (Some "m9") "ok") st
  = (Done tt,
     set_socketRef
       (Some (sent (MessageReaction (Some "m9") "ok" "add")
                (sample_socket true false))) st)
  ∧ handle [] (ReactionRemove 0 "u1" (Some "m9") "ok") st
    = (Done tt,
       set_socketRef
         (Some (sent (MessageReaction (Some "m9") "ok" "remove")
                  (sample_socket true false))) st).
Proof.
  intros st.
  apply (reaction_to_unknown_message_is_sent [] 0 st
           (sample_socket true false) "u1" (Some "m9") "ok").
  - unfold wf. cbn. repeat constructor.
  - by split.
  - reflexivity.
Defined.

Lemma filter_ne_snoc (user : string) (l : list string) :
  user ∉ l → filter (λ id, id ≠ user) (l ++ [user]) = l.
Proof.
  intros Hnin. rewrite filter_app, filter_cons_False, filter_nil, app_nil_r
    by (intros H; by apply H).
  induction l as [|x l IH]; [done|].
  apply not_elem_of_cons in Hnin as [Hx Hl].
  rewrite filter_cons_True by done. by rewrite IH.
Qed.

Lemma renderReactions_insert (r : gmap string (list string)) reaction users :
  renderReactions (Some (<[reaction := users]> r))
  = Some (<[reaction := length users]> (length <$> r)).
Proof.
  unfold renderReactions. rewrite bool_decide_eq_false_2.
  - by rewrite fmap_insert.
  - intros Hsize. apply map_size_empty_iff in Hsize.
    by apply insert_non_empty in Hsize.
Qed.

(** X19.  [handleReactionRemove] never deletes the key of the reaction.
    Over a working connection, for a reaction that is no name of
    [Object.prototype] and whatever the closure of the handler holds,
    the located message is always replaced by a new object, in which
    the user is no longer recorded under the reaction and the other
    users are, in their order; the reaction keeps an entry even when
    nobody is left, so that [renderReactions] shows its button with the
    number of users left, possibly 0.  In particular adding a reaction
    that the user had not given and removing it again gives back the
    list of users of before, with a button for the reaction whether
    there was one or not. *)
Theorem reaction_remove_leaves_an_entry renders age age' st s currentUser
    messageId reaction i m :
  wf st → socket_ready st s → plain_key reaction →
  list_find (λ m, _id (val m) = messageId) (elems (messages st))
    = Some (i, m) →
  (let st' :=
     exec (handle renders
             (ReactionRemove age currentUser messageId reaction)) st in
   ∃ new,
     elems (messages st') !! i = Some new
     ∧ strict_eq new m = false
     ∧ users_of reaction (val new)
       = filter (λ id, id ≠ currentUser) (users_of reaction (val m))
     ∧ renderReactions (reactions (val new))
       = Some (<[reaction := length (users_of reaction (val new))]>
                 (length <$> default ∅ (reactions (val m)))))
  ∧ (currentUser ∉ users_of reaction (val m) →
     let st'' :=
       after [ReactionAdd age currentUser messageId reaction;
              ReactionRemove age' currentUser messageId reaction] st in
     ∃ new,
       elems (messages st'') !! i = Some new
       ∧ users_of reaction (val new) = users_of reaction (val m)
       ∧ renderReactions (reactions (val new))
         = Some (<[reaction := length (users_of reaction (val m))]>
                   (length <$> default ∅ (reactions (val m))))).
Proof.
  intros Hwf Hready Hplain Hfind.
  pose proof Hfind as Hfind'.
  apply list_find_Some in Hfind' as (Hlook & Hid & _).
  split.
  - intros st'. subst st'. cbn [handle]. unfold exec.
    rewrite (handleReactionRemove_sent _ st s _ _ _ Hwf Hready Hplain).
    rewrite Hfind. unfold replaced_at.
    cbn [snd messages set_socketRef set_messages elems aref].
    eexists. split; [apply list_lookup_insert_eq; by eapply lookup_lt_Some|].
    split; [apply strict_eq_fresh; by eapply wf_found|].
    cbn [val]. rewrite users_of_unreacted. split; [done|].
    unfold unreacted. cbn [reactions with_reactions].
    by rewrite renderReactions_insert.
  - intros Hnin st''. subst st''. unfold after. cbn [after_renders handle].
    set (ev := MessageReaction messageId reaction "add").
    set (st1 := exec (handleReactionAdd (rendered [elems (messages st)] age)
                        currentUser messageId reaction) st).
    assert (Hst1 : st1
      = set_socketRef (Some (sent ev s))
          (replaced_at i (reacted currentUser reaction (val m)) st)).
    { subst st1. unfold exec.
      rewrite (handleReactionAdd_sent _ st s _ _ _ Hwf Hready Hplain).
      by rewrite Hfind, bool_decide_eq_false_2. }
    assert (Hwf1 : wf st1).
    { apply handleReactionAdd_wf; [done|]. apply rendered_bound.
      by repeat constructor. }
    assert (Hready1 : socket_ready st1 (sent ev s)).
    { rewrite Hst1. destruct Hready as (? & ? & ?). by split. }
    unfold exec at 1.
    rewrite (handleReactionRemove_sent _ st1 (sent ev s) _ _ _ Hwf1 Hready1
               Hplain).
    assert (Hfind1 :
      list_find (λ m, _id (val m) = messageId) (elems (messages st1))
      = Some (i, {| ref := next_ref st;
                    val := reacted currentUser reaction (val m) |})).
    { rewrite Hst1. cbn [messages set_socketRef].
      by apply (find_replaced st messageId i m). }
    rewrite Hfind1. unfold replaced_at at 1.
    cbn [snd messages set_socketRef set_messages elems val].
    eexists. split.
    { apply list_lookup_insert_eq.
      apply list_find_Some in Hfind1 as (Hl & _). by eapply lookup_lt_Some. }
    cbn [val]. rewrite users_of_unreacted, users_of_reacted.
    rewrite filter_ne_snoc by done. split; [done|].
    unfold unreacted. cbn [reactions with_reactions].
    rewrite renderReactions_insert. f_equal.
    rewrite users_of_reacted, filter_ne_snoc by done.
    unfold reacted. cbn [reactions with_reactions from_option id].
    by rewrite fmap_insert, insert_insert_eq.
Qed.

Lemma reaction_remove_leaves_an_entry_witness :
  let st := sample_state (Some (sample_socket true false)) in
  let st'' := after [ReactionAdd 0 "u1" (Some "m1") "ok";
                     ReactionRemove 1 "u1" (Some "m1") "ok"] st in
  ∃ new,
    elems (messages st'') !! 0 = Some new
    ∧ users_of "ok" (val new) = []
    ∧ renderReactions (reactions (val new)) = Some {["ok" := 0]}.
Proof.
  intros st.
  apply (proj2 (reaction_remove_leaves_an_entry [] 0 1 st
                  (sample_socket true false)
                  "u1" (Some "m1") "ok" 0
                  {| ref := 1; val := sample_message "m1" 5 |}
                  ltac:(unfold wf; cbn; repeat constructor)
                  ltac:(by split)
                  ltac:(apply (bool_decide_unpack _); vm_compute; exact I)
                  eq_refl)).
  cbn. apply not_elem_of_nil.
Defined.

(* ===================================================================== *)
(** ** MessageActions.js: the reaction buttons *)
(* ===================================================================== *)

Lemma filter_ne_idemp (user : string) (l : list string) :
  filter (λ id, id ≠ user) (filter (λ id, id ≠ user) l)
  = filter (λ id, id ≠ user) l.
Proof. rewrite list_filter_filter. apply list_filter_iff. tauto. Qed.

Lemma filter_ne_app_self (user : string) (l : list string) :
  filter (λ id, id ≠ user) (l ++ [user]) = filter (λ id, id ≠ user) l.
Proof.
  rewrite filter_app, filter_cons_False, filter_nil, app_nil_r; [done|].
  intros H. by apply H.
Qed.

(** X20.  A click on a reaction toggles it.  [handleReactionSelect], given
    the reactions of the stored message, the current user and the two
    handlers of the hook, whatever their closures hold, over a working
    connection and for a character that is no name of
    [Object.prototype]: afterwards the user is recorded under the
    reaction exactly when they were not before; the other users of the
    reaction are the same, in the same order; and one intent is emitted,
    ["remove"] if the user had reacted and ["add"] if not. *)
Theorem reaction_select_toggles (captured captured' : list MsgObj) st s user
    messageId emoji i m :
  wf st → socket_ready st s → plain_key (emojiChar emoji) →
  list_find (λ m, _id (val m) = Some messageId) (elems (messages st))
    = Some (i, m) →
  let reaction := emojiChar emoji in
  let st' :=
    exec (handleReactionSelect (reactions (val m)) (Some user) messageId
            (handleReactionAdd captured user)
            (handleReactionRemove captured' user) emoji) st in
  ∃ new s',
    elems (messages st') !! i = Some new
    ∧ (user ∈ users_of reaction (val new)
       ↔ user ∉ users_of reaction (val m))
    ∧ filter (λ id, id ≠ user) (users_of reaction (val new))
      = filter (λ id, id ≠ user) (users_of reaction (val m))
    ∧ socketRef st' = Some s'
    ∧ outbox s'
      = outbox s
        ++ [MessageReaction (Some messageId) reaction
              (if bool_decide (user ∈ users_of reaction (val m))
               then "remove" else "add")].
Proof.
  intros Hwf Hready Hplain Hfind reaction st'. subst st'.
  pose proof Hfind as Hfind'.
  apply list_find_Some in Hfind' as (Hlook & _).
  assert (Hlen : i < length (elems (messages st)))
    by (by eapply lookup_lt_Some).
  assert (Hreacted :
    match reactions (val m) with
    | Some r =>
        match get_property r reaction with
        | Own users =>
            mret (match Some user with
                  | Some u => bool_decide (u ∈ users)
                  | None => false
                  end)
        | Inherited => throw "TypeError"
        | Undefined => mret false
        end
    | None => mret false
    end = (mret (bool_decide (user ∈ users_of reaction (val m))) : Eff bool)).
  { unfold users_of, get_property.
    destruct (reactions (val m)) as [r|]; cbn [default from_option id].
    - destruct (r !! reaction); cbn [default from_option id]; [done|].
      rewrite (bool_decide_eq_false_2 (reaction ∈ Object_prototype)) by done.
      by rewrite (bool_decide_eq_false_2 (user ∈ [])) by apply not_elem_of_nil.
    - rewrite lookup_empty. cbn [default from_option id].
      by rewrite (bool_decide_eq_false_2 (user ∈ [])) by apply not_elem_of_nil. }
  assert (Hcall :
    handleReactionSelect (reactions (val m)) (Some user) messageId
      (handleReactionAdd captured user)
      (handleReactionRemove captured' user) emoji st
    = (if bool_decide (user ∈ users_of reaction (val m))
       then handleReactionRemove captured' user (Some messageId) reaction
       else handleReactionAdd captured user (Some messageId) reaction) st).
  { unfold handleReactionSelect. fold reaction. by rewrite Hreacted. }
  unfold exec. rewrite Hcall. clear Hcall Hreacted.
  case_bool_decide as Hin.
  - rewrite (handleReactionRemove_sent _ st s _ _ _ Hwf Hready Hplain).
    rewrite Hfind. unfold replaced_at.
    cbn [snd messages set_socketRef set_messages elems socketRef].
    eexists _, _. split; [by apply list_lookup_insert_eq|]. cbn [val].
    rewrite users_of_unreacted. split; [|split; [|done]].
    + rewrite list_elem_of_filter. tauto.
    + apply filter_ne_idemp.
  - rewrite (handleReactionAdd_sent _ st s _ _ _ Hwf Hready Hplain).
    rewrite Hfind, bool_decide_eq_false_2 by done. unfold replaced_at.
    cbn [snd messages set_socketRef set_messages elems socketRef].
    eexists _, _. split; [by apply list_lookup_insert_eq|]. cbn [val].
    rewrite users_of_reacted. split; [|split; [|done]].
    + split; [done|]. intros _. apply elem_of_app. right.
      apply list_elem_of_here.
    + apply filter_ne_app_self.
Qed.

Lemma reaction_select_toggles_witness :
  let st := sample_state (Some (sample_socket true false)) in
  let m := {| ref := 1; val := sample_message "m1" 5 |} in
  let st' :=
    exec (handleReactionSelect (reactions (val m)) (Some "u1") "m1"
            (handleReactionAdd (elems (messages st)) "u1")
            (handleReactionRemove (elems (messages st)) "u1") (Plain "ok"))
      st in
  ∃ new s',
    elems (messages st') !! 0 = Some new
    ∧ ("u1" ∈ users_of "ok" (val new) ↔ "u1" ∉ users_of "ok" (val m))
    ∧ filter (λ id, id ≠ "u1") (users_of "ok" (val new))
      = filter (λ id, id ≠ "u1") (users_of "ok" (val m))
    ∧ socketRef st' = Some s'
    ∧ outbox s' = [MessageReaction (Some "m1") "ok" "add"].
Proof.
  intros st m.
  apply (reaction_select_toggles (elems (messages st)) (elems (messages st))
           st (sample_socket true false) "u1" "m1" (Plain "ok") 0 m).
  - unfold wf. cbn. repeat constructor.
  - by split.
  - apply (bool_decide_unpack _). vm_compute. exact I.
  - reflexivity.
Defined.

(* ===================================================================== *)
(** ** ChatInput.js *)
(* ===================================================================== *)

Lemma trimStart_white t : Forall (λ c, is_white c = true) t → trimStart t = [].
Proof. induction 1 as [|c t Hc Ht IH]; [done|]. cbn. by rewrite Hc. Qed.

Lemma trim_white t : Forall (λ c, is_white c = true) t → trim t = [].
Proof. intros H. unfold trim. by rewrite (trimStart_white t H). Qed.

(** X21.  The submit lock of [handleSubmit].  While a submission is in
    flight (between the call that handed it to [submit] and the moment
    its promise settles) every further call returns at once: nothing is
    sent and nothing changes.  A call that sends nothing (a text that is
    empty or white space only and no file, or a duplicate) leaves the
    component exactly as it was, the lock free.  When the promise
    settles, fulfilled or rejected, the lock is free again; the textarea
    is emptied only if it was fulfilled. *)
Theorem submit_lock_guards_one_submission now i :
  submitLockRef i = false →
  (∀ i1, handleSubmit now i = (i1, None) → i1 = i)
  ∧ (files i = [] → Forall (λ c, is_white c = true) (value i) →
     handleSubmit now i = (i, None))
  ∧ (∀ i1 sent,
       handleSubmit now i = (i1, Some sent) →
       submitLockRef i1 = true
       ∧ value i1 = value i
       ∧ (∀ now' v, handleSubmit now' (set_value v i1)
                    = (set_value v i1, None))
       ∧ ∀ resolved,
           let i2 := handleSubmit_resume sent resolved i1 in
           submitLockRef i2 = false
           ∧ value i2 = (if resolved then [] else value i)
           ∧ lastSubmitRef i2 = lastSubmitRef i1).
Proof.
  intros Hlock.
  assert (Hsame : set_submitLockRef false (set_submitLockRef true i) = i).
  { destruct i. cbn in *. by subst. }
  split; [|split].
  - intros i1. unfold handleSubmit. rewrite Hlock.
    cbn [files set_submitLockRef value lastSubmitRef].
    repeat case_match; intros [= <-]; done.
  - intros Hfiles Hwhite. unfold handleSubmit. rewrite Hlock.
    cbn [files set_submitLockRef value]. rewrite Hfiles, (trim_white _ Hwhite).
    rewrite bool_decide_eq_false_2 by (by intros H). by rewrite Hsame.
  - intros i1 sent. unfold handleSubmit. rewrite Hlock.
    cbn [files set_submitLockRef value lastSubmitRef].
    repeat case_match; intros [= <- <-]; cbn;
      (split; [done|]); (split; [done|]); (split; [done|]);
      intros []; done.
Qed.

Lemma submit_lock_guards_one_submission_witness :
  handleSubmit 1000 (typed "  ") = (typed "  ", None).
Proof.
  apply (proj1 (proj2 (submit_lock_guards_one_submission 1000 (typed "  ")
                         eq_refl))).
  - reflexivity.
  - repeat constructor.
Defined.

(** X22.  The duplicate window of [handleSubmit].  After a text was
    handed to [submit] at the instant [now], whether its promise was
    fulfilled or rejected, a later call with the same text (up to the
    white space that [trim] strips) and no file sends it again exactly
    when at least 700 ms have passed since [now]; before that the call
    sends nothing, a retry after a failed send included.  A different
    text is sent at any time. *)
Theorem submit_duplicate_window now i i1 sent resolved v now' :
  submitLockRef i = false → files i = [] →
  handleSubmit now i = (i1, Some sent) →
  let j := set_value v (handleSubmit_resume sent resolved i1) in
  (trim v = s_content sent →
   ((handleSubmit now' j).2 = None ↔ (now' - now < 700)%Z))
  ∧ (trim v ≠ [] → trim v ≠ s_content sent →
     (handleSubmit now' j).2
     = Some {| s_type := "text"; s_content := trim v; s_fileData := None |}).
Proof.
  intros Hlock Hfiles. unfold handleSubmit at 1. rewrite Hlock.
  cbn [files set_submitLockRef value lastSubmitRef]. rewrite Hfiles.
  case_bool_decide as Htext; [|done].
  case_match; [done|]. intros [= <- <-].
  unfold handleSubmit_resume. cbn [s_type s_content].
  rewrite bool_decide_eq_false_2 by done.
  match goal with |- context [handleSubmit now' ?x] => set (j0 := x) end.
  assert (Hj : submitLockRef j0 = false ∧ files j0 = [] ∧ value j0 = v
               ∧ lastSubmitRef j0
                 = {| l_type := Some "text";
                      l_content := Some (trim (value i));
                      l_fileName := None; l_time := now |}).
  { subst j0. destruct resolved; cbn; by rewrite ?Hfiles. }
  destruct Hj as (Hl & Hf & Hv & Hlast). clearbody j0.
  unfold handleSubmit. rewrite Hl.
  cbn [files set_submitLockRef value lastSubmitRef]. rewrite Hf, Hv, Hlast.
  cbn [l_type l_content l_time]. split.
  - intros Heq. rewrite Heq, bool_decide_eq_true_2 by done.
    rewrite !bool_decide_eq_true_2 by done. cbn [andb].
    destruct (now' - now <? 700)%Z eqn:Hlt; cbn [snd].
    + apply Z.ltb_lt in Hlt. tauto.
    + apply Z.ltb_ge in Hlt. split; [done|lia].
  - intros Hne Hdiff. rewrite bool_decide_eq_true_2 by done.
    rewrite (bool_decide_eq_false_2 (Some (trim (value i)) = Some (trim v)))
      by congruence.
    by rewrite andb_false_r.
Qed.

Lemma submit_duplicate_window_witness :
  let i := typed "hi" in
  ∃ i1 sent,
    handleSubmit 1000 i = (i1, Some sent)
    ∧ ((handleSubmit 1500
          (set_value (text_of " hi ") (handleSubmit_resume sent false i1))).2
       = None
       ↔ (1500 - 1000 < 700)%Z).
Proof.
  intros i. eexists _, _. split; [reflexivity|].
  apply (proj1 (submit_duplicate_window 1000 i _ _ false (text_of " hi ")
                  1500 eq_refl eq_refl eq_refl)).
  reflexivity.
Defined.

Lemma rem_small (a n : Z) : (0 ≤ a < n)%Z → Z.rem a n = a.
Proof. intros. apply Z.rem_small. lia. Qed.

Lemma arrow_down listLength now j :
  showMentionList j = true →
  handleKeyDown listLength now (press ArrowDown) j
  = (set_mentionIndex
       (js_rem ((λ prev, prev + 1)%Z <$> mentionIndex j)
          (Z.of_nat listLength)) j, None).
Proof. intros H. unfold handleKeyDown, press. cbn. by rewrite H. Qed.

Lemma arrow_up listLength now j :
  showMentionList j = true →
  handleKeyDown listLength now (press ArrowUp) j
  = (set_mentionIndex
       (js_rem ((λ prev, prev - 1 + Z.of_nat listLength)%Z <$> mentionIndex j)
          (Z.of_nat listLength)) j, None).
Proof. intros H. unfold handleKeyDown, press. cbn. by rewrite H. Qed.

Lemma js_rem_Some x n : n ≠ 0%Z → js_rem (Some x) n = Some (Z.rem x n).
Proof. intros H. unfold js_rem. cbn. by rewrite (proj2 (Z.eqb_neq n 0)). Qed.

(** X23.  The arrow keys in the open mention list.  Over a list of
    [n > 0] candidates and an index that is not negative, ArrowDown and
    ArrowUp keep the index inside the list, [0 .. n-1]; from an index
    inside the list they are inverse to each other, wrapping around at
    both ends; neither sends anything nor touches the text.  Over an
    empty list they turn the index into [NaN], and it stays [NaN] under
    further arrow keys, whatever the list then holds. *)
Theorem mention_arrows_cycle listLength now i prev :
  showMentionList i = true → mentionIndex i = Some prev →
  let n := Z.of_nat listLength in
  let down j := (handleKeyDown listLength now (press ArrowDown) j).1 in
  let up j := (handleKeyDown listLength now (press ArrowUp) j).1 in
  (∀ k, k = ArrowDown ∨ k = ArrowUp →
        (handleKeyDown listLength now (press k) i).2 = None
        ∧ value (handleKeyDown listLength now (press k) i).1 = value i)
  ∧ ((0 < n)%Z → (0 ≤ prev)%Z →
     ∃ d u,
       mentionIndex (down i) = Some d ∧ (0 ≤ d < n)%Z
       ∧ mentionIndex (up i) = Some u ∧ (0 ≤ u < n)%Z
       ∧ ((prev < n)%Z →
          mentionIndex (up (down i)) = Some prev
          ∧ mentionIndex (down (up i)) = Some prev))
  ∧ (listLength = 0 →
     mentionIndex (down i) = None
     ∧ mentionIndex (up i) = None
     ∧ ∀ listLength' k,
         k = ArrowDown ∨ k = ArrowUp →
         mentionIndex (handleKeyDown listLength' now (press k) (down i)).1
         = None).
Proof.
  intros Hshow Hidx n down up. subst down up.
  split; [|split].
  - intros k [-> | ->]; by rewrite ?arrow_down, ?arrow_up.
  - intros Hn Hprev.
    rewrite !arrow_down, !arrow_up by (by rewrite ?arrow_down, ?arrow_up).
    cbn [fst mentionIndex set_mentionIndex]. rewrite Hidx.
    cbn [fmap option_fmap option_map]. fold n.
    rewrite !js_rem_Some by lia. cbn [fmap option_fmap option_map].
    rewrite !js_rem_Some by lia.
    eexists _, _. split; [done|].
    split; [apply Z.rem_bound_pos; lia|].
    split; [done|]. split; [apply Z.rem_bound_pos; lia|].
    intros Hlt. split; f_equal.
    + destruct (decide (prev + 1 = n)%Z) as [Heq|Hne].
      * rewrite Heq, Z.rem_same by lia. rewrite rem_small by lia; lia.
      * rewrite (rem_small (prev + 1)) by lia.
        replace (prev + 1 - 1 + n)%Z with (prev + 1 * n)%Z by lia.
        rewrite Z.rem_add by nia. rewrite rem_small by lia; lia.
    + destruct (decide (prev = 0)%Z) as [->|Hne].
      * rewrite (rem_small (0 - 1 + n)) by lia.
        replace (0 - 1 + n + 1)%Z with n by lia.
        rewrite Z.rem_same by lia. lia.
      * replace (prev - 1 + n)%Z with (prev - 1 + 1 * n)%Z by lia.
        rewrite Z.rem_add by nia. rewrite (rem_small (prev - 1)) by lia.
        rewrite rem_small by lia; lia.
  - intros ->. rewrite !arrow_down, !arrow_up by done.
    cbn [fst mentionIndex set_mentionIndex]. rewrite Hidx.
    split; [done|]. split; [done|].
    intros listLength' k [-> | ->]; by rewrite ?arrow_down, ?arrow_up.
Qed.

Lemma mention_arrows_cycle_witness :
  let i := set_showMentionList true (typed "@a") in
  let down j := (handleKeyDown 3 0 (press ArrowDown) j).1 in
  let up j := (handleKeyDown 3 0 (press ArrowUp) j).1 in
  mentionIndex (up i) = Some 2%Z
  ∧ mentionIndex (down (up i)) = Some 0%Z.
Proof.
  intros i down up.
  destruct (proj1 (proj2 (mention_arrows_cycle 3 0 i 0 eq_refl eq_refl))
              ltac:(done) ltac:(done))
    as (d & u & Hd & _ & Hu & _ & Hinv).
  split; [reflexivity|]. apply Hinv. done.
Defined.

(* ===================================================================== *)
(** ** ChatInput.js: mentions *)
(* ===================================================================== *)

Lemma lastIndexOf_None c t : lastIndexOf c t = None ↔ c ∉ t.
Proof.
  induction t as [|x t IH]; cbn [lastIndexOf].
  - split; [intros _; apply not_elem_of_nil|done].
  - rewrite not_elem_of_cons. destruct (lastIndexOf c t) as [i|].
    + split; [done|]. intros [_ Hc]. by apply IH in Hc.
    + case_bool_decide as Hx.
      * split; [done|]. intros [Hne _]. congruence.
      * split; [|done]. intros _. split; [congruence|]. by apply IH.
Qed.

Lemma lastIndexOf_app c p f :
  c ∉ f → lastIndexOf c (p ++ c :: f) = Some (length p).
Proof.
  intros Hf. induction p as [|x p IH]; cbn [app lastIndexOf length].
  - rewrite (proj2 (lastIndexOf_None c f) Hf).
    by rewrite bool_decide_eq_true_2.
  - by rewrite IH.
Qed.

Lemma lastIndexOf_Some c t i :
  lastIndexOf c t = Some i →
  t = take i t ++ c :: drop (S i) t ∧ (c ∉ drop (S i) t) ∧ i < length t.
Proof.
  revert i. induction t as [|x t IH]; intros i; cbn [lastIndexOf]; [done|].
  destruct (lastIndexOf c t) as [j|] eqn:Hj.
  - intros [= <-]. destruct (IH j eq_refl) as (Heq & Hnin & Hlt).
    cbn [take drop length]. split; [|split; [done|lia]].
    cbn [app]. by rewrite <- Heq.
  - case_bool_decide as Hx; [|done]. intros [= <-]. subst x.
    cbn [take drop length app]. rewrite drop_0.
    split; [done|]. split; [by apply lastIndexOf_None|lia].
Qed.

Lemma lastIndexOf_snoc c x t :
  x ≠ c → lastIndexOf c (t ++ [x]) = lastIndexOf c t.
Proof.
  intros Hx. induction t as [|y t IH]; cbn [app lastIndexOf].
  - by rewrite bool_decide_eq_false_2.
  - by rewrite IH.
Qed.

(** X24.  Where the mention list opens.  [handleInputChange] looks at
    the text before the cursor: the list is shown exactly when that text
    holds an ["@"] with no space between its last ["@"] and the cursor;
    the filter is then the text after that ["@"], in lower case, and the
    index is back at 0.  The value of the textarea is recorded as it
    is. *)
Theorem mention_list_opens_after_at toLowerCase v cursor i :
  let i' := handleInputChange toLowerCase v cursor i in
  value i' = v ∧ rawMessage i' = v
  ∧ (at_sign ∉ take cursor v → showMentionList i' = false)
  ∧ ∀ p f,
      take cursor v = p ++ at_sign :: f → at_sign ∉ f →
      if bool_decide (space ∈ f) then showMentionList i' = false
      else showMentionList i' = true
           ∧ mentionFilter i' = toLowerCase f
           ∧ mentionIndex i' = Some 0%Z.
Proof.
  intros i'. subst i'. unfold handleInputChange.
  split; [by repeat case_match|]. split; [by repeat case_match|]. split.
  - intros Hnone. by rewrite (proj2 (lastIndexOf_None _ _) Hnone).
  - intros p f Heq Hf. rewrite Heq, (lastIndexOf_app _ _ _ Hf).
    assert (Hdrop : drop (length p + 1) (p ++ at_sign :: f) = f).
    { rewrite (cons_middle at_sign p f), app_assoc. apply drop_app_length'.
      rewrite length_app. cbn. lia. }
    rewrite Hdrop. by case_bool_decide.
Qed.

Lemma mention_list_opens_after_at_witness :
  let i' := handleInputChange (λ t, t) (text_of "hi @al") 6 initial_input in
  if bool_decide (space ∈ text_of "al") then showMentionList i' = false
  else showMentionList i' = true
       ∧ mentionFilter i' = text_of "al"
       ∧ mentionIndex i' = Some 0%Z.
Proof.
  apply (proj2 (proj2 (proj2
           (mention_list_opens_after_at (λ t, t) (text_of "hi @al") 6
              initial_input))) (text_of "hi ") (text_of "al")).
  - reflexivity.
  - vm_compute. intros H. repeat (apply elem_of_cons in H as [H|H]; [done|]).
    by apply elem_of_nil in H.
Defined.

(** X25.  Picking a mention.  With an ["@"] before the cursor,
    [handleMentionSelect] replaces the text from the last such ["@"] up
    to the cursor by ["@"], the name and a space: the text in front of
    the ["@"] and the text behind the cursor are kept, and the cursor
    stands right behind the inserted space.  The list is closed, and
    [handleInputChange] at the new cursor keeps it closed, whatever the
    name holds.  Without an ["@"] before the cursor nothing happens. *)
Theorem mention_select_replaces_the_trigger name i :
  let cursor := selectionStart i in
  let i' := handleMentionSelect name i in
  (at_sign ∉ take cursor (value i) → i' = i)
  ∧ ∀ lastAt,
      lastIndexOf at_sign (take cursor (value i)) = Some lastAt →
      value i'
      = take lastAt (value i) ++ at_sign :: name ++ space
          :: drop cursor (value i)
      ∧ selectionStart i' = lastAt + length name + 2
      ∧ take (selectionStart i') (value i')
        = take lastAt (value i) ++ at_sign :: name ++ [space]
      ∧ drop (selectionStart i') (value i') = drop cursor (value i)
      ∧ showMentionList i' = false
      ∧ ∀ toLowerCase,
          showMentionList
            (handleInputChange toLowerCase (value i') (selectionStart i') i')
          = false.
Proof.
  intros cursor i'. subst cursor i'. unfold handleMentionSelect. split.
  { intros Hnone. by rewrite (proj2 (lastIndexOf_None _ _) Hnone). }
  intros lastAt Hlast. rewrite Hlast.
  destruct (lastIndexOf_Some _ _ _ Hlast) as (_ & _ & Hlt).
  set (v := value i) in *. set (cursor := selectionStart i) in *.
  assert (Hle : lastAt ≤ cursor).
  { rewrite length_take in Hlt. lia. }
  assert (Htake : take lastAt (take cursor v) = take lastAt v).
  { rewrite take_take. f_equal. lia. }
  assert (Hlen : length (take lastAt v) = lastAt).
  { rewrite length_take in Hlt |- *. lia. }
  cbn [value selectionStart showMentionList set_showMentionList
    set_rawMessage set_selectionStart set_value]. rewrite Htake.
  assert (Hpos : lastAt + length (at_sign :: name ++ [space])
                 = length (take lastAt v ++ at_sign :: name ++ [space])).
  { rewrite length_app, Hlen. done. }
  assert (Hval : take lastAt v ++ (at_sign :: name ++ [space]) ++ drop cursor v
                 = (take lastAt v ++ at_sign :: name ++ [space])
                   ++ drop cursor v).
  { by rewrite <- !app_assoc. }
  split.
  { cbn [app]. by rewrite <- app_assoc. }
  split.
  { cbn [length]. rewrite length_app. cbn. lia. }
  assert (Hbefore :
    take (lastAt + length (at_sign :: name ++ [space]))
      (take lastAt v ++ (at_sign :: name ++ [space]) ++ drop cursor v)
    = take lastAt v ++ at_sign :: name ++ [space]).
  { rewrite Hval, Hpos. by rewrite take_app_length. }
  split; [done|]. split.
  { rewrite Hval, Hpos. by rewrite drop_app_length. }
  split; [done|]. intros toLowerCase. unfold handleInputChange.
  rewrite Hbefore.
  replace (take lastAt v ++ at_sign :: name ++ [space])
    with ((take lastAt v ++ at_sign :: name) ++ [space])
    by (by rewrite <- app_assoc).
  rewrite lastIndexOf_snoc by done.
  destruct (lastIndexOf at_sign (take lastAt v ++ at_sign :: name))
    as [k|] eqn:Hk.
  - destruct (lastIndexOf_Some _ _ _ Hk) as (_ & _ & Hklt).
    rewrite drop_app_le by lia.
    rewrite bool_decide_eq_true_2; [done|].
    apply elem_of_app. right. apply list_elem_of_here.
  - done.
Qed.

Lemma mention_select_replaces_the_trigger_witness :
  let i := typed "hi @al" in
  let i' := handleMentionSelect (text_of "alice") i in
  value i' = text_of "hi @alice "
  ∧ selectionStart i' = 10
  ∧ take (selectionStart i') (value i') = text_of "hi @alice "
  ∧ drop (selectionStart i') (value i') = []
  ∧ showMentionList i' = false
  ∧ ∀ toLowerCase,
      showMentionList
        (handleInputChange toLowerCase (value i') (selectionStart i') i')
      = false.
Proof.
  intros i.
  apply (proj2 (mention_select_replaces_the_trigger (text_of "alice") i) 3).
  reflexivity.
Defined.

(* ===================================================================== *)
(** ** History batches through the listener, and the retry *)
(* ===================================================================== *)

Lemma accept_processing b msg st :
  accept msg (set_messageProcessingRef b st)
  = ((accept msg st).1, set_messageProcessingRef b (accept msg st).2).
Proof.
  rewrite !accept_spec. cbn [fst snd]. unfold rejected.
  change (seen (set_messageProcessingRef b st)) with (seen st).
  destruct (negb _ || _); [done|].
  by destruct (_id (val msg)).
Qed.

Lemma filterE_accept_processing b l st :
  filterE accept l (set_messageProcessingRef b st)
  = ((filterE accept l st).1,
     set_messageProcessingRef b (filterE accept l st).2).
Proof.
  revert st. induction l as [|x l IH]; intros st; [done|].
  cbn [filterE]. eff. rewrite accept_processing.
  destruct (accept x st) as [[bx|e] st1]; cbn [fst snd]; [|done].
  rewrite IH. by destruct (filterE accept l st1) as [[acc|e] st2].
Qed.

Lemma processMessages_processing b loaded hasMore isInitialLoad st :
  processMessages loaded hasMore isInitialLoad (set_messageProcessingRef b st)
  = ((processMessages loaded hasMore isInitialLoad st).1,
     set_messageProcessingRef b
       (processMessages loaded hasMore isInitialLoad st).2).
Proof.
  destruct loaded as [| |l]; [done|done|].
  unfold processMessages. eff.
  cbn [messages set_messageProcessingRef]. rewrite filterE_accept_processing.
  destruct (filterE_accept l st) as (acc & S & -> & _).
  cbn [fst snd]. by destruct isInitialLoad.
Qed.

Lemma handlePreviousMessages_batch (messages0 : list MsgObj) loaded hasMore st :
  idle st →
  handlePreviousMessages messages0 (RespObject (IsArray loaded) hasMore) st
  = (Done tt,
     set_loadingMessages false
       (exec (processMessages (IsArray loaded) hasMore
                (bool_decide (length messages0 = 0))) st)).
Proof.
  intros [Hm Hp]. unfold handlePreviousMessages, previousMessages_body.
  eff. rewrite Hm, Hp. cbn [negb orb]. eff.
  rewrite processMessages_processing.
  destruct (processMessages_store loaded hasMore
              (bool_decide (length messages0 = 0)) st)
    as (acc & st' & Hrun & _).
  unfold exec. rewrite Hrun. cbn [fst snd].
  assert (Hp' : messageProcessingRef st' = false).
  { pose proof (keeps_phase_processMessages false (IsArray loaded) hasMore
                  (bool_decide (length messages0 = 0)) st (conj Hm Hp)) as H.
    unfold exec in H. rewrite Hrun in H. apply H. }
  destruct st'. cbn in *. by subst.
Qed.

(** X26.  The listener of ["previousMessages"] is [processMessages] and
    two flags.  On a mounted hook that is not in the middle of a batch,
    as every hook is between two events, a well-formed payload is
    handled without an error: an absent [messages] field counts as the
    empty batch, the batch goes through [processMessages] as an initial
    load exactly when the [messages] that the closure captured are
    empty, and [loadingMessages] is cleared.  So what holds of
    [processMessages] holds of the event: on a store taken in through the
    seen ids the store afterwards holds no id twice and still holds
    every object it held, and it is sorted by timestamp when the
    timestamps of the store and of the batch are within the range of
    [Date]. *)
Theorem history_event_is_a_batch (captured : list MsgObj) st msgs hasMore :
  idle st → msgs ≠ NotArray →
  let loaded := match msgs with IsArray l => l | _ => [] end in
  let st' := exec (handlePreviousMessages captured
                     (RespObject msgs hasMore)) st in
  st' = set_loadingMessages false
          (exec (processMessages (IsArray loaded) hasMore
                   (bool_decide (length captured = 0))) st)
  ∧ error st' = error st
  ∧ hasMoreMessages st' = hasMore
  ∧ idle st'
  ∧ (stored_once st →
     stored_once st'
     ∧ (∀ m, m ∈ elems (messages st) → m ∈ elems (messages st'))
     ∧ (dated_store st → Forall (λ m, dated (val m)) loaded →
        sorted_by_ts (elems (messages st')))).
Proof.
  intros Hidle Hmsgs loaded st'.
  set (st1 := exec (processMessages (IsArray loaded) hasMore
                      (bool_decide (length captured = 0))) st).
  assert (Hst' : st' = set_loadingMessages false st1).
  { subst st' st1. unfold exec at 1.
    replace (handlePreviousMessages captured
               (RespObject msgs hasMore) st)
      with (handlePreviousMessages captured
              (RespObject (IsArray loaded) hasMore) st)
      by (by destruct msgs).
    by rewrite (handlePreviousMessages_batch _ _ _ _ Hidle). }
  clearbody st'. subst st'.
  destruct (processMessages_store loaded hasMore
              (bool_decide (length captured = 0)) st)
    as (acc & st2 & Hp & _ & _ & _ & _ & _ & Hmore).
  assert (Hst1 : st1 = st2) by (subst st1; unfold exec; by rewrite Hp).
  split; [done|]. split.
  { assert (Hk : keeps (λ s, error s = error st)
                   (processMessages (IsArray loaded) hasMore
                      (bool_decide (length captured = 0)))).
    { by apply quiet_processMessages. }
    apply (Hk st eq_refl). }
  split; [by rewrite Hst1|].
  split.
  { apply (keeps_phase_processMessages false (IsArray loaded) hasMore
             (bool_decide (length captured = 0)) st Hidle). }
  intros Hinv.
  destruct (processMessages_stored_once loaded hasMore
              (bool_decide (length captured = 0)) st Hinv)
    as (acc' & Hst & Hsub & Hinv').
  fold st1 in Hst, Hinv'. cbn [messages set_loadingMessages].
  split; [done|]. split.
  - intros m Hm. rewrite Hst, js_sort_perm. apply elem_of_app. by left.
  - intros Hdst Hdl. rewrite Hst. apply js_sort_sorted, Forall_app.
    split; [done|]. apply Forall_forall. intros x Hx.
    rewrite Forall_forall in Hdl.
    by apply Hdl, (elem_of_sublist _ _ _ Hx Hsub).
Qed.

Lemma history_event_is_a_batch_witness :
  let st := sample_state None in
  let st' := exec (handlePreviousMessages (elems (messages st))
                     (RespObject Absent (Some false))) st in
  st' = set_loadingMessages false
          (exec (processMessages (IsArray []) (Some false)
                   (bool_decide (length (elems (messages st)) = 0))) st)
  ∧ error st' = error st
  ∧ hasMoreMessages st' = Some false
  ∧ idle st'
  ∧ (stored_once st →
     stored_once st'
     ∧ (∀ m, m ∈ elems (messages st) → m ∈ elems (messages st'))
     ∧ (dated_store st → Forall (λ m : MsgObj, dated (val m)) [] →
        sorted_by_ts (elems (messages st')))).
Proof.
  apply (history_event_is_a_batch (elems (messages (sample_state None)))
           (sample_state None) Absent (Some false)).
  - by split.
  - discriminate.
Defined.

(** X27.  [retryMessageLoad] on a mounted hook with a room asks the
    loader for the room again, sets the attempt counter to 0, and forgets
    what was seen while keeping what is stored: afterwards every
    candidate with an id passes admission, also those in the store, and
    the store is kept as it is; the batch that answers the retry cannot
    store an id twice. *)
Theorem retry_forgets_seen_ids p room :
  mountedRef (hook p) = true → roomId (hook p) = Some room → room ≠ "" →
  let p' := retryMessageLoad p in
  messages (hook p') = messages (hook p)
  ∧ loads p' = loads p ++ [room]
  ∧ messageLoadAttemptRef p' = 0
  ∧ initialLoadCompletedRef (hook p') = false
  ∧ (∀ m, rejected (hook p') m = negb (truthy (_id m)))
  ∧ ∀ loaded hasMore isInitialLoad,
      NoDup (ids (elems (messages
                (exec (processMessages (IsArray loaded) hasMore isInitialLoad)
                   (hook p'))))).
Proof.
  intros Hm Hroom Hne p'. subst p'. unfold retryMessageLoad.
  rewrite Hroom, Hm. cbn [negb orb truthy].
  rewrite (proj2 (String.eqb_neq room "")) by done. cbn [negb hook loads
    messageLoadAttemptRef].
  split; [done|]. split; [done|]. split; [done|]. split; [done|]. split.
  - intros m. unfold rejected, seen. cbn. destruct (_id m) as [k|]; [|done].
    cbn. rewrite bool_decide_eq_false_2 by set_solver. by rewrite orb_false_r.
  - intros loaded hasMore isInitialLoad.
    match goal with |- context [exec _ ?s] =>
      destruct (processMessages_store loaded hasMore isInitialLoad s)
        as (acc & st' & Hrun & Hst & _) end.
    unfold exec. rewrite Hrun. cbn [snd]. rewrite Hst. apply dedupe_NoDup.
Qed.

Lemma retry_forgets_seen_ids_witness :
  let p := sample_page (sample_state None) in
  let p' := retryMessageLoad p in
  messages (hook p') = messages (hook p)
  ∧ loads p' = ["room1"]
  ∧ messageLoadAttemptRef p' = 0
  ∧ initialLoadCompletedRef (hook p') = false
  ∧ (∀ m, rejected (hook p') m = negb (truthy (_id m)))
  ∧ ∀ loaded hasMore isInitialLoad,
      NoDup (ids (elems (messages
                (exec (processMessages (IsArray loaded) hasMore isInitialLoad)
                   (hook p'))))).
Proof.
  apply (retry_forgets_seen_ids (sample_page (sample_state None)) "room1").
  - reflexivity.
  - reflexivity.
  - discriminate.
Defined.

(* ===================================================================== *)
(** ** ChatInput.js: files *)
(* ===================================================================== *)

(** X28.  With files attached, [handleSubmit] sends the first file and
    only that one, with the trimmed text as its content, whether the text
    is empty or not; the text is not sent as a message of its own.  When
    the promise is fulfilled the textarea is emptied and all attached
    files are dropped, those that were not sent included; when it is
    rejected the files and the text stay.  The call is a duplicate, and
    sends nothing, when the last submission was a file of the same name
    less than 700 ms ago, whatever the text. *)
Theorem submit_sends_the_first_file_only now i file rest :
  submitLockRef i = false → files i = file :: rest →
  if bool_decide (l_type (lastSubmitRef i) = Some "file")
     && bool_decide (l_fileName (lastSubmitRef i) = Some (f_name file))
     && (now - l_time (lastSubmitRef i) <? 700)%Z
  then handleSubmit now i = (i, None)
  else
    let sent := {| s_type := "file"; s_content := trim (value i);
                   s_fileData := Some file |} in
    ∃ i1,
      handleSubmit now i = (i1, Some sent)
      ∧ files i1 = file :: rest
      ∧ files (handleSubmit_resume sent true i1) = []
      ∧ value (handleSubmit_resume sent true i1) = []
      ∧ files (handleSubmit_resume sent false i1) = file :: rest
      ∧ value (handleSubmit_resume sent false i1) = value i
      ∧ (∀ now', (now' - now < 700)%Z →
           ∀ resolved v,
             (handleSubmit now'
                (set_files (file :: rest)
                   (set_value v (handleSubmit_resume sent resolved i1)))).2
             = None).
Proof.
  intros Hlock Hfiles. unfold handleSubmit at 1 2. rewrite Hlock.
  cbn [files set_submitLockRef value lastSubmitRef]. rewrite Hfiles.
  case_match.
  - f_equal. destruct i. cbn in *. by subst.
  - cbn zeta. eexists. split; [done|].
    cbn [files set_lastSubmitRef set_submitLockRef].
    split; [done|]. unfold handleSubmit_resume. cbn [s_type].
    rewrite bool_decide_eq_true_2 by done.
    split; [done|]. split; [done|]. split; [done|]. split; [done|].
    intros now' Hlt resolved v. unfold handleSubmit.
    destruct resolved; cbn;
      rewrite !bool_decide_eq_true_2 by done;
      rewrite (proj2 (Z.ltb_lt _ _) Hlt); done.
Qed.

Lemma submit_sends_the_first_file_only_witness :
  let sent := {| s_type := "file"; s_content := text_of "see";
                 s_fileData := Some {| f_name := text_of "a.png" |} |} in
  ∃ i1,
    handleSubmit 1000 sample_attached = (i1, Some sent)
    ∧ files (handleSubmit_resume sent true i1) = [].
Proof.
  intros sent.
  destruct (submit_sends_the_first_file_only 1000 sample_attached
              {| f_name := text_of "a.png" |}
              [ {| f_name := text_of "b.png" |} ] eq_refl eq_refl)
    as (i1 & Hrun & _ & Hfiles & _).
  exists i1. split; [exact Hrun|exact Hfiles].
Defined.

(* ===================================================================== *)
(** ** Scenarios *)
(* ===================================================================== *)

(** A first batch [a] (instant 5), [b] (instant 2) with [hasMore] set
    leaves the store [b; a] and [hasMoreMessages] set. *)
Example scenario_first_batch :
  let st := run [Batch (IsArray [sample_message "a" 5; sample_message "b" 2])
                   (Some true) true] (initial (Some "room1") None) in
  ids (elems (messages st)) = [Some "b"; Some "a"]
  ∧ hasMoreMessages st = Some true
  ∧ initialLoadCompletedRef st = true.
Proof. vm_compute. done. Qed.

(** A batch sorts a store that live messages left out of order. *)
Example scenario_batch_after_live :
  let st := run [Live (Some (sample_message "a" 5));
                 Live (Some (sample_message "b" 2));
                 Batch (IsArray [sample_message "c" 3]) (Some false) false]
              (initial (Some "room1") None) in
  ids (elems (messages st)) = [Some "b"; Some "c"; Some "a"].
Proof. vm_compute. done. Qed.

(** User ["u1"] adds the same reaction to ["m1"] twice over a working
    connection: the second call returns the located message itself, and
    the store is the array the first call left. *)
Example scenario_add_twice :
  let add := ReactionAdd 0 "u1" (Some "m1") "ok" in
  let st1 := after [add] (sample_state (Some (sample_socket true false))) in
  let st2 := after [add; add]
               (sample_state (Some (sample_socket true false))) in
  messages st2 = messages st1
  ∧ (reactions ∘ val <$> elems (messages st1))
    = [Some {["ok" := ["u1"]]}; None].
Proof. vm_compute. done. Qed.

(** With the default reason a cleanup is the full reset; with the reason
    ["manual"] of [CLEANUP_REASONS] it is not. *)
Example scenario_cleanup_reasons :
  let st := sample_state (Some (sample_socket true false)) in
  elems (messages (after [Cleanup None] st)) = []
  ∧ error (after [Cleanup None] st) = None
  ∧ length (elems (messages
              (after [Cleanup (Some CLEANUP_REASONS.MANUAL)] st))) = 2.
Proof. vm_compute. done. Qed.

(** A handler one update behind: the server sets the reactions of
    ["m1"], and a reaction call without a connection, by the handler of
    the render before, puts back the message of its closure; a handler
    of the first render, whose closure holds no message, leaves the
    empty object. *)
Example scenario_stale_rollback :
  let evs := [Delivery (Live (Some (sample_message "m1" 5)));
              ReactionUpdate {| d_messageId := Some "m1";
                                d_reactions := Some {["ok" := ["u2"]]} |}] in
  let st0 := initial (Some "room1") None in
  (val <$> elems (messages (after evs st0)))
  = [with_reactions (Some {["ok" := ["u2"]]}) (sample_message "m1" 5)]
  ∧ (val <$> elems (messages
                      (after (evs ++ [ReactionAdd 1 "u1" (Some "m1") "ok"])
                         st0)))
    = [sample_message "m1" 5]
  ∧ (val <$> elems (messages
                      (after (evs ++ [ReactionAdd 2 "u1" (Some "m1") "ok"])
                         st0)))
    = [empty_object].
Proof. vm_compute. done. Qed.

(** A reaction named like a member of [Object.prototype]: the updater
    throws, the handler shows its toast and nothing is emitted. *)
Example scenario_inherited_name :
  let st := sample_state (Some (sample_socket true false)) in
  let st' :=
    exec (handleReactionAdd (elems (messages st)) "u1" (Some "m1")
            "constructor") st in
  toasts st' = ["리액션 추가에 실패했습니다."]
  ∧ socketRef st' = socketRef st
  ∧ elems (messages st') = elems (messages st).
Proof. vm_compute. done. Qed.
